(** * Quantitative-investing notebooks: portfolio sorts, value-weighted
      returns, shrinkage and Sharpe ratios

    A shallow embedding of the dataframe code of the lecture notebooks
    [Lectures/Topic2_WorkingWithDataframes.ipynb],
    [Lectures/Topic4_Factors_and_Alphas.ipynb] and
    [Lectures/Topic5_PortfolioOptimization.ipynb].

    Numbers.  A float64 cell is an [option Q]: [None] is NaN (pandas'
    missing value), [Some q] a finite number, and arithmetic is exact.
    Rounding is therefore not modelled, and a division by zero (IEEE gives
    an infinity or NaN) yields [None].  Equalities between computed
    numbers are stated up to [Qeq], lifted to cells as [cell_eq]. *)

From Stdlib Require Import QArith Qround ZArith List String Bool Lia Lqa.
From Stdlib Require Import Sorting.Sorted Sorting.Permutation.
Import ListNotations.

Local Open Scope Q_scope.

(** ** Python values: exceptions and float cells *)

Module Py.

Inductive exn : Set :=
| ValueError
| AttributeError
| NameError
| KeyError.

(** The outcome of a call: a returned value or a raised exception. *)
Inductive result (A : Type) : Type :=
| Return (a : A)
| Raise (e : exn).

Arguments Return {A} a.
Arguments Raise {A} e.

Definition bind {A B} (r : result A) (k : A -> result B) : result B :=
  match r with
  | Return a => k a
  | Raise e => Raise e
  end.

Fixpoint mapM {A B} (f : A -> result B) (l : list A) : result (list B) :=
  match l with
  | [] => Return []
  | a :: l' => bind (f a) (fun b => bind (mapM f l') (fun bs => Return (b :: bs)))
  end.

End Py.

Import Py.

Definition cell := option Q.

Definition NaN : cell := None.

Definition notnull (c : cell) : bool :=
  match c with Some _ => true | None => false end.

Definition isnull (c : cell) : bool := negb (notnull c).

Definition lift2 (f : Q -> Q -> Q) (a b : cell) : cell :=
  match a, b with
  | Some x, Some y => Some (f x y)
  | _, _ => None
  end.

Definition fadd := lift2 Qplus.
Definition fsub := lift2 Qminus.
Definition fmul := lift2 Qmult.

(** Float division; a zero divisor gives a non-finite value, read as
    missing. *)
Definition fdiv (a b : cell) : cell :=
  match a, b with
  | Some x, Some y => if Qeq_bool y 0 then None else Some (x / y)
  | _, _ => None
  end.

(** Comparisons are false as soon as one side is NaN. *)
Definition fle (a b : cell) : bool :=
  match a, b with Some x, Some y => Qle_bool x y | _, _ => false end.

Definition flt (a b : cell) : bool :=
  match a, b with Some x, Some y => negb (Qle_bool y x) | _, _ => false end.

Definition fge (a b : cell) : bool := fle b a.
Definition fgt (a b : cell) : bool := flt b a.

Definition feq (a b : cell) : bool :=
  match a, b with Some x, Some y => Qeq_bool x y | _, _ => false end.

(** Equality of cells up to the representation of rationals. *)
Definition cell_eq (a b : cell) : Prop :=
  match a, b with
  | Some x, Some y => x == y
  | None, None => True
  | _, _ => False
  end.

(** A Series of floats without its index, and the skipna reductions. *)
Definition dropna (l : list cell) : list Q :=
  flat_map (fun c => match c with Some q => [q] | None => [] end) l.

Definition Qsum (l : list Q) : Q := fold_right Qplus 0 l.

Definition Qlen (l : list Q) : Q := inject_Z (Z.of_nat (List.length l)).

(** [Series.mean()]: the mean of the non-missing values, NaN when there
    is none. *)
Definition mean (l : list cell) : cell :=
  match dropna l with
  | [] => None
  | x :: xs => Some (Qsum (x :: xs) / Qlen (x :: xs))
  end.

(** [Series.var()] with ddof=1: NaN with fewer than two observations. *)
Definition var (l : list cell) : cell :=
  match dropna l with
  | [] | [_] => None
  | xs =>
      let m := Qsum xs / Qlen xs in
      Some (Qsum (map (fun x => (x - m) * (x - m)) xs) / (Qlen xs - 1))
  end.

Definition std (np_sqrt : Q -> Q) (l : list cell) : cell :=
  option_map np_sqrt (var l).

(** ** Topic 5: shrinkage of means and covariances, Sharpe ratio *)

Module Topic5.

(** A dataframe of asset returns: one named column of floats per asset,
    all of the same length. *)
Definition Frame := list (string * list cell).

(** A Series labelled by asset. *)
Definition Series := list (string * cell).

(** A square frame such as [df.cov()]: row and column labels, and the
    underlying 2-D array [.values]. *)
Record Matrix := mkMatrix { labels : list string; values : list (list cell) }.

(** [df.mean()]: the mean of every column. *)
Definition df_mean (df : Frame) : Series :=
  map (fun c => (fst c, mean (snd c))) df.

(** [Series.mean()] on a labelled Series. *)
Definition series_mean (s : Series) : cell := mean (map snd s).

(** The observations on which two columns are both present. *)
Fixpoint complete_pairs (x y : list cell) : list (Q * Q) :=
  match x, y with
  | Some a :: x', Some b :: y' => (a, b) :: complete_pairs x' y'
  | _ :: x', _ :: y' => complete_pairs x' y'
  | _, _ => []
  end.

(** One entry of [df.cov()]: the sample covariance (ddof=1) over the
    pairwise complete observations, NaN with fewer than two of them. *)
Definition cov_pair (x y : list cell) : cell :=
  match complete_pairs x y with
  | [] | [_] => None
  | ps =>
      let n := Qlen (map fst ps) in
      let mx := Qsum (map fst ps) / n in
      let my := Qsum (map snd ps) / n in
      Some (Qsum (map (fun p => (fst p - mx) * (snd p - my)) ps) / (n - 1))
  end.

Definition df_cov (df : Frame) : Matrix :=
  mkMatrix (map fst df)
           (map (fun a => map (fun b => cov_pair (snd a) (snd b)) df) df).

(** [np.eye(n, dtype=bool)]. *)
Definition np_eye (n : nat) : list (list bool) :=
  map (fun i => map (fun j => Nat.eqb i j) (seq 0 n)) (seq 0 n).

(** [a[mask] *= k] on a 2-D array, for a mask of the same shape. *)
Definition imul_where (a : list (list cell)) (mask : list (list bool)) (k : cell)
  : list (list cell) :=
  map (fun rm : list cell * list bool =>
         map (fun vm : cell * bool => if snd vm then fmul (fst vm) k else fst vm)
             (combine (fst rm) (snd rm)))
      (combine a mask).

Definition invert (mask : list (list bool)) : list (list bool) :=
  map (map negb) mask.

(** [compute_cov_matrix(df, shrink_pct)].  [df] may be Python's [None];
    [shrink_pct] is a float and may be NaN.  The in-place update through
    [cov.values] writes into the frame that is returned. *)
Definition compute_cov_matrix (df : option Frame) (shrink_pct : cell)
  : result Matrix :=
  match df with
  | None => Raise ValueError
  | Some df =>
      if negb (fle (Some 0) shrink_pct && fle shrink_pct (Some 1))
      then Raise ValueError
      else
        let cov := df_cov df in
        if fgt shrink_pct (Some 0) then
          let diagonal_mask := np_eye (List.length (values cov)) in
          Return (mkMatrix (labels cov)
                    (imul_where (values cov) (invert diagonal_mask)
                                (fsub (Some 1) shrink_pct)))
        else Return cov
  end.

(** [compute_mean_returns(df, shrink_pct)]; [df.mean()] on [None] is an
    AttributeError. *)
Definition compute_mean_returns (df : option Frame) (shrink_pct : cell)
  : result Series :=
  match df with
  | None => Raise AttributeError
  | Some df =>
      let mean := df_mean df in
      if fgt shrink_pct (Some 1) then Raise ValueError
      else if fgt shrink_pct (Some 0) then
        let overall_mean := series_mean mean in
        Return (map (fun m => (fst m,
                       fadd (fmul (fsub (Some 1) shrink_pct) (snd m))
                            (fmul shrink_pct overall_mean))) mean)
      else Return mean
  end.

(** [analyze_returns(r, rf, title)]: the Sharpe ratio it computes and
    prints; [rf] is [None] when the argument is not supplied.  The plot
    and the two-decimal formatting of the printed line are not modelled.
    [np_sqrt] stands for [np.sqrt]. *)
Definition analyze_returns (np_sqrt : Q -> Q) (r : list cell) (rf : option cell)
  : cell :=
  match rf with
  | Some rf => fdiv (fmul (Some (np_sqrt 12)) (fsub (mean r) rf)) (std np_sqrt r)
  | None => fdiv (fmul (Some (np_sqrt 12)) (mean r)) (std np_sqrt r)
  end.

End Topic5.

(** Entry [(i, j)] of a 2-D array. *)
Definition entry (a : list (list cell)) (i j : nat) : cell :=
  nth j (nth i a []) NaN.

(** ** The stock panel: a long dataframe indexed by (PERMNO, date)

    A row carries its index labels and its float columns by name.  [date]
    is the ordinal of a monthly period (months since 1970-01, as pandas'
    [Period] has it), so that the calendar month is [date mod 12 + 1].
    Rows are kept in frame order.  A column a row does not carry reads as
    NaN (pandas raises KeyError when the frame lacks the column; the
    frames considered carry the columns that are named, and no column
    called [breakpoint]). *)

Module Panel.

Local Open Scope string_scope.

Record Row := mkRow { PERMNO : Z; date : Z; cols : list (string * cell) }.

Definition DataFrame := list Row.

Definition label (r : Row) : Z * Z := (PERMNO r, date r).

Definition label_eqb (a b : Z * Z) : bool :=
  Z.eqb (fst a) (fst b) && Z.eqb (snd a) (snd b).

Fixpoint assoc (c : string) (l : list (string * cell)) : cell :=
  match l with
  | [] => NaN
  | (k, v) :: l' => if String.eqb k c then v else assoc c l'
  end.

(** Replace the column when the row has it, append it otherwise. *)
Fixpoint assoc_set (c : string) (v : cell) (l : list (string * cell))
  : list (string * cell) :=
  match l with
  | [] => [(c, v)]
  | (k, x) :: l' =>
      if String.eqb k c then (k, v) :: l' else (k, x) :: assoc_set c v l'
  end.

(** [row[c]] *)
Definition get (r : Row) (c : string) : cell := assoc c (cols r).

Definition set (c : string) (v : cell) (r : Row) : Row :=
  mkRow (PERMNO r) (date r) (assoc_set c v (cols r)).

(** [df[c] = v] for a scalar [v]. *)
Definition set_column (c : string) (v : cell) (df : DataFrame) : DataFrame :=
  map (set c v) df.

(** [df[c] = s] for a Series [s] that shares the frame's index. *)
Fixpoint assign_column (c : string) (s : list cell) (df : DataFrame) : DataFrame :=
  match df, s with
  | r :: df', v :: s' => set c v r :: assign_column c s' df'
  | _, _ => df
  end.

(** [df.loc[labels, c] = v]: every row whose index label is listed. *)
Definition loc_assign (labels : list (Z * Z)) (c : string) (v : cell)
  (df : DataFrame) : DataFrame :=
  map (fun r => if existsb (label_eqb (label r)) labels then set c v r else r) df.

(** [df.loc[mask, c] = v] for a boolean array computed from each row. *)
Definition mask_assign (mask : Row -> bool) (c : string) (v : cell)
  (df : DataFrame) : DataFrame :=
  map (fun r => if mask r then set c v r else r) df.

(** [df[c]] with the PERMNO level of its index. *)
Definition by_permno (c : string) (df : DataFrame) : list (Z * cell) :=
  map (fun r => (PERMNO r, get r c)) df.

(** *** groupby(level='PERMNO').shift *)

(** The value in the nearest later row of the same PERMNO. *)
Fixpoint next_in_group (p : Z) (rest : list (Z * cell)) : cell :=
  match rest with
  | [] => NaN
  | (p', v) :: rest' => if Z.eqb p p' then v else next_in_group p rest'
  end.

(** [s.groupby(level='PERMNO').shift(-1)] *)
Fixpoint group_shift_back (s : list (Z * cell)) : list cell :=
  match s with
  | [] => []
  | (p, _) :: rest => next_in_group p rest :: group_shift_back rest
  end.

(** [s.groupby(level='PERMNO').shift(1)] *)
Definition group_shift (s : list (Z * cell)) : list cell :=
  rev (group_shift_back (rev s)).

(** *** groupby(level='PERMNO').ffill(limit=n) *)

(** The nearest non-missing value among the [n] nearest earlier rows of the
    same PERMNO; [before] lists the earlier rows, nearest first. *)
Fixpoint lookback (n : nat) (p : Z) (before : list (Z * cell)) : cell :=
  match n with
  | O => NaN
  | S k =>
      match before with
      | [] => NaN
      | (p', v) :: b =>
          if Z.eqb p p'
          then match v with Some _ => v | None => lookback k p b end
          else lookback (S k) p b
      end
  end.

Fixpoint ffill_rev (limit : nat) (s : list (Z * cell)) : list cell :=
  match s with
  | [] => []
  | (p, v) :: before =>
      match v with
      | Some _ => v
      | None => lookback limit p before
      end :: ffill_rev limit before
  end.

Definition group_ffill (limit : nat) (s : list (Z * cell)) : list cell :=
  rev (ffill_rev limit (rev s)).

(** *** Sorting with removal of duplicates, as groupby keys are *)

Fixpoint insert_uniq {A} (cmp : A -> A -> comparison) (x : A) (l : list A)
  : list A :=
  match l with
  | [] => [x]
  | y :: l' =>
      match cmp x y with
      | Lt => x :: l
      | Eq => l
      | Gt => y :: insert_uniq cmp x l'
      end
  end.

Definition sort_uniq {A} (cmp : A -> A -> comparison) (l : list A) : list A :=
  fold_right (insert_uniq cmp) [] l.

(** *** np.percentile *)

Fixpoint insert_sorted (x : Q) (l : list Q) : list Q :=
  match l with
  | [] => [x]
  | y :: l' => if Qle_bool x y then x :: l else y :: insert_sorted x l'
  end.

Definition sort (l : list Q) : list Q := fold_right insert_sorted [] l.

(** Linear interpolation in the sorted sample at the virtual index
    [q/100 * (n-1)]; NaN on an empty sample. *)
Definition interpolate (x : list Q) (q : Q) : cell :=
  match x with
  | [] => NaN
  | _ =>
      let s := sort x in
      let n := List.length x in
      let virtual_index := q / 100 * (Qlen x - 1) in
      let previous := Z.to_nat (Qfloor virtual_index) in
      let next := Nat.min (previous + 1) (n - 1) in
      let gamma := virtual_index - inject_Z (Qfloor virtual_index) in
      Some (nth previous s 0 + gamma * (nth next s 0 - nth previous s 0))
  end.

(** [np.percentile(x, q)] with the default linear interpolation.  A
    percentile outside [0, 100] is a ValueError. *)
Definition np_percentile (x : list Q) (q : Q) : result cell :=
  if Qle_bool 0 q && Qle_bool q 100 then Return (interpolate x q)
  else Raise ValueError.

(** [s.dropna()] on a Series indexed by date. *)
Definition dropna_by_date (s : list (Z * cell)) : list (Z * Q) :=
  flat_map (fun x => match snd x with Some q => [(fst x, q)] | None => [] end) s.

(** The groups of [s.groupby(level='date')]: the dates present, in
    increasing order, each with its values in frame order. *)
Definition groupby_date (s : list (Z * Q)) : list (Z * list Q) :=
  map (fun d => (d, map snd (filter (fun x => Z.eqb (fst x) d) s)))
      (sort_uniq Z.compare (map fst s)).

(** [grp.apply(lambda x: np.percentile(x, pct))]: a Series indexed by
    date. *)
Definition apply_percentile (grp : list (Z * list Q)) (pct : Q)
  : result (list (Z * cell)) :=
  mapM (fun g => bind (np_percentile (snd g) pct) (fun b => Return (fst g, b))) grp.

Fixpoint lookup_date (d : Z) (s : list (Z * cell)) : cell :=
  match s with
  | [] => NaN
  | (d', v) :: s' => if Z.eqb d d' then v else lookup_date d s'
  end.

(** [df.merge(breakpoint, left_on='date', right_index=True, how='left')]:
    every row of [df], in order and under its own label, with the
    breakpoint of its date (NaN when the date has none). *)
Definition merge_breakpoint (df : DataFrame) (breakpoint : list (Z * cell))
  : list (Row * cell) :=
  map (fun r => (r, lookup_date (date r) breakpoint)) df.

Definition month (d : Z) : Z := d mod 12 + 1.

(** The rows of one month, in frame order. *)
Definition rows_at (d : Z) (df : DataFrame) : DataFrame :=
  filter (fun r => Z.eqb (date r) d) df.



(** The frame lists the rows of every stock in strictly increasing date
    order; its labels are then unique. *)
Fixpoint dates_increasing (df : DataFrame) : bool :=
  match df with
  | [] => true
  | r :: rest =>
      forallb (fun x => negb (Z.eqb (PERMNO x) (PERMNO r))
                        || Z.ltb (date r) (date x)) rest
      && dates_increasing rest
  end.

(** A panel without gaps: the next row of a stock, when there is one, is
    dated one month later. *)
Fixpoint contiguous (df : DataFrame) : bool :=
  match df with
  | [] => true
  | r :: rest =>
      match find (fun x => Z.eqb (PERMNO x) (PERMNO r)) rest with
      | None => true
      | Some x => Z.eqb (date x) (date r + 1)
      end
      && contiguous rest
  end.

End Panel.

(** ** The notebook as a stateful program

    A dataframe is a mutable object: the notebook state holds the objects
    by address, and the module-level variable [sort_variables].  A call
    returns a value or raises, and leaves a new state either way. *)

Module Notebook.

Import Panel.

Definition addr := nat.

Record State := mkState {
  heap : addr -> DataFrame;
  sort_variables : list string
}.

Definition M (A : Type) : Type := State -> result A * State.

Definition ret {A} (a : A) : M A := fun st => (Return a, st).

Definition raise {A} (e : exn) : M A := fun st => (Raise e, st).

Definition bind {A B} (m : M A) (k : A -> M B) : M B :=
  fun st =>
    match m st with
    | (Return a, st') => k a st'
    | (Raise e, st') => (Raise e, st')
    end.

(** A pure computation that may raise. *)
Definition lift {A} (r : result A) : M A := fun st => (r, st).

(** Read the object behind a reference. *)
Definition read (a : addr) : M DataFrame := fun st => (Return (heap st a), st).

(** Update the object behind a reference in place. *)
Definition modify (a : addr) (f : DataFrame -> DataFrame) : M unit :=
  fun st =>
    (Return tt,
     mkState (fun b => if Nat.eqb b a then f (heap st a) else heap st b)
             (sort_variables st)).

(** Read the global [sort_variables]. *)
Definition global_sort_variables : M (list string) :=
  fun st => (Return (sort_variables st), st).

Definition run {A} (m : M A) (st : State) : result A * State := m st.

(** Two states that differ at most in the object behind [a]. *)
Definition same_except (a : addr) (st st' : State) : Prop :=
  (forall b, b <> a -> heap st' b = heap st b) /\
  sort_variables st' = sort_variables st.

End Notebook.

Declare Scope nb_scope.
Delimit Scope nb_scope with nb.
Notation "x <- c ;; k" := (Notebook.bind c (fun x => k))
  (at level 61, c at next level, right associativity) : nb_scope.
Notation "c ;;; k" := (Notebook.bind c (fun _ => k))
  (at level 61, right associativity) : nb_scope.

(** ** Topic 4: portfolio sorts and value-weighted portfolio returns *)

Module Topic4.

Import Panel Notebook.

Local Open Scope string_scope.

(** A frame indexed by date with one column per bucket, as [unstack]
    produces. *)
Record Wide := mkWide {
  index : list Z;
  columns : list (list Q);
  values : list (list cell)
}.

(** The state of the local variables of [portfolio_sort]'s loop:
    [group_id], and [df_merged], unbound before the first iteration. *)
Definition locals : Type := Z * option (list (Row * cell)).

(** One iteration of [for pct in percentiles]. *)
Definition sort_step (df : addr) (col id_col : string) (grp : list (Z * list Q))
  (loc : locals) (pct : Q) : M locals :=
  (breakpoint <- lift (apply_percentile grp pct) ;;
   d <- read df ;;
   let df_merged := merge_breakpoint d breakpoint in
   let assigned :=
     filter (fun rb => isnull (get (fst rb) id_col)
                       && fle (get (fst rb) col) (snd rb)) df_merged in
   modify df (loc_assign (map (fun rb => label (fst rb)) assigned) id_col
                         (Some (inject_Z (fst loc)))) ;;;
   ret ((fst loc + 1)%Z, Some df_merged))%nb.

Fixpoint for_each {A S} (body : S -> A -> M S) (l : list A) (s : S) : M S :=
  match l with
  | [] => ret s
  | a :: l' => (s' <- body s a ;; for_each body l' s')%nb
  end.

(** [portfolio_sort(df, col, nyse, percentiles, id_col, annual)] *)
Definition portfolio_sort (df : addr) (col : string) (nyse : bool)
  (percentiles : list Q) (id_col : string) (annual : bool) : M addr :=
  (d0 <- read df ;;
   let sortvar :=
     if nyse
     then map (fun r => (date r, get r col))
              (filter (fun r => feq (get r "EXCHCD") (Some 1)) d0)
     else map (fun r => (date r, get r col)) d0 in
   modify df (set_column id_col NaN) ;;;
   let grp := groupby_date (dropna_by_date sortvar) in
   loc <- for_each (sort_step df col id_col grp) percentiles (1%Z, None) ;;
   match snd loc with
   | None => raise NameError
   | Some df_merged =>
       let assigned :=
         filter (fun rb => isnull (get (fst rb) id_col)
                           && fgt (get (fst rb) col) (snd rb)) df_merged in
       modify df (loc_assign (map (fun rb => label (fst rb)) assigned) id_col
                             (Some (inject_Z (fst loc)))) ;;;
       (if annual then
          modify df (mask_assign (fun r => negb (Z.eqb (month (date r)) 6))
                                 id_col NaN) ;;;
          modify df (fun d => assign_column id_col
                                (group_ffill 11 (by_permno id_col d)) d)
        else ret tt) ;;;
       ret df
   end)%nb.

(** The key of a row in [groupby(by=['date'] + sort_groups)]; a row with
    a missing key is in no group. *)
Fixpoint all_present (l : list cell) : option (list Q) :=
  match l with
  | [] => Some []
  | Some q :: l' => option_map (cons q) (all_present l')
  | None :: _ => None
  end.

Definition bucket_of (sort_groups : list string) (r : Row) : option (list Q) :=
  all_present (map (get r) sort_groups).

Fixpoint bucket_compare (a b : list Q) : comparison :=
  match a, b with
  | [], [] => Eq
  | [], _ :: _ => Lt
  | _ :: _, [] => Gt
  | x :: a', y :: b' =>
      match Qcompare x y with
      | Eq => bucket_compare a' b'
      | c => c
      end
  end.

Definition key : Type := Z * list Q.

Definition key_compare (a b : key) : comparison :=
  match Z.compare (fst a) (fst b) with
  | Eq => bucket_compare (snd a) (snd b)
  | c => c
  end.

Definition key_eqb (a b : key) : bool :=
  match key_compare a b with Eq => true | _ => false end.

Definition keyed (sort_groups : list string) (df : DataFrame) : list (key * Row) :=
  flat_map (fun r => match bucket_of sort_groups r with
                     | Some b => [((date r, b), r)]
                     | None => []
                     end) df.

(** The rows of one group, in frame order. *)
Definition members (k : key) (rows : list (key * Row)) : list Row :=
  map snd (filter (fun kr => key_eqb (fst kr) k) rows).

(** [.sum()] of a column over a group; missing values are skipped. *)
Definition col_sum (c : string) (rows : list Row) : cell :=
  Some (Qsum (dropna (map (fun r => get r c) rows))).

(** [groupby(by=['date'] + sort_groups)[['me', 'me_x_retnm']].sum()]: one
    line per key present, keys in increasing order. *)
Definition groupby_sums (sort_groups : list string) (df : DataFrame)
  : list (key * (cell * cell)) :=
  let rows := keyed sort_groups df in
  map (fun k => (k, (col_sum "me" (members k rows),
                     col_sum "me_x_retnm" (members k rows))))
      (sort_uniq key_compare (map fst rows)).

Fixpoint lookup_key (k : key) (s : list (key * cell)) : cell :=
  match s with
  | [] => NaN
  | (k', v) :: s' => if key_eqb k k' then v else lookup_key k s'
  end.

(** [s.unstack(level=sort_groups)] *)
Definition unstack (s : list (key * cell)) : Wide :=
  let index := sort_uniq Z.compare (map (fun kv => fst (fst kv)) s) in
  let columns := sort_uniq bucket_compare (map (fun kv => snd (fst kv)) s) in
  mkWide index columns
         (map (fun d => map (fun b => lookup_key (d, b) s) columns) index).

(** [w.shift(1)]: every column moves down one row of the index. *)
Definition shift1 (w : Wide) : Wide :=
  mkWide (index w) (columns w)
         (match values w with
          | [] => []
          | _ :: _ => map (fun _ => NaN) (columns w) :: removelast (values w)
          end).

(** [compute_portfolio_returns(df, sort_groups)].  The two [display]
    calls only print the shape.  [df = df[ok]] rebinds the local name to
    a new frame; the two column assignments before it write into the
    caller's object. *)
Definition compute_portfolio_returns (df : addr) (sort_groups : list string)
  : M Wide :=
  (d <- read df ;;
   modify df (assign_column "retnm" (group_shift_back (by_permno "ret" d))) ;;;
   d <- read df ;;
   modify df (assign_column "me_x_retnm"
                (map (fun r => fmul (get r "me") (get r "retnm")) d)) ;;;
   d <- read df ;;
   sort_variables <- global_sort_variables ;;
   let ok := fun r =>
     fold_left (fun ok required_var => ok && notnull (get r required_var))
               ("retnm" :: sort_variables) (notnull (get r "me")) in
   let df := filter ok d in
   let sums := groupby_sums sort_groups df in
   let portfolio_returns :=
     map (fun ks => (fst ks, fdiv (snd (snd ks)) (fst (snd ks)))) sums in
   let portfolio_returns := unstack portfolio_returns in
   let portfolio_returns := shift1 portfolio_returns in
   ret portfolio_returns)%nb.

(** [r.loc[start_date:end_date]] on a Series indexed by month: label
    slicing keeps both end points. *)
Definition loc_slice (r : list (Z * cell)) (start_date end_date : Z)
  : list (Z * cell) :=
  filter (fun x => Z.leb start_date (fst x) && Z.leb (fst x) end_date) r.

(** The defaults ['1962-05'] and ['2023-09'] as period ordinals. *)
Definition default_start_date : Z := (-92)%Z.
Definition default_end_date : Z := 644%Z.

(** [analyze_returns(r, name, start_date, end_date)]: the Sharpe ratio
    [ir] it computes and prints.  The plot and the two-decimal
    formatting of the printed line are not modelled; [np_sqrt] stands
    for [np.sqrt]. *)
Definition analyze_returns (np_sqrt : Q -> Q) (r : list (Z * cell))
  (start_date end_date : Z) : cell :=
  let r := loc_slice r start_date end_date in
  fdiv (fmul (Some (np_sqrt 12)) (mean (map snd r))) (std np_sqrt (map snd r)).

(** *** The same computation as three functions of their arguments

    These follow the specification: compute breakpoints, assign buckets,
    aggregate weighted returns.  None reads or writes the notebook
    state. *)

(** The groups of sort values by date, over NYSE stocks when [nyse]. *)
Definition sort_universe (col : string) (nyse : bool) (df : DataFrame)
  : list (Z * list Q) :=
  groupby_date (dropna_by_date
    (map (fun r => (date r, get r col))
         (if nyse then filter (fun r => feq (get r "EXCHCD") (Some 1)) df
          else df))).

(** Compute breakpoints: one Series of breakpoints by date for each
    requested percentile. *)
Definition compute_breakpoints (df : DataFrame) (col : string) (nyse : bool)
  (percentiles : list Q) : result (list (list (Z * cell))) :=
  mapM (apply_percentile (sort_universe col nyse df)) percentiles.

(** The labels of the rows still unassigned whose value exceeds the
    breakpoint. *)
Definition above_labels (col id_col : string) (merged : list (Row * cell))
  : list (Z * Z) :=
  map (fun rb => label (fst rb))
      (filter (fun rb => isnull (get (fst rb) id_col)
                         && fgt (get (fst rb) col) (snd rb)) merged).

(** One pass of the assignment: the rows still unassigned whose value is
    at or below the breakpoint get [group_id]. *)
Definition assign_below (col id_col : string) (group_id : Z)
  (breakpoint : list (Z * cell)) (df : DataFrame) : DataFrame :=
  let merged := merge_breakpoint df breakpoint in
  let assigned :=
    filter (fun rb => isnull (get (fst rb) id_col)
                      && fle (get (fst rb) col) (snd rb)) merged in
  loc_assign (map (fun rb => label (fst rb)) assigned) id_col
             (Some (inject_Z group_id)) df.

(** The passes in order; the result also carries the frame as it stood
    before the last pass, merged with the last breakpoint. *)
Fixpoint assign_passes (col id_col : string) (group_id : Z)
  (breakpoints : list (list (Z * cell))) (df : DataFrame)
  (last : option (list (Row * cell)))
  : DataFrame * Z * option (list (Row * cell)) :=
  match breakpoints with
  | [] => (df, group_id, last)
  | b :: bs =>
      assign_passes col id_col (group_id + 1) bs
                    (assign_below col id_col group_id b df)
                    (Some (merge_breakpoint df b))
  end.

Definition keep_june_and_carry (id_col : string) (df : DataFrame) : DataFrame :=
  let june_only :=
    mask_assign (fun r => negb (Z.eqb (month (date r)) 6)) id_col NaN df in
  assign_column id_col (group_ffill 11 (by_permno id_col june_only)) june_only.

(** Assign buckets from the breakpoints. *)
Definition assign_buckets (df : DataFrame) (col id_col : string)
  (breakpoints : list (list (Z * cell))) (annual : bool) : result DataFrame :=
  match assign_passes col id_col 1 breakpoints (set_column id_col NaN df) None with
  | (_, _, None) => Raise NameError
  | (df', group_id, Some merged) =>
      let df'' := loc_assign (above_labels col id_col merged) id_col
                             (Some (inject_Z group_id)) df' in
      Return (if annual then keep_june_and_carry id_col df'' else df'')
  end.

(** The frame with next month's return and its product with market
    equity. *)
Definition with_next_return (df : DataFrame) : DataFrame :=
  let df1 := assign_column "retnm" (group_shift_back (by_permno "ret" df)) df in
  assign_column "me_x_retnm"
    (map (fun r => fmul (get r "me") (get r "retnm")) df1) df1.

Definition complete_row (sort_variables : list string) (r : Row) : bool :=
  notnull (get r "me") && notnull (get r "retnm")
  && forallb (fun v => notnull (get r v)) sort_variables.

(** Aggregate weighted returns. *)
Definition aggregate_weighted_returns (df : DataFrame)
  (sort_variables sort_groups : list string) : Wide :=
  let rows := filter (complete_row sort_variables) (with_next_return df) in
  shift1 (unstack (map (fun ks => (fst ks, fdiv (snd (snd ks)) (fst (snd ks))))
                       (groupby_sums sort_groups rows))).

(** *** The sort read row by row *)

(** What one pass does to a row, given the Series of breakpoints. *)
Definition pass_row (col id_col : string) (group_id : Z)
  (breakpoint : list (Z * cell)) (r : Row) : Row :=
  if isnull (get r id_col) && fle (get r col) (lookup_date (date r) breakpoint)
  then set id_col (Some (inject_Z group_id)) r
  else r.

Fixpoint row_passes (col id_col : string) (group_id : Z)
  (breakpoints : list (list (Z * cell))) (r : Row) : Row :=
  match breakpoints with
  | [] => r
  | b :: bs => row_passes col id_col (group_id + 1) bs (pass_row col id_col group_id b r)
  end.

(** The first bucket, counted from [i], whose breakpoint is at or above
    the value. *)
Fixpoint first_le (i : Z) (v : cell) (breakpoints : list cell) : cell :=
  match breakpoints with
  | [] => NaN
  | b :: rest => if fle v b then Some (inject_Z i) else first_le (i + 1) v rest
  end.

(** The bucket of a value given the breakpoints of its date, in the order
    of the requested percentiles: the first bucket whose breakpoint is at
    or above the value, one more than the number of breakpoints when the
    value exceeds the last one and no earlier rule applied, and no bucket
    when the comparisons fail (a missing value or missing breakpoints). *)
Fixpoint bucket_rule (i : Z) (v : cell) (breakpoints : list cell) : cell :=
  match breakpoints with
  | [] => NaN
  | b :: rest =>
      if fle v b then Some (inject_Z i)
      else match rest with
           | [] => if fgt v b then Some (inject_Z (i + 1)) else NaN
           | _ :: _ => bucket_rule (i + 1) v rest
           end
  end.

(** The breakpoints of date [d], one per percentile. *)
Definition breakpoints_at (breakpoints : list (list (Z * cell))) (d : Z)
  : list cell :=
  map (lookup_date d) breakpoints.

(** The cross-section of a period: the non-missing sort values of the
    rows dated [d], over NYSE stocks when [nyse]. *)
Definition cross_section (df : DataFrame) (col : string) (nyse : bool) (d : Z)
  : list Q :=
  dropna (map (fun r => get r col)
              (filter (fun r => Z.eqb (date r) d)
                      (if nyse
                       then filter (fun r => feq (get r "EXCHCD") (Some 1)) df
                       else df))).




(** *** The value-weighted return of a bucket, stated directly *)

(** Whether a row belongs to bucket [b] in month [d]. *)
Definition in_group (sort_groups : list string) (k : key) (r : Row) : bool :=
  match bucket_of sort_groups r with
  | Some b => key_eqb (date r, b) k
  | None => false
  end.

(** The value-weighted average return of bucket [b] in month [d], on a
    frame [rows] that carries next month's return in [retnm]: over the
    member rows whose market equity, next-month return and sort variables
    are all present, the sum of market equity times next-month return
    divided by the sum of market equity. *)
Definition value_weighted_return (rows : DataFrame)
  (sort_variables sort_groups : list string) (d : Z) (b : list Q) : cell :=
  let members :=
    filter (in_group sort_groups (d, b))
           (filter (complete_row sort_variables) rows) in
  fdiv (Some (Qsum (dropna (map (fun r => fmul (get r "me") (get r "retnm"))
                                members))))
       (Some (Qsum (dropna (map (fun r => get r "me") members)))).

(** *** The monthly sort and the next-month return, month by month *)

(** The frame after a sort with [annual=False], row by row. *)
Definition monthly_sort (df : DataFrame) (col : string) (nyse : bool)
  (pcts : list Q) (id_col : string) : DataFrame :=
  map (fun r => set id_col
                    (bucket_rule 1 (get r col)
                       (map (interpolate (cross_section df col nyse (date r))) pcts))
                    r) df.

(** A row with the return of the same stock among the rows of the next
    month of [frame], and its product with market equity. *)
Definition attach_next (frame : DataFrame) (r : Row) : Row :=
  let v := next_in_group (PERMNO r)
                         (by_permno "ret" (rows_at (date r + 1) frame)) in
  set "me_x_retnm" (fmul (get r "me") v) (set "retnm" v r).

(** *** The notebook cell that builds a factor

    [for sortvar in sort_variables: cs_crsp = portfolio_sort(df=cs_crsp,
    col=sortvar, nyse=True, percentiles=percentiles[sortvar],
    id_col=sortvar + '_group', annual=...)], then
    [compute_portfolio_returns(cs_crsp, sort_groups=sort_groups)] with
    [sort_groups = [sortvar + '_group' for sortvar in sort_variables]].
    [percentiles] is a dict; a missing key is a KeyError. *)

Fixpoint dict_get (d : list (string * list Q)) (k : string) : result (list Q) :=
  match d with
  | [] => Raise KeyError
  | (k', v) :: d' => if String.eqb k' k then Return v else dict_get d' k
  end.

Definition group_name (sortvar : string) : string := sortvar ++ "_group".

Definition factor_cell (cs_crsp : addr) (percentiles : list (string * list Q))
  (annual : bool) : M Wide :=
  (sort_variables <- global_sort_variables ;;
   cs_crsp <- for_each
     (fun cs_crsp sortvar =>
        pcts <- lift (dict_get percentiles sortvar) ;;
        portfolio_sort cs_crsp sortvar true pcts (group_name sortvar) annual)
     sort_variables cs_crsp ;;
   sort_variables <- global_sort_variables ;;
   let sort_groups := map group_name sort_variables in
   compute_portfolio_returns cs_crsp sort_groups)%nb.

(** The same cell composed from the three pure functions. *)
Fixpoint sort_all (df : DataFrame) (percentiles : list (string * list Q))
  (annual : bool) (sort_variables : list string) : result DataFrame :=
  match sort_variables with
  | [] => Return df
  | sortvar :: rest =>
      Py.bind (dict_get percentiles sortvar) (fun pcts =>
      Py.bind (compute_breakpoints df sortvar true pcts) (fun breakpoints =>
      Py.bind (assign_buckets df sortvar (group_name sortvar) breakpoints annual)
              (fun df' => sort_all df' percentiles annual rest)))
  end.

Definition factor_pure (df : DataFrame) (sort_variables : list string)
  (percentiles : list (string * list Q)) (annual : bool) : result Wide :=
  Py.bind (sort_all df percentiles annual sort_variables) (fun df' =>
  Return (aggregate_weighted_returns df' sort_variables
            (map group_name sort_variables))).

(** The percentiles requested for a sort variable, none when the dict
    lacks it. *)
Definition percentiles_of (percentiles : list (string * list Q))
  (sortvar : string) : list Q :=
  match dict_get percentiles sortvar with
  | Return pcts => pcts
  | Raise _ => []
  end.

(** Every sort variable has percentiles, at least one, all within
    [0, 100]. *)
Definition percentiles_ok (percentiles : list (string * list Q))
  (sort_variables : list string) : bool :=
  forallb (fun v =>
             match dict_get percentiles v with
             | Return (q :: qs) =>
                 forallb (fun q => Qle_bool 0 q && Qle_bool q 100) (q :: qs)
             | _ => false
             end) sort_variables.

(** The frame after the monthly sorts on all the sort variables. *)
Fixpoint sort_all_monthly (df : DataFrame)
  (percentiles : list (string * list Q)) (sort_variables : list string)
  : DataFrame :=
  match sort_variables with
  | [] => df
  | sortvar :: rest =>
      sort_all_monthly
        (monthly_sort df sortvar true (percentiles_of percentiles sortvar)
                      (group_name sortvar))
        percentiles rest
  end.

End Topic4.

(** ** Topic 2: the short-term reversal strategy

    The notebook builds the strategy cell by cell on the CRSP frame [df];
    every cell is a function of the frame left by the cell before it.
    The index labels (PERMNO, date) of [df] are taken to be unique, as
    they are in CRSP: each merge on the index then attaches its columns
    row by row. *)

Module Topic2.

Import Panel.

Local Open Scope string_scope.

(** [analyze_returns(r, name, start_date, end_date)], as in Topic 4. *)
Definition analyze_returns (np_sqrt : Q -> Q) (r : list (Z * cell))
  (start_date end_date : Z) : cell :=
  let r := Topic4.loc_slice r start_date end_date in
  fdiv (fmul (Some (np_sqrt 12)) (mean (map snd r))) (std np_sqrt (map snd r)).

(** [df[c] = f(row)] for a column computed row by row. *)
Definition assign_with (c : string) (f : Row -> cell) (df : DataFrame)
  : DataFrame :=
  map (fun r => set c (f r) r) df.

(** [df.drop(columns=cs)] *)
Definition drop_row (cs : list string) (r : Row) : Row :=
  mkRow (PERMNO r) (date r)
        (filter (fun kv => negb (existsb (String.eqb (fst kv)) cs)) (cols r)).

Definition drop_columns (cs : list string) (df : DataFrame) : DataFrame :=
  map (drop_row cs) df.

(** [(a <= b).astype('int')] *)
Definition of_bool (b : bool) : cell := Some (if b then 1 else 0).

(** [grp.apply(np.percentile, 10)] and [(..., 90)] on
    [grp = df['ret'].dropna().groupby(level=1)]. *)
Definition breakpoints (df : DataFrame)
  : result (list (Z * cell) * list (Z * cell)) :=
  let grp := groupby_date (dropna_by_date (map (fun r => (date r, get r "ret")) df)) in
  Py.bind (apply_percentile grp 10) (fun p10 =>
  Py.bind (apply_percentile grp 90) (fun p90 =>
  Return (p10, p90))).

(** [df.merge(breakpoints, left_on='date', right_index=True, how='left')] *)
Definition merge_breakpoints (bp : list (Z * cell) * list (Z * cell))
  (df : DataFrame) : DataFrame :=
  assign_with "p90" (fun r => lookup_date (date r) (snd bp))
    (assign_with "p10" (fun r => lookup_date (date r) (fst bp)) df).

(** The cell that creates [long], [short] and [position]. *)
Definition add_positions (df : DataFrame) : DataFrame :=
  let df := assign_with "long" (fun r => of_bool (fle (get r "ret") (get r "p10"))) df in
  let df := assign_with "short" (fun r => of_bool (fge (get r "ret") (get r "p90"))) df in
  assign_with "position" (fun r => fsub (get r "long") (get r "short")) df.

(** One line of [df[[c]].groupby(level='date').sum()]. *)
Definition sum_by_date (c : string) (df : DataFrame) (d : Z) : cell :=
  Some (Qsum (dropna (map (fun r => get r c)
                          (filter (fun r => Z.eqb (date r) d) df)))).

(** [ns = df[['long','short']].groupby(level='date').sum()],
    [weights = df[['long','short']] / ns], and the cell that replaces the
    indicators by the weights. *)
Definition add_weights (df : DataFrame) : DataFrame :=
  let weight := fun c r => fdiv (get r c) (sum_by_date c df (date r)) in
  map (fun rw => set "short" (snd (snd rw)) (set "long" (fst (snd rw)) (fst rw)))
      (combine (drop_columns ["p10"; "p90"; "long"; "short"] df)
               (map (fun r => (weight "long" r, weight "short" r)) df)).

(** [w = df[['long', 'short']].groupby(level='PERMNO').shift(1)] *)
Definition lagged_weights (c : string) (df : DataFrame) : list cell :=
  group_shift (by_permno c df).

(** [.sum(min_count=1)]: missing when nothing is present. *)
Definition sum_min_count_1 (l : list cell) : cell :=
  match dropna l with
  | [] => NaN
  | xs => Some (Qsum xs)
  end.

(** One column of [w.mul(df['ret'], axis=0)], indexed by date, and of
    its [.groupby(level='date').sum(min_count=1)]: a Series over the
    dates of the frame, in increasing order. *)
Definition products (c : string) (df : DataFrame) : list (Z * cell) :=
  combine (map date df)
          (map (fun wr => fmul (fst wr) (snd wr))
               (combine (lagged_weights c df) (map (fun r => get r "ret") df))).

Definition portfolio_returns (c : string) (df : DataFrame) : list (Z * cell) :=
  map (fun d => (d, sum_min_count_1
                      (map snd (filter (fun x => Z.eqb (fst x) d) (products c df)))))
      (sort_uniq Z.compare (map date df)).

(** The frame as it stands before the returns are computed. *)
Definition prepare (df : DataFrame) : result DataFrame :=
  Py.bind (breakpoints df) (fun bp =>
  Return (add_weights (add_positions (merge_breakpoints bp df)))).

(** [strev = portfolio_returns['long'] - portfolio_returns['short']]; the
    two columns share their index. *)
Definition strev (df : DataFrame) : result (list (Z * cell)) :=
  Py.bind (prepare df) (fun df =>
  Return (map (fun ls => (fst (fst ls), fsub (snd (fst ls)) (snd (snd ls))))
              (combine (portfolio_returns "long" df)
                       (portfolio_returns "short" df)))).

(** *** The value-weighted strategy *)







(** *** The same cells read row by row *)

Definition long_indicator (bp : list (Z * cell) * list (Z * cell)) (r : Row)
  : bool :=
  fle (get r "ret") (lookup_date (date r) (fst bp)).

Definition short_indicator (bp : list (Z * cell) * list (Z * cell)) (r : Row)
  : bool :=
  fge (get r "ret") (lookup_date (date r) (snd bp)).

(** The merge with the breakpoints and the three new columns, on one
    row. *)
Definition indicators (bp : list (Z * cell) * list (Z * cell)) (r : Row) : Row :=
  let r := set "p90" (lookup_date (date r) (snd bp))
               (set "p10" (lookup_date (date r) (fst bp)) r) in
  let r := set "long" (of_bool (fle (get r "ret") (get r "p10"))) r in
  let r := set "short" (of_bool (fge (get r "ret") (get r "p90"))) r in
  set "position" (fsub (get r "long") (get r "short")) r.


(** The number of rows dated [d] that satisfy [ind]. *)
Definition count_at (ind : Row -> bool) (df : DataFrame) (d : Z) : Q :=
  Qsum (map (fun r => if ind r then 1 else 0)
            (filter (fun r => Z.eqb (date r) d) df)).

(** The cell that replaces the indicators by the weights, on one row of
    the original frame. *)
Definition weighted (bp : list (Z * cell) * list (Z * cell)) (df : DataFrame)
  (r : Row) : Row :=
  set "short"
      (fdiv (of_bool (short_indicator bp r))
            (Some (count_at (short_indicator bp) df (date r))))
      (set "long"
           (fdiv (of_bool (long_indicator bp r))
                 (Some (count_at (long_indicator bp) df (date r))))
           (drop_row ["p10"; "p90"; "long"; "short"] (indicators bp r))).

End Topic2.

(** ** Sample data *)

Module Examples.

Definition two_assets : Topic5.Frame :=
  [("Food"%string, [Some (1#100); Some (3#100); None]);
   ("Beer"%string, [Some (5#100); Some (-1#100); Some (2#100)])].

(** A row of a small CRSP-like panel. *)
Definition stock (p d : Z) (exchcd me ret : cell) : Panel.Row :=
  Panel.mkRow p d [("EXCHCD"%string, exchcd); ("me"%string, me);
                   ("ret"%string, ret)].


(** Three stocks over months 1 to 3. *)
Definition three_stocks : Panel.DataFrame :=
  [stock 1 1 (Some 1) (Some 10) (Some (1#100));
   stock 1 2 (Some 1) (Some 11) (Some (2#100));
   stock 1 3 (Some 1) (Some 12) (Some (3#100));
   stock 2 1 (Some 1) (Some 20) (Some (-1#100));
   stock 2 2 (Some 1) (Some 21) (Some (4#100));
   stock 2 3 (Some 1) (Some 22) (Some (-2#100));
   stock 3 1 (Some 2) (Some 30) (Some (5#100));
   stock 3 2 (Some 2) (Some 31) (Some (6#100));
   stock 3 3 (Some 2) (Some 32) (Some (7#100))].


(** Two NYSE stocks from June 1970 (period 5) to October 1970; the two
    frames differ in June only, where the sizes of the stocks are
    swapped. *)
Definition june_small_first : Panel.DataFrame :=
  [stock 1 5 (Some 1) (Some 10) (Some (1#100));
   stock 1 6 (Some 1) (Some 11) (Some (2#100));
   stock 1 7 (Some 1) (Some 12) (Some (3#100));
   stock 1 8 (Some 1) (Some 13) (Some (4#100));
   stock 1 9 (Some 1) (Some 14) (Some (5#100));
   stock 2 5 (Some 1) (Some 20) (Some (-1#100));
   stock 2 6 (Some 1) (Some 21) (Some (-2#100));
   stock 2 7 (Some 1) (Some 22) (Some (-3#100));
   stock 2 8 (Some 1) (Some 23) (Some (-4#100));
   stock 2 9 (Some 1) (Some 24) (Some (-5#100))].

Definition june_small_second : Panel.DataFrame :=
  [stock 1 5 (Some 1) (Some 20) (Some (1#100));
   stock 1 6 (Some 1) (Some 11) (Some (2#100));
   stock 1 7 (Some 1) (Some 12) (Some (3#100));
   stock 1 8 (Some 1) (Some 13) (Some (4#100));
   stock 1 9 (Some 1) (Some 14) (Some (5#100));
   stock 2 5 (Some 1) (Some 10) (Some (-1#100));
   stock 2 6 (Some 1) (Some 21) (Some (-2#100));
   stock 2 7 (Some 1) (Some 22) (Some (-3#100));
   stock 2 8 (Some 1) (Some 23) (Some (-4#100));
   stock 2 9 (Some 1) (Some 24) (Some (-5#100))].

(** A notebook state that holds one frame, with the size sort. *)
Definition notebook (df : Panel.DataFrame) : Notebook.State :=
  Notebook.mkState (fun _ => df) ["me"%string].

Definition size_percentiles : list (string * list Q) := [("me"%string, [50])].

End Examples.

From Stdlib Require Import Ascii Qabs Qminmax.

(** The sum of [f] over a list. *)
Definition sumq {A} (f : A -> Q) (l : list A) : Q := Qsum (map f l).

(** ** Topic 5: portfolio returns and the objective functions of the
       optimizer *)

Module Optimization.

Import Topic5.

(** The number of rows of a frame given by its columns. *)
Definition nrows (df : Frame) : nat :=
  match df with
  | [] => 0%nat
  | c :: _ => List.length (snd c)
  end.

(** [df.mul(weights)] for a 1-D array: column [j] is multiplied by
    [weights[j]]; an array whose length is not the number of columns is a
    ValueError. *)
Definition df_mul (df : Frame) (weights : list Q) : result Frame :=
  if Nat.eqb (List.length weights) (List.length df)
  then Return (map (fun cw : (string * list cell) * Q =>
                      (fst (fst cw),
                       map (fun v => fmul v (Some (snd cw))) (snd (fst cw))))
                   (combine df weights))
  else Raise ValueError.

(** [df.sum(axis=1)]: the sum of every row, missing values skipped. *)
Definition sum_axis1 (df : Frame) : list cell :=
  map (fun i => Some (Qsum (dropna (map (fun c => nth i (snd c) NaN) df))))
      (seq 0 (nrows df)).

(** [df.mul(weights).sum(axis=1)] *)
Definition portfolio_return (df : Frame) (weights : list Q)
  : result (list cell) :=
  bind (df_mul df weights) (fun m => Return (sum_axis1 m)).

Definition fneg (a : cell) : cell := option_map Qopp a.

(** [np.sqrt] on a float: NaN on a negative number. *)
Definition fsqrt (np_sqrt : Q -> Q) (a : cell) : cell :=
  match a with
  | Some x => if Qle_bool 0 x then Some (np_sqrt x) else NaN
  | None => NaN
  end.

(** [neg_sharpe_ratio(weights, df, rf)] *)
Definition neg_sharpe_ratio (np_sqrt : Q -> Q) (weights : list Q) (df : Frame)
  (rf : cell) : result cell :=
  bind (df_mul df weights) (fun m =>
  let portfolio_return := sum_axis1 m in
  let sharpe_ratio :=
    fdiv (fmul (Some (np_sqrt 12)) (fsub (mean portfolio_return) rf))
         (std np_sqrt portfolio_return) in
  Return (fneg sharpe_ratio)).

(** [np.dot(a, b)] on two 1-D arrays: NaN is not skipped; arrays of
    different lengths are a ValueError. *)
Definition np_dot (a b : list cell) : result cell :=
  if Nat.eqb (List.length a) (List.length b)
  then Return (fold_right fadd (Some 0)
                 (map (fun ab : cell * cell => fmul (fst ab) (snd ab))
                      (combine a b)))
  else Raise ValueError.

(** [np.dot(m, w)] for a 2-D [m] and a 1-D [w]. *)
Definition mat_vec (m : list (list cell)) (w : list cell)
  : result (list cell) :=
  mapM (fun row => np_dot row w) m.

(** [np.dot(weights.T, np.dot(cov_matrix, weights))] *)
Definition portfolio_variance (cov_matrix : list (list cell)) (weights : list Q)
  : result cell :=
  bind (mat_vec cov_matrix (map Some weights)) (fun cw =>
  np_dot (map Some weights) cw).

(** [neg_sharpe_ratio2(weights, mean_returns, cov_matrix, rf)] *)
Definition neg_sharpe_ratio2 (np_sqrt : Q -> Q) (weights : list Q)
  (mean_returns : Series) (cov_matrix : Matrix) (rf : cell) : result cell :=
  bind (np_dot (map snd mean_returns) (map Some weights))
       (fun portfolio_return =>
  bind (portfolio_variance (values cov_matrix) weights) (fun v =>
  let portfolio_volatility := fsqrt np_sqrt v in
  let sharpe_ratio := fdiv (fsub portfolio_return rf) portfolio_volatility in
  Return (fneg sharpe_ratio))).

(** [np.array(len(industries) * [1. / len(industries)])]; with no
    industry the division raises ZeroDivisionError ([None]). *)
Definition weights_equal (industries : list string) : option (list Q) :=
  match industries with
  | [] => None
  | _ :: _ =>
      Some (repeat (1 / inject_Z (Z.of_nat (List.length industries)))
                   (List.length industries))
  end.

(** The equality constraint handed to the optimizer:
    [lambda x: np.sum(x) - 1]. *)
Definition constraint (x : list Q) : Q := Qsum x - 1.

(** [weights /= np.sum(weights)] on the random draws. *)
Definition normalize (weights : list Q) : list cell :=
  map (fun w => fdiv (Some w) (Some (Qsum weights))) weights.

(** The value of column [c] in row [t], read as 0 where it is missing. *)
Definition value_at (c : string * list cell) (t : nat) : Q :=
  match nth t (snd c) NaN with
  | Some q => q
  | None => 0
  end.

(** The entry of [df.cov()] for two columns, read as 0 where it is
    missing. *)
Definition cov_at (a b : string * list cell) : Q :=
  match cov_pair (snd a) (snd b) with
  | Some q => q
  | None => 0
  end.

(** No value of the frame is missing. *)
Definition complete_frame (df : Frame) : bool :=
  forallb (fun c => forallb notnull (snd c)) df.

(** All columns have the length of the first. *)
Definition rectangular (df : Frame) : bool :=
  forallb (fun c => Nat.eqb (List.length (snd c)) (nrows df)) df.

End Optimization.

(** ** The download of Ken French's data files

    [download_french_data(url, csvname, skiplines)] fetches a zip archive
    and cuts the monthly block out of one of its members.  The response
    is given by its status code and the archive it carries, a map from
    member names to their lines.  A line is a string over the code points
    below 256, as it stands after [decode]; [pd.read_csv] is not
    modelled. *)

Module FrenchData.

Local Open Scope string_scope.

(** [str.isspace] on one character, as [str.strip] uses it. *)
Definition isspace (c : ascii) : bool :=
  let n := nat_of_ascii c in
  (Nat.leb 9 n && Nat.leb n 13) || (Nat.leb 28 n && Nat.leb n 32)
  || Nat.eqb n 133 || Nat.eqb n 160.

Fixpoint lstrip (s : list ascii) : list ascii :=
  match s with
  | [] => []
  | c :: s' => if isspace c then lstrip s' else s
  end.

(** [line.strip()] *)
Definition strip (line : string) : string :=
  string_of_list_ascii
    (rev (lstrip (rev (lstrip (list_ascii_of_string line))))).

(** [sub in line] *)
Fixpoint contains (sub line : string) : bool :=
  String.prefix sub line
  || match line with
     | EmptyString => false
     | String _ rest => contains sub rest
     end.

(** The test that ends the loop over the lines. *)
Definition stops (line : string) : bool :=
  contains "Annual Factors" line || Nat.eqb (String.length (strip line)) 0.

(** [for idx, line in enumerate(lines): if ...: break]: the value of
    [idx] when the loop is left, [last] when no line is visited. *)
Fixpoint enumerate_until (idx : nat) (last : option nat) (lines : list string)
  : option nat :=
  match lines with
  | [] => last
  | line :: rest =>
      if stops line then Some idx
      else enumerate_until (S idx) (Some idx) rest
  end.

(** [lines[k:]] for an int or [None]. *)
Definition slice_from {A} (k : option Z) (l : list A) : list A :=
  match k with
  | None => l
  | Some k =>
      if Z.leb 0 k then skipn (Z.to_nat k) l
      else skipn (List.length l - Z.to_nat (- k)) l
  end.

(** The separator of ['\n'.join(lines)]. *)
Definition newline : string := String (ascii_of_nat 10) EmptyString.

(** How a call ends: the exception raised on a status code other than
    200, the UnboundLocalError of [lines[:idx]] when the loop body never
    ran, the empty frame returned when the archive lacks [csvname], or
    [pd.read_csv] called on [clean_csv]. *)
Inductive outcome : Type :=
| Raises_Exception
| Raises_UnboundLocalError
| Empty_DataFrame
| Read_csv (clean_csv : string).

(** The lines kept, up to the call of [pd.read_csv]. *)
Definition trim (lines : list string) : option (list string) :=
  match enumerate_until 0 None lines with
  | None => None
  | Some idx => Some (firstn idx lines)
  end.

Definition download_french_data (status_code : Z)
  (archive : string -> option (list string)) (csvname : string)
  (skiplines : option Z) : outcome :=
  if negb (Z.eqb status_code 200) then Raises_Exception
  else
    match archive csvname with
    | Some lines =>
        let lines := slice_from skiplines lines in
        match trim lines with
        | None => Raises_UnboundLocalError
        | Some lines => Read_csv (String.concat newline lines)
        end
    | None => Empty_DataFrame
    end.

End FrenchData.

(** ** The CRSP frame: share and exchange codes, delisting returns,
       market equity

    The cells of Topic 2 that prepare [df] before the strategy is built
    (Topic 4 repeats them with lower-case column names).  The frame is
    taken after [pd.to_numeric(..., errors='coerce')]: its cells are
    floats. *)

Module Crsp.

Import Panel.

Local Open Scope string_scope.

(** [s.isin(values)] on one value; NaN is in no list. *)
Definition isin (v : cell) (values : list Q) : bool :=
  match v with
  | Some q => existsb (Qeq_bool q) values
  | None => false
  end.

(** [s.fillna(x)] on one value. *)
Definition fillna (x : Q) (v : cell) : cell :=
  match v with
  | Some _ => v
  | None => Some x
  end.

(** [np.abs] *)
Definition fabs (v : cell) : cell := option_map Qabs v.

(** [s.replace({0: np.nan})] on one value. *)
Definition replace_zero (v : cell) : cell :=
  match v with
  | Some q => if Qeq_bool q 0 then NaN else v
  | None => NaN
  end.

(** [(df['SHRCD'].isin([10,11])) & (df['EXCHCD'].isin([1,2,3]))] *)
Definition keep (r : Row) : bool :=
  isin (get r "SHRCD") [10; 11] && isin (get r "EXCHCD") [1; 2; 3].

(** The cells from the filter on the codes to the drop of [PRC] and
    [SHROUT]. *)
Definition clean (df : DataFrame) : DataFrame :=
  let df := filter keep df in
  let df := Topic2.drop_columns ["SHRCD"] df in
  let df :=
    Topic2.assign_with "ret"
      (fun r => fsub (fmul (fadd (Some 1) (fillna 0 (get r "RET")))
                           (fadd (Some 1) (fillna 0 (get r "DLRET"))))
                     (Some 1)) df in
  let df :=
    mask_assign (fun r => isnull (get r "RET") && isnull (get r "DLRET"))
                "ret" NaN df in
  let df := Topic2.drop_columns ["RET"; "DLRET"] df in
  let df :=
    Topic2.assign_with "me"
      (fun r => fdiv (fmul (fabs (get r "PRC")) (get r "SHROUT")) (Some 1000))
      df in
  let df := Topic2.assign_with "me" (fun r => replace_zero (get r "me")) df in
  Topic2.drop_columns ["PRC"; "SHROUT"] df.

(** The same cells on one row that passes the filter. *)
Definition clean_row (r : Row) : Row :=
  let r := Topic2.drop_row ["SHRCD"] r in
  let r :=
    set "ret" (fsub (fmul (fadd (Some 1) (fillna 0 (get r "RET")))
                          (fadd (Some 1) (fillna 0 (get r "DLRET"))))
                    (Some 1)) r in
  let r :=
    if isnull (get r "RET") && isnull (get r "DLRET") then set "ret" NaN r
    else r in
  let r := Topic2.drop_row ["RET"; "DLRET"] r in
  let r :=
    set "me" (fdiv (fmul (fabs (get r "PRC")) (get r "SHROUT")) (Some 1000)) r in
  let r := set "me" (replace_zero (get r "me")) r in
  Topic2.drop_row ["PRC"; "SHROUT"] r.

End Crsp.

(** ** The Compustat frame: book equity, and the alignment with the
       monthly stock data *)

Module Compustat.

Import Panel.

Local Open Scope string_scope.

(** [a.combine_first(b)] on one row. *)
Definition combine_first (a b : cell) : cell :=
  match a with
  | Some _ => a
  | None => b
  end.

(** The period ['1993-12']. *)
Definition december_1993 : Z := 287%Z.

(** The cell that computes the book value of equity: [be], its
    adjustment for preferred stock, [txditc] with its missing values
    replaced by 0, and the tax credit added for the fiscal years ending
    in 1993 or before. *)
Definition add_book_equity (df : DataFrame) : DataFrame :=
  let be :=
    map (fun r => combine_first
                    (combine_first (get r "seq")
                                   (fadd (get r "ceq") (get r "pstk")))
                    (fsub (get r "at") (get r "lt"))) df in
  let pref :=
    map (fun r => combine_first (combine_first (get r "pstkrv") (get r "pstkl"))
                                (get r "pstk")) df in
  let be :=
    map (fun bp : cell * cell =>
           if notnull (snd bp) then fsub (fst bp) (snd bp) else fst bp)
        (combine be pref) in
  let df :=
    Topic2.assign_with "txditc" (fun r => Crsp.fillna 0 (get r "txditc")) df in
  let be :=
    map (fun br : cell * Row =>
           if Z.leb (date (snd br)) december_1993
           then fadd (fst br) (get (snd br) "txditc")
           else fst br)
        (combine be df) in
  assign_column "be" be df.

(** The same cell on one row. *)
Definition book_equity (r : Row) : cell :=
  let be :=
    combine_first (combine_first (get r "seq") (fadd (get r "ceq") (get r "pstk")))
                  (fsub (get r "at") (get r "lt")) in
  let pref :=
    combine_first (combine_first (get r "pstkrv") (get r "pstkl")) (get r "pstk") in
  let be := if notnull pref then fsub be pref else be in
  if Z.leb (date r) december_1993
  then fadd be (Crsp.fillna 0 (get r "txditc"))
  else be.

(** [cs_crsp['beme'] = cs_crsp['be'] / cs_crsp['me']], set to missing
    where [be] is negative. *)
Definition add_beme (df : DataFrame) : DataFrame :=
  let df := Topic2.assign_with "beme" (fun r => fdiv (get r "be") (get r "me")) df in
  mask_assign (fun r => flt (get r "be") (Some 0)) "beme" NaN df.

(** A value read as 0 where it is missing. *)
Definition value_or_zero (c : cell) : Q :=
  match c with
  | Some q => q
  | None => 0
  end.

(** *** groupby(level='PERMNO').shift(n) and ffill(limit) *)

(** A column computed row by row from the rows before, nearest first. *)
Fixpoint scan_with {A B} (f : list A -> A -> B) (before : list A) (l : list A)
  : list B :=
  match l with
  | [] => []
  | x :: rest => f before x :: scan_with f (x :: before) rest
  end.

(** The value of the row of PERMNO [p] that has [k] rows of [p] after it
    in [before]. *)
Fixpoint nth_in_group (k : nat) (p : Z) (before : list (Z * cell)) : cell :=
  match before with
  | [] => NaN
  | (p', v) :: b =>
      if Z.eqb p p'
      then match k with
           | O => v
           | S k' => nth_in_group k' p b
           end
      else nth_in_group k p b
  end.

(** [s.groupby(level='PERMNO').shift(n)] for [n >= 0]. *)
Definition group_shift_n (n : nat) (s : list (Z * cell)) : list cell :=
  scan_with (fun before pv =>
               match n with
               | O => snd pv
               | S k => nth_in_group k (fst pv) before
               end) [] s.

(** The nearest value present among the [limit] nearest rows. *)
Fixpoint latest (limit : nat) (before : list cell) : cell :=
  match limit with
  | O => NaN
  | S k =>
      match before with
      | [] => NaN
      | Some v :: _ => Some v
      | None :: b => latest k b
      end
  end.

(** [s.ffill(limit=limit)] on a Series, without grouping. *)
Definition ffill (limit : nat) (s : list cell) : list cell :=
  scan_with (fun before v =>
               match v with
               | Some _ => v
               | None => latest limit before
               end) [] s.

(** One column of
    [compustat.groupby(level='PERMNO').shift(6).ffill(limit=23)]. *)
Definition shift_and_fill (c : string) (df : DataFrame) : list cell :=
  ffill 23 (group_shift_n 6 (by_permno c df)).

End Compustat.

(** ** Topic 4: reversal portfolios with linear weights *)

Module LinearWeights.

(** The number of values of [l] that satisfy [p]. *)
Definition count (p : Q -> bool) (l : list Q) : Q := Qlen (filter p l).

(** [Series.rank()] with its defaults (method='average', na_option='keep'):
    a value's rank is the average of the positions that the values equal
    to it take in increasing order, counted from 1 among the values that
    are not missing; a missing value has no rank. *)
Definition rank_of (vals : list Q) (a : Q) : Q :=
  count (fun b => negb (Qle_bool a b)) vals
  + (count (fun b => Qeq_bool b a) vals + 1) / 2.

Definition rank (x : list cell) : list cell :=
  map (option_map (rank_of (dropna x))) x.

(** What one value [c] adds to the rank of [a]: 1 when it is below [a],
    one half when it is tied with [a]. *)
Definition below (a c : Q) : Q := if negb (Qle_bool a c) then 1 else 0.

Definition tied (a c : Q) : Q := if Qeq_bool c a then 1 else 0.

(** [Series.rank(pct=True)]: the rank divided by the number of values
    that are not missing. *)
Definition rank_pct (x : list cell) : list cell :=
  map (fun r => fdiv r (Some (Qlen (dropna x)))) (rank x).

(** [Series.min()] and [Series.max()] skip the missing values. *)
Definition series_min (l : list cell) : cell :=
  match dropna l with
  | [] => NaN
  | a :: rest => Some (fold_right Qmin a rest)
  end.

Definition series_max (l : list cell) : cell :=
  match dropna l with
  | [] => NaN
  | a :: rest => Some (fold_right Qmax a rest)
  end.

(** The function given to [transform] for one date:
    [(x.rank() - x.rank().min()) / (x.rank().max() - x.rank().min()) * (-2) + 1] *)
Definition position (x : list cell) : list cell :=
  let lo := series_min (rank x) in
  let hi := series_max (rank x) in
  map (fun r => fadd (fmul (fdiv (fsub r lo) (fsub hi lo)) (Some (-2)))
                     (Some 1))
      (rank x).

(** The function of the second version: [(x.rank(pct=True) - 0.5) * -2] *)
Definition position_pct (x : list cell) : list cell :=
  map (fun r => fmul (fsub r (Some (1 # 2))) (Some (-2))) (rank_pct x).

(** A frame after [unstack(level='permno')]: one row for each date, one
    cell for each permno.  [position] and [ret] are unstacked from the
    same frame, so they have the same rows and columns. *)
Definition Unstacked := list (list cell).

(** [w.shift(1)] on a frame and on a Series. *)
Definition shift_rows (w : Unstacked) : Unstacked :=
  match w with
  | [] => []
  | r :: _ => map (fun _ => NaN) r :: removelast w
  end.

Definition shift_series (s : list cell) : list cell :=
  match s with
  | [] => []
  | _ :: _ => NaN :: removelast s
  end.

(** [a.mul(b)] *)
Definition mul (a b : Unstacked) : Unstacked :=
  map (fun rows => map (fun c => fmul (fst c) (snd c))
                       (combine (fst rows) (snd rows)))
      (combine a b).

(** [w.sum(axis=1, min_count=1)]: the sum of the values of a row that
    are not missing, NaN when there is none. *)
Definition sum_min_count (row : list cell) : cell :=
  match dropna row with
  | [] => NaN
  | a :: rest => Some (Qsum (a :: rest))
  end.

(** [portfolio_return = lagged_position.mul(ret).sum(axis=1, min_count=1)]
    with [lagged_position = position.shift(1)] *)
Definition portfolio_return (position ret : Unstacked) : list cell :=
  map sum_min_count (mul (shift_rows position) ret).

(** [s.rolling(window, min_periods).std()]: at each row the standard
    deviation of the values of the last [window] rows that are not
    missing, NaN when there are fewer than [min_periods] of them. *)
Definition rolling_std (np_sqrt : Q -> Q) (window min_periods : nat)
  (s : list cell) : list cell :=
  map (fun t =>
         let w := skipn (t + 1 - window) (firstn (t + 1) s) in
         if Nat.leb min_periods (List.length (dropna w)) then std np_sqrt w
         else NaN)
      (seq 0 (List.length s)).

(** [np.sqrt(12) * portfolio_return.rolling(window=12, min_periods=3).std()] *)
Definition realized_vol (np_sqrt : Q -> Q) (portfolio_return : list cell)
  : list cell :=
  map (fmul (Some (np_sqrt 12))) (rolling_std np_sqrt 12 3 portfolio_return).

(** [w.div(s, axis=0)]: every row is divided by the value of the Series
    at its date. *)
Definition div_axis0 (w : Unstacked) (s : list cell) : Unstacked :=
  map (fun rv => map (fun c => fdiv c (snd rv)) (fst rv)) (combine w s).

(** [scaled_position = 0.15 * position.div(realized_vol.shift(1), axis=0)] *)
Definition scaled_position (position : Unstacked) (realized_vol : list cell)
  : Unstacked :=
  map (map (fmul (Some (15 # 100))))
      (div_axis0 position (shift_series realized_vol)).

(** [strev = scaled_lagged_position.mul(ret).sum(axis=1, min_count=1)]
    with [scaled_lagged_position = scaled_position.shift(1)] *)
Definition strev (np_sqrt : Q -> Q) (position ret : Unstacked) : list cell :=
  let realized_vol := realized_vol np_sqrt (portfolio_return position ret) in
  map sum_min_count
      (mul (shift_rows (scaled_position position realized_vol)) ret).


Definition sub (a b : Unstacked) : Unstacked :=
  map (fun rows => map (fun c => fsub (fst c) (snd c))
                       (combine (fst rows) (snd rows)))
      (combine a b).



End LinearWeights.

(** ** More sample data *)

Module Samples.

Definition three_months : Topic5.Frame :=
  [("Food"%string, [Some (1#100); Some (3#100); Some (2#100)]);
   ("Beer"%string, [Some (5#100); Some (-1#100); Some (2#100)])].

(** A data file in the layout of Ken French's: a description, the
    monthly block, a blank line and the annual block. *)
Definition french_file : list string :=
  ["This file was created using the 202309 CRSP database.";
   ",Mkt-RF,SMB";
   "196307,-0.39,-0.41";
   "196308,5.07,-0.80";
   "  ";
   " Annual Factors: January-December";
   ",Mkt-RF,SMB";
   "1963,-1.00,2.00"]%string.

Definition french_archive (name : string) : option (list string) :=
  if String.eqb name "F-F_Research_Data_Factors.csv" then Some french_file
  else None.

(** A row of a Compustat-like frame with total assets only. *)
Definition firm_month (p d : Z) (at_ : cell) : Panel.Row :=
  Panel.mkRow p d [("at"%string, at_)].

(** Firm 1 from January to August 1970, with total assets reported in
    January and February. *)
Definition one_firm : Panel.DataFrame :=
  [firm_month 1 0 (Some 100); firm_month 1 1 (Some 110); firm_month 1 2 NaN;
   firm_month 1 3 NaN; firm_month 1 4 NaN; firm_month 1 5 NaN;
   firm_month 1 6 NaN; firm_month 1 7 NaN].

(** The first two months of firm 2. *)
Definition next_firm : Panel.DataFrame :=
  [firm_month 2 0 (Some 500); firm_month 2 1 NaN].

(** The returns of four stocks on one date: one is missing and two are
    tied. *)
Definition one_date : list cell :=
  [Some (3 # 100); NaN; Some (-1 # 100); Some (3 # 100)].

(** Six months of returns of two stocks, and the positions that the
    ranks of each month give. *)
Definition two_stocks_ret : LinearWeights.Unstacked :=
  [[Some (1 # 100); Some (2 # 100)];
   [Some (3 # 100); Some (-1 # 100)];
   [Some (-2 # 100); Some (1 # 100)];
   [Some (2 # 100); Some (4 # 100)];
   [Some (1 # 100); Some (-3 # 100)];
   [Some (5 # 100); Some (2 # 100)]].

Definition two_stocks_position : LinearWeights.Unstacked :=
  map LinearWeights.position two_stocks_ret.

(** The realized volatility of the fourth month, with the identity in
    the place of the square root. *)
Definition two_stocks_vol : Q :=
  match nth_error
          (LinearWeights.realized_vol (fun x => x)
             (LinearWeights.portfolio_return two_stocks_position two_stocks_ret))
          3 with
  | Some (Some v) => v
  | _ => 0
  end.

End Samples.

(** * Properties *)

(** ** Cells and reductions *)

Lemma cell_eq_refl (c : cell) : cell_eq c c.
Proof. destruct c; simpl; [reflexivity | exact I]. Qed.

Lemma cell_eq_sym (a b : cell) : cell_eq a b -> cell_eq b a.
Proof. destruct a, b; simpl; auto. intros H; symmetry; exact H. Qed.

Lemma cell_eq_trans (a b c : cell) : cell_eq a b -> cell_eq b c -> cell_eq a c.
Proof.
  destruct a, b, c; simpl; auto; try contradiction.
  intros H1 H2; rewrite H1; exact H2.
Qed.

Lemma Qlen_cons_pos (x : Q) (l : list Q) : 0 < Qlen (x :: l).
Proof.
  unfold Qlen. replace 0 with (inject_Z 0) by reflexivity.
  rewrite <- Zlt_Qlt. simpl List.length. lia.
Qed.

Lemma Qlen_map {A} (f : A -> Q) (g : A -> Q) (l : list A) :
  Qlen (map f l) = Qlen (map g l).
Proof. unfold Qlen. now rewrite !length_map. Qed.

Lemma Qlen_cons (x : Q) (l : list Q) : Qlen (x :: l) == 1 + Qlen l.
Proof.
  unfold Qlen. simpl List.length. rewrite Nat2Z.inj_succ, <- Z.add_1_l.
  rewrite inject_Z_plus. reflexivity.
Qed.

Lemma Qsum_affine (a b : Q) (l : list Q) :
  Qsum (map (fun x => a * x + b) l) == a * Qsum l + Qlen l * b.
Proof.
  induction l as [|x l IH]; simpl.
  - unfold Qlen; simpl. ring.
  - change (fold_right Qplus 0 (map (fun x0 => a * x0 + b) l))
      with (Qsum (map (fun x0 => a * x0 + b) l)).
    change (fold_right Qplus 0 l) with (Qsum l).
    rewrite IH, Qlen_cons. ring.
Qed.

(** ** Topic 5 *)

Section Topic5Facts.
Import Topic5.

Lemma fle_Some (x y : Q) : fle (Some x) (Some y) = true <-> x <= y.
Proof. simpl. apply Qle_bool_iff. Qed.

Lemma flt_Some (x y : Q) : flt (Some x) (Some y) = true <-> x < y.
Proof.
  simpl. rewrite negb_true_iff. split.
  - intros H. apply Qnot_le_lt. intros Hle.
    apply Qle_bool_iff in Hle. congruence.
  - intros H. destruct (Qle_bool y x) eqn:E; [|reflexivity].
    apply Qle_bool_iff in E. exfalso. exact (Qlt_not_le _ _ H E).
Qed.

Lemma flt_Some_false (x y : Q) : flt (Some x) (Some y) = false <-> y <= x.
Proof.
  simpl. rewrite negb_false_iff. apply Qle_bool_iff.
Qed.

Lemma dropna_Some (x : Q) (l : list cell) : dropna (Some x :: l) = x :: dropna l.
Proof. reflexivity. Qed.

Lemma dropna_None (l : list cell) : dropna (None :: l) = dropna l.
Proof. reflexivity. Qed.

(** Shrinking every present mean towards [v] keeps the missing ones
    missing. *)
Lemma dropna_shrink (s v : Q) (l : list cell) :
  dropna (map (fun m => fadd (fmul (fsub (Some 1) (Some s)) m)
                             (fmul (Some s) (Some v))) l)
  = map (fun x => (1 - s) * x + s * v) (dropna l).
Proof.
  induction l as [|[x|] l IH]; [reflexivity | | exact IH].
  simpl. f_equal. exact IH.
Qed.

Lemma dropna_shrink_nan (s : cell) (l : list cell) :
  dropna (map (fun m => fadd (fmul (fsub (Some 1) s) m) (fmul s NaN)) l) = [].
Proof.
  induction l as [|c l IH]; simpl; [reflexivity|].
  destruct s, c; simpl; exact IH.
Qed.

Lemma mean_shrink (s : Q) (l : list cell) :
  cell_eq (mean (map (fun m => fadd (fmul (fsub (Some 1) (Some s)) m)
                                    (fmul (Some s) (mean l))) l))
          (mean l).
Proof.
  unfold mean at 2 3. destruct (dropna l) as [|x xs] eqn:E.
  - unfold mean. change (@None Q) with NaN. rewrite dropna_shrink_nan. exact I.
  - unfold mean. rewrite dropna_shrink, E.
    set (g := fun x0 : Q => (1 - s) * x0 + s * (Qsum (x :: xs) / Qlen (x :: xs))).
    change (map g (x :: xs)) with (g x :: map g xs). cbv beta iota.
    change (g x :: map g xs) with (map g (x :: xs)).
    assert (HL : Qlen (map g (x :: xs)) = Qlen (x :: xs)).
    { unfold Qlen. now rewrite length_map. }
    rewrite HL. unfold cell_eq, g. rewrite Qsum_affine.
    pose proof (Qlen_cons_pos x xs) as Hpos.
    field. intros H0. rewrite H0 in Hpos. exact (Qlt_irrefl _ Hpos).
Qed.

Lemma map_snd_df_mean_shrink (f : cell -> cell) (s : Series) :
  map snd (map (fun m => (fst m, f (snd m))) s) = map f (map snd s).
Proof. rewrite !map_map. reflexivity. Qed.

(** C10.  For every dataframe and every shrink_pct s with 0 <= s <= 1,
    compute_mean_returns returns, and the average across assets of the
    shrunk means equals the average across assets of the unshrunk
    per-asset means [df.mean()] (in exact arithmetic). *)
Theorem compute_mean_returns_preserves_grand_mean (df : Frame) (s : Q) :
  0 <= s <= 1 ->
  exists m, compute_mean_returns (Some df) (Some s) = Return m /\
            cell_eq (series_mean m) (series_mean (df_mean df)).
Proof.
  intros [H0 H1]. unfold compute_mean_returns.
  assert (E1 : fgt (Some s) (Some 1) = false).
  { unfold fgt. apply flt_Some_false. exact H1. }
  rewrite E1. destruct (fgt (Some s) (Some 0)) eqn:E0.
  - eexists. split; [reflexivity|].
    unfold series_mean at 1 2.
    rewrite (map_snd_df_mean_shrink
               (fun m => fadd (fmul (fsub (Some 1) (Some s)) m)
                              (fmul (Some s) (mean (map snd (df_mean df)))))).
    apply mean_shrink.
  - eexists. split; [reflexivity|]. apply cell_eq_refl.
Qed.

Lemma compute_mean_returns_preserves_grand_mean_witness :
  exists m, compute_mean_returns (Some Examples.two_assets) (Some (1#5)) = Return m /\
            cell_eq (series_mean m) (series_mean (df_mean Examples.two_assets)).
Proof.
  apply (compute_mean_returns_preserves_grand_mean Examples.two_assets (1#5)).
  split; unfold Qle; simpl; lia.
Defined.

(** C9.  compute_cov_matrix raises ValueError for every shrink_pct outside
    [0, 1] (negative, above one, or NaN), whatever [df] is.
    compute_mean_returns raises ValueError only when shrink_pct > 1, and
    does so then; for a negative shrink_pct it returns the unshrunk
    per-asset means, the result it gives for shrink_pct = 0. *)
Theorem shrink_pct_validation :
  (forall (df : option Frame) (s : Q),
      s < 0 \/ 1 < s -> compute_cov_matrix df (Some s) = Raise ValueError) /\
  (forall df : option Frame, compute_cov_matrix df NaN = Raise ValueError) /\
  (forall (df : option Frame) (s : cell),
      compute_mean_returns df s = Raise ValueError ->
      exists q, s = Some q /\ 1 < q) /\
  (forall (df : Frame) (s : Q),
      1 < s -> compute_mean_returns (Some df) (Some s) = Raise ValueError) /\
  (forall (df : Frame) (s : Q),
      s < 0 ->
      compute_mean_returns (Some df) (Some s) = Return (df_mean df) /\
      compute_mean_returns (Some df) (Some s)
      = compute_mean_returns (Some df) (Some 0)).
Proof.
  repeat split.
  - intros [df|] s H; [|reflexivity]. unfold compute_cov_matrix.
    destruct H as [H|H].
    + assert (E : fle (Some 0) (Some s) = false).
      { destruct (fle (Some 0) (Some s)) eqn:E; [|reflexivity].
        apply fle_Some in E. exfalso. exact (Qlt_not_le _ _ H E). }
      rewrite E. reflexivity.
    + assert (E : fle (Some s) (Some 1) = false).
      { destruct (fle (Some s) (Some 1)) eqn:E; [|reflexivity].
        apply fle_Some in E. exfalso. exact (Qlt_not_le _ _ H E). }
      rewrite E, andb_false_r. reflexivity.
  - intros [df|]; reflexivity.
  - intros [df|] s H; [|discriminate]. unfold compute_mean_returns in H.
    destruct (fgt s (Some 1)) eqn:E.
    + destruct s as [q|]; [|discriminate]. exists q. split; [reflexivity|].
      unfold fgt in E. apply flt_Some in E. exact E.
    + destruct (fgt s (Some 0)); discriminate.
  - intros df s H. unfold compute_mean_returns.
    assert (E : fgt (Some s) (Some 1) = true) by (apply flt_Some; exact H).
    rewrite E. reflexivity.
  - unfold compute_mean_returns.
    assert (E1 : fgt (Some s) (Some 1) = false).
    { apply flt_Some_false. apply Qlt_le_weak.
      apply Qlt_trans with 0; [exact H | reflexivity]. }
    assert (E0 : fgt (Some s) (Some 0) = false).
    { apply flt_Some_false. apply Qlt_le_weak. exact H. }
    rewrite E1, E0. reflexivity.
  - unfold compute_mean_returns.
    assert (E1 : fgt (Some s) (Some 1) = false).
    { apply flt_Some_false. apply Qlt_le_weak.
      apply Qlt_trans with 0; [exact H | reflexivity]. }
    assert (E0 : fgt (Some s) (Some 0) = false).
    { apply flt_Some_false. apply Qlt_le_weak. exact H. }
    rewrite E1, E0. reflexivity.
Qed.

Lemma shrink_pct_validation_witness :
  compute_cov_matrix (Some Examples.two_assets) (Some (-1#2)) = Raise ValueError /\
  compute_cov_matrix (Some Examples.two_assets) (Some (3#2)) = Raise ValueError /\
  compute_mean_returns (Some Examples.two_assets) (Some (3#2)) = Raise ValueError /\
  compute_mean_returns (Some Examples.two_assets) (Some (-1#2))
  = Return (df_mean Examples.two_assets).
Proof.
  destruct shrink_pct_validation as (Hcov & _ & _ & Hgt & Hneg).
  split; [|split; [|split]].
  - apply Hcov. left. reflexivity.
  - apply Hcov. right. reflexivity.
  - apply Hgt. reflexivity.
  - apply (Hneg Examples.two_assets (-1#2)). reflexivity.
Defined.

(** Shape of [df.cov()]: square, one row and one column per asset. *)
Lemma df_cov_rows (df : Frame) : List.length (values (df_cov df)) = List.length df.
Proof. unfold df_cov; simpl. apply length_map. Qed.

Lemma df_cov_row_length (df : Frame) (i : nat) :
  (i < List.length df)%nat ->
  List.length (nth i (values (df_cov df)) []) = List.length df.
Proof.
  intros Hi. unfold df_cov; simpl.
  destruct (nth_error df i) as [a|] eqn:E.
  - erewrite nth_error_nth; [|apply map_nth_error; exact E]. apply length_map.
  - apply nth_error_None in E. lia.
Qed.

Lemma np_eye_rows (n : nat) : List.length (np_eye n) = n.
Proof. unfold np_eye. now rewrite length_map, length_seq. Qed.

Lemma invert_np_eye_row (n i : nat) :
  (i < n)%nat ->
  nth i (invert (np_eye n)) [] = map (fun j => negb (Nat.eqb i j)) (seq 0 n).
Proof.
  intros Hi. unfold invert, np_eye.
  erewrite nth_error_nth; [reflexivity|].
  erewrite map_nth_error.
  2:{ erewrite map_nth_error; [reflexivity|].
      rewrite nth_error_seq. destruct (Nat.ltb_spec i n); [reflexivity | lia]. }
  rewrite map_map. reflexivity.
Qed.

(** The masked in-place product touches the off-diagonal entries only. *)
Lemma imul_where_off_diagonal (a : list (list cell)) (n : nat) (k : cell) (i j : nat) :
  List.length a = n ->
  List.length (nth i a []) = n ->
  (i < n)%nat -> (j < n)%nat ->
  entry (imul_where a (invert (np_eye n)) k) i j
  = if Nat.eqb i j then entry a i j else fmul (entry a i j) k.
Proof.
  intros Ha Hrow Hi Hj. unfold entry, imul_where.
  set (F := fun rm : list cell * list bool =>
              map (fun vm : cell * bool => if snd vm then fmul (fst vm) k else fst vm)
                  (combine (fst rm) (snd rm))).
  change (@nil cell) with (F ([], [])) at 1.
  rewrite map_nth.
  rewrite combine_nth by (unfold invert; now rewrite length_map, np_eye_rows).
  unfold F; simpl fst; simpl snd.
  rewrite invert_np_eye_row by exact Hi.
  set (G := fun vm : cell * bool => if snd vm then fmul (fst vm) k else fst vm).
  change NaN with (G (NaN, false)) at 1.
  rewrite map_nth.
  rewrite combine_nth by (now rewrite length_map, length_seq).
  unfold G; simpl fst; simpl snd.
  rewrite (nth_indep _ false ((fun j0 => negb (Nat.eqb i j0)) 0%nat))
    by (now rewrite length_map, length_seq).
  rewrite (map_nth (fun j0 => negb (Nat.eqb i j0))).
  rewrite seq_nth by exact Hj. simpl.
  destruct (Nat.eqb i j); reflexivity.
Qed.

(** C6.  For every dataframe and every shrink_pct s with 0 <= s <= 1,
    compute_cov_matrix returns the sample covariance matrix [df.cov()]
    with the same labels and shape, every off-diagonal entry multiplied
    by (1 - s) and every diagonal entry unchanged; when s is 0 the
    result is [df.cov()] itself. *)
Theorem compute_cov_matrix_shrinks_off_diagonal (df : Frame) (s : Q) :
  0 <= s <= 1 ->
  exists m,
    compute_cov_matrix (Some df) (Some s) = Return m /\
    labels m = labels (df_cov df) /\
    List.length (values m) = List.length (values (df_cov df)) /\
    (forall i j, (i < List.length df)%nat -> (j < List.length df)%nat ->
       i <> j ->
       cell_eq (entry (values m) i j)
               (fmul (entry (values (df_cov df)) i j) (Some (1 - s)))) /\
    (forall i, (i < List.length df)%nat ->
       entry (values m) i i = entry (values (df_cov df)) i i) /\
    (s == 0 -> m = df_cov df).
Proof.
  intros [H0 H1]. unfold compute_cov_matrix.
  assert (E0 : fle (Some 0) (Some s) = true) by (apply fle_Some; exact H0).
  assert (E1 : fle (Some s) (Some 1) = true) by (apply fle_Some; exact H1).
  rewrite E0, E1. simpl negb. cbv iota.
  destruct (fgt (Some s) (Some 0)) eqn:Epos.
  - eexists. split; [reflexivity|]. cbn [labels values].
    split; [reflexivity|]. split.
    { unfold imul_where. rewrite length_map, length_combine.
      unfold invert. rewrite length_map, np_eye_rows. apply Nat.min_id. }
    split; [|split].
    + intros i j Hi Hj Hij.
      rewrite imul_where_off_diagonal;
        try (rewrite df_cov_rows; assumption).
      * destruct (Nat.eqb_spec i j) as [->|_]; [contradiction|].
        apply cell_eq_refl.
      * reflexivity.
      * rewrite df_cov_rows. apply df_cov_row_length. exact Hi.
    + intros i Hi.
      rewrite imul_where_off_diagonal;
        try (rewrite df_cov_rows; assumption).
      * now rewrite Nat.eqb_refl.
      * reflexivity.
      * rewrite df_cov_rows. apply df_cov_row_length. exact Hi.
    + intros Hs. unfold fgt in Epos. apply flt_Some in Epos.
      rewrite Hs in Epos. exfalso. exact (Qlt_irrefl _ Epos).
  - eexists. split; [reflexivity|]. split; [reflexivity|].
    split; [reflexivity|]. split; [|split].
    + intros i j _ _ _. unfold fgt in Epos. apply flt_Some_false in Epos.
      assert (Hs : s == 0) by (apply Qle_antisym; assumption).
      destruct (entry (values (df_cov df)) i j) as [q|]; simpl; [|exact I].
      rewrite Hs. ring.
    + reflexivity.
    + reflexivity.
Qed.

Lemma compute_cov_matrix_shrinks_off_diagonal_witness :
  exists m,
    compute_cov_matrix (Some Examples.two_assets) (Some (1#5)) = Return m /\
    labels m = labels (df_cov Examples.two_assets) /\
    List.length (values m) = List.length (values (df_cov Examples.two_assets)) /\
    (forall i j, (i < 2)%nat -> (j < 2)%nat -> i <> j ->
       cell_eq (entry (values m) i j)
               (fmul (entry (values (df_cov Examples.two_assets)) i j)
                     (Some (1 - (1#5))))) /\
    (forall i, (i < 2)%nat ->
       entry (values m) i i = entry (values (df_cov Examples.two_assets)) i i) /\
    ((1#5) == 0 -> m = df_cov Examples.two_assets).
Proof.
  apply (compute_cov_matrix_shrinks_off_diagonal Examples.two_assets (1#5)).
  split; unfold Qle; simpl; lia.
Defined.

End Topic5Facts.

(** ** The notebook state *)

Section NotebookFacts.
Import Panel Notebook.

Lemma same_except_refl a st : same_except a st st.
Proof. split; intros; reflexivity. Qed.

Lemma same_except_trans a st1 st2 st3 :
  same_except a st1 st2 -> same_except a st2 st3 -> same_except a st1 st3.
Proof.
  intros [H1 G1] [H2 G2]. split.
  - intros b Hb. rewrite H2, H1 by exact Hb. reflexivity.
  - now rewrite G2.
Qed.

Lemma modify_heap a f st : heap (snd (modify a f st)) a = f (heap st a).
Proof. unfold modify; simpl. now rewrite Nat.eqb_refl. Qed.

Lemma modify_same_except a f st : same_except a st (snd (modify a f st)).
Proof.
  split; [|reflexivity]. intros b Hb. unfold modify; simpl.
  destruct (Nat.eqb_spec b a); [contradiction | reflexivity].
Qed.

Lemma modify_fst a f st : fst (modify a f st) = Return tt.
Proof. reflexivity. Qed.

End NotebookFacts.

(** ** Topic 4: the stateful functions against the three pure ones *)

Section Topic4Refinement.
Import Panel Notebook Topic4.

Variables (df : addr) (col id_col : string).

Lemma for_each_cons_run {A S} (body : S -> A -> M S) a l s st :
  run (for_each body (a :: l) s) st
  = match run (body s a) st with
    | (Return s', st') => run (for_each body l s') st'
    | (Raise e, st') => (Raise e, st')
    end.
Proof. reflexivity. Qed.

Lemma sort_step_run grp gid last pct st :
  run (sort_step df col id_col grp (gid, last) pct) st
  = match apply_percentile grp pct with
    | Raise e => (Raise e, st)
    | Return b =>
        (Return ((gid + 1)%Z, Some (merge_breakpoint (heap st df) b)),
         snd (modify df
                (loc_assign
                   (map (fun rb => label (fst rb))
                      (filter (fun rb => isnull (get (fst rb) id_col)
                                         && fle (get (fst rb) col) (snd rb))
                              (merge_breakpoint (heap st df) b)))
                   id_col (Some (inject_Z gid))) st))
    end.
Proof.
  unfold sort_step, run, Notebook.bind, lift, read, Notebook.ret.
  destruct (apply_percentile grp pct); reflexivity.
Qed.

Lemma sort_loop_run (grp : list (Z * list Q)) (pcts : list Q) :
  forall st gid last,
    match mapM (apply_percentile grp) pcts with
    | Raise e =>
        fst (run (for_each (sort_step df col id_col grp) pcts (gid, last)) st)
        = Raise e
    | Return bps =>
        exists st',
          run (for_each (sort_step df col id_col grp) pcts (gid, last)) st
          = (Return (snd (fst (assign_passes col id_col gid bps (heap st df) last)),
                     snd (assign_passes col id_col gid bps (heap st df) last)),
             st') /\
          heap st' df
          = fst (fst (assign_passes col id_col gid bps (heap st df) last)) /\
          same_except df st st'
    end.
Proof.
  induction pcts as [|pct pcts IH]; intros st gid last.
  - simpl. exists st. repeat split; reflexivity.
  - rewrite for_each_cons_run, sort_step_run. cbn [mapM].
    destruct (apply_percentile grp pct) as [b|e] eqn:Eb; cbn [Py.bind].
    2:{ reflexivity. }
    set (f := loc_assign _ id_col _).
    pose proof (modify_heap df f st) as Hh.
    pose proof (modify_same_except df f st) as Hs.
    set (st1 := snd (modify df f st)) in *.
    specialize (IH st1 (gid + 1)%Z (Some (merge_breakpoint (heap st df) b))).
    destruct (mapM (apply_percentile grp) pcts) as [bs|e]; cbn [Py.bind].
    + destruct IH as (st' & Hrun & Hheap & Hsame).
      exists st'. cbn [assign_passes].
      rewrite Hh in Hrun, Hheap. unfold f in Hrun, Hheap.
      split; [exact Hrun|]. split; [exact Hheap|].
      eapply same_except_trans; eassumption.
    + exact IH.
Qed.

Lemma bind_run {A B} (m : M A) (k : A -> M B) st :
  run (Notebook.bind m k) st
  = match run m st with
    | (Return a, st') => run (k a) st'
    | (Raise e, st') => (Raise e, st')
    end.
Proof. reflexivity. Qed.

Lemma lift_run {A} (r : result A) st : run (lift r) st = (r, st).
Proof. reflexivity. Qed.

Lemma global_run st :
  run global_sort_variables st = (Return (sort_variables st), st).
Proof. reflexivity. Qed.

Lemma modify_run a f st :
  run (modify a f) st = (Return tt, snd (modify a f st)).
Proof. reflexivity. Qed.

Lemma portfolio_sort_unfold (nyse : bool) (pcts : list Q) (annual : bool) st :
  run (portfolio_sort df col nyse pcts id_col annual) st
  = let st0 := snd (modify df (set_column id_col NaN) st) in
    match run (for_each (sort_step df col id_col (sort_universe col nyse (heap st df)))
                        pcts (1%Z, None)) st0 with
    | (Raise e, st1) => (Raise e, st1)
    | (Return loc, st1) =>
        match snd loc with
        | None => (Raise NameError, st1)
        | Some merged =>
            let st2 := snd (modify df (loc_assign (above_labels col id_col merged) id_col
                                         (Some (inject_Z (fst loc)))) st1) in
            if annual
            then (Return df,
                  snd (modify df
                         (fun d => assign_column id_col
                                     (group_ffill 11 (by_permno id_col d)) d)
                         (snd (modify df
                                 (mask_assign
                                    (fun r => negb (Z.eqb (month (date r)) 6))
                                    id_col NaN) st2))))
            else (Return df, st2)
        end
    end.
Proof.
  unfold portfolio_sort, sort_universe, above_labels, run, Notebook.bind, read,
    modify, Notebook.ret, Notebook.raise.
  cbv zeta. cbn [fst snd]. destruct nyse;
    (match goal with
     | |- context [for_each ?b ?l ?s ?st0] =>
         destruct (for_each b l s st0) as [[[gid [merged|]]|e] st1]
     end; cbn [fst snd]; try reflexivity; destruct annual; reflexivity).
Qed.

(** [portfolio_sort] returns its argument [df]; the object behind it
    becomes what the pure functions compute from its previous content,
    and nothing else in the state changes.  It raises what they raise. *)
Lemma portfolio_sort_run (nyse : bool) (pcts : list Q) (annual : bool) st :
  match Py.bind (compute_breakpoints (heap st df) col nyse pcts)
                (fun bps => assign_buckets (heap st df) col id_col bps annual) with
  | Raise e =>
      fst (run (portfolio_sort df col nyse pcts id_col annual) st) = Raise e
  | Return d' =>
      exists st',
        run (portfolio_sort df col nyse pcts id_col annual) st = (Return df, st') /\
        heap st' df = d' /\ same_except df st st'
  end.
Proof.
  rewrite portfolio_sort_unfold. cbv zeta.
  change (compute_breakpoints (heap st df) col nyse pcts)
    with (mapM (apply_percentile (sort_universe col nyse (heap st df))) pcts).
  set (grp := sort_universe col nyse (heap st df)).
  pose proof (modify_heap df (set_column id_col NaN) st) as Hh0.
  pose proof (modify_same_except df (set_column id_col NaN) st) as Hs0.
  set (st0 := snd (modify df (set_column id_col NaN) st)) in *.
  pose proof (sort_loop_run grp pcts st0 1%Z None) as Hloop.
  destruct (mapM (apply_percentile grp) pcts) as [bps|e]; cbn [Py.bind].
  2:{ destruct (run (for_each _ _ _) st0) as [[loc|e'] st1]; simpl in *;
        congruence. }
  destruct Hloop as (st1 & Hrun & Hheap & Hsame). rewrite Hrun.
  unfold assign_buckets. rewrite Hh0 in Hheap. rewrite Hh0.
  destruct (assign_passes col id_col 1 bps (set_column id_col NaN (heap st df)) None)
    as [[d1 gid] [merged|]] eqn:Ep; cbn [fst snd] in *.
  2:{ reflexivity. }
  fold (above_labels col id_col merged).
  set (f := loc_assign (above_labels col id_col merged) id_col (Some (inject_Z gid))).
  pose proof (modify_heap df f st1) as Hh2.
  pose proof (modify_same_except df f st1) as Hs2.
  set (st2 := snd (modify df f st1)) in *.
  rewrite Hheap in Hh2.
  destruct annual.
  - set (g := mask_assign _ id_col NaN).
    pose proof (modify_heap df g st2) as Hh3.
    pose proof (modify_same_except df g st2) as Hs3.
    set (st3 := snd (modify df g st2)) in *.
    set (h := fun d : DataFrame => assign_column id_col _ d).
    pose proof (modify_heap df h st3) as Hh4.
    pose proof (modify_same_except df h st3) as Hs4.
    set (st4 := snd (modify df h st3)) in *.
    exists st4. split; [reflexivity|]. split.
    + rewrite Hh4, Hh3, Hh2. reflexivity.
    + repeat (eapply same_except_trans; [eassumption|]). apply same_except_refl.
  - exists st2. split; [reflexivity|]. split; [exact Hh2|].
    repeat (eapply same_except_trans; [eassumption|]). apply same_except_refl.
Qed.

End Topic4Refinement.

Section Topic4Aggregate.
Import Panel Notebook Topic4.

Lemma fold_left_andb_forallb {A} (f : A -> bool) (l : list A) (b : bool) :
  fold_left (fun ok x => ok && f x) l b = b && forallb f l.
Proof.
  revert b. induction l as [|x l IH]; intros b; simpl.
  - now rewrite andb_true_r.
  - rewrite IH. now rewrite andb_assoc.
Qed.

(** [compute_portfolio_returns] returns what the pure aggregation
    computes from the object behind [df] and the global
    [sort_variables]; it leaves the two new columns in that object. *)
Lemma compute_portfolio_returns_run (df : addr) (sort_groups : list string) st :
  exists st',
    run (compute_portfolio_returns df sort_groups) st
    = (Return (aggregate_weighted_returns (heap st df) (sort_variables st)
                                         sort_groups), st') /\
    heap st' df = with_next_return (heap st df) /\
    same_except df st st'.
Proof.
  unfold compute_portfolio_returns, run, Notebook.bind, read,
    global_sort_variables, Notebook.ret, modify.
  cbn [fst snd heap sort_variables]. rewrite !Nat.eqb_refl.
  eexists. split; [|split].
  - f_equal. f_equal. unfold aggregate_weighted_returns.
    do 4 f_equal. apply filter_ext. intros r. unfold complete_row.
    cbn [fold_left]. rewrite fold_left_andb_forallb. reflexivity.
  - cbn [heap]. rewrite Nat.eqb_refl. reflexivity.
  - split; [|reflexivity]. intros b Hb. cbn [heap].
    destruct (Nat.eqb_spec b df); [contradiction | reflexivity].
Qed.

Lemma sort_all_run (percentiles : list (string * list Q)) (annual : bool)
  (sv : list string) :
  forall (a : addr) st,
    match sort_all (heap st a) percentiles annual sv with
    | Raise e =>
        fst (run (for_each
                    (fun cs_crsp sortvar =>
                       pcts <- lift (dict_get percentiles sortvar) ;;
                       portfolio_sort cs_crsp sortvar true pcts
                                      (group_name sortvar) annual)%nb
                    sv a) st) = Raise e
    | Return d' =>
        exists st',
          run (for_each
                 (fun cs_crsp sortvar =>
                    pcts <- lift (dict_get percentiles sortvar) ;;
                    portfolio_sort cs_crsp sortvar true pcts
                                   (group_name sortvar) annual)%nb
                 sv a) st = (Return a, st') /\
          heap st' a = d' /\ same_except a st st'
    end.
Proof.
  induction sv as [|v sv IH]; intros a st.
  - simpl. exists st. split; [reflexivity|]. split; [reflexivity|].
    apply same_except_refl.
  - rewrite for_each_cons_run. cbn [sort_all].
    rewrite bind_run, lift_run.
    destruct (dict_get percentiles v) as [pcts|e]; cbn [Py.bind].
    2:{ reflexivity. }
    pose proof (portfolio_sort_run a v (group_name v) true pcts annual st) as Hps.
    destruct (compute_breakpoints (heap st a) v true pcts) as [bps|e];
      cbn [Py.bind] in *.
    2:{ destruct (run (portfolio_sort _ _ _ _ _ _) st) as [[x|e'] st1];
          simpl in *; congruence. }
    destruct (assign_buckets (heap st a) v (group_name v) bps annual) as [d1|e];
      cbn [Py.bind] in *.
    2:{ destruct (run (portfolio_sort _ _ _ _ _ _) st) as [[x|e'] st1];
          simpl in *; congruence. }
    destruct Hps as (st1 & Hrun & Hheap & Hsame). rewrite Hrun.
    specialize (IH a st1). rewrite Hheap in IH.
    destruct (sort_all d1 percentiles annual sv) as [d'|e].
    + destruct IH as (st' & Hrun' & Hheap' & Hsame').
      exists st'. split; [exact Hrun'|]. split; [exact Hheap'|].
      eapply same_except_trans; eassumption.
    + exact IH.
Qed.

(** The notebook cell returns or raises as the composition of the three
    pure functions does. *)
Lemma factor_cell_run (st : State) (df : addr)
  (percentiles : list (string * list Q)) (annual : bool) :
  fst (run (factor_cell df percentiles annual) st)
  = factor_pure (heap st df) (sort_variables st) percentiles annual.
Proof.
  unfold factor_cell, factor_pure.
  rewrite (bind_run global_sort_variables), global_run. cbv beta iota.
  rewrite bind_run.
  pose proof (sort_all_run percentiles annual (sort_variables st) df st) as H.
  destruct (sort_all (heap st df) percentiles annual (sort_variables st))
    as [d'|e]; cbn [Py.bind].
  - destruct H as (st' & Hrun & Hheap & Hsame). rewrite Hrun.
    rewrite (bind_run global_sort_variables), global_run. cbv beta iota.
    destruct (compute_portfolio_returns_run df
                (map group_name (sort_variables st')) st')
      as (st'' & Hrun' & _).
    rewrite Hrun'. cbn [fst]. rewrite Hheap.
    destruct Hsame as [_ Hsv]. now rewrite Hsv.
  - destruct (run (for_each _ _ _) st) as [[x|e'] st1]; simpl in *; congruence.
Qed.

(** C5.  The notebook implementation is extensionally equal to the
    composition of three side-effect-free functions of explicit arguments
    (compute_breakpoints, assign_buckets, aggregate_weighted_returns):
    portfolio_sort, which mutates the dataframe behind its argument and
    returns that same reference, returns or raises as the first two do on
    the content of the dataframe, and leaves their result in it;
    compute_portfolio_returns, which reads the global sort_variables,
    returns what the third computes from the dataframe, the global and
    sort_groups; and the notebook cell that chains them returns or raises
    as the composition of the three does. *)
Theorem notebook_equals_three_pure_functions :
  forall (st : State) (df : addr) (col id_col : string) (nyse annual : bool)
         (pcts : list Q) (sort_groups : list string)
         (percentiles : list (string * list Q)),
    fst (run (portfolio_sort df col nyse pcts id_col annual) st)
    = Py.bind (compute_breakpoints (heap st df) col nyse pcts) (fun bps =>
      Py.bind (assign_buckets (heap st df) col id_col bps annual) (fun _ =>
      Return df)) /\
    (forall d',
        Py.bind (compute_breakpoints (heap st df) col nyse pcts)
                (fun bps => assign_buckets (heap st df) col id_col bps annual)
        = Return d' ->
        heap (snd (run (portfolio_sort df col nyse pcts id_col annual) st)) df = d') /\
    fst (run (compute_portfolio_returns df sort_groups) st)
    = Return (aggregate_weighted_returns (heap st df) (sort_variables st)
                                         sort_groups) /\
    fst (run (factor_cell df percentiles annual) st)
    = factor_pure (heap st df) (sort_variables st) percentiles annual.
Proof.
  intros. split; [|split; [|split]].
  - pose proof (portfolio_sort_run df col id_col nyse pcts annual st) as H.
    destruct (compute_breakpoints (heap st df) col nyse pcts) as [bps|e];
      cbn [Py.bind] in *; [|exact H].
    destruct (assign_buckets (heap st df) col id_col bps annual) as [d'|e];
      cbn [Py.bind] in *; [|exact H].
    destruct H as (st' & Hrun & _). now rewrite Hrun.
  - intros d' Hd.
    pose proof (portfolio_sort_run df col id_col nyse pcts annual st) as H.
    rewrite Hd in H. destruct H as (st' & Hrun & Hheap & _).
    rewrite Hrun. exact Hheap.
  - destruct (compute_portfolio_returns_run df sort_groups st) as (st' & Hrun & _).
    now rewrite Hrun.
  - apply factor_cell_run.
Qed.

End Topic4Aggregate.

(** ** Rows, labels and label-based assignment *)

Section PanelFacts.
Import Panel.

Lemma assoc_set_same c v l : assoc c (assoc_set c v l) = v.
Proof.
  induction l as [|[k x] l IH]; simpl.
  - now rewrite String.eqb_refl.
  - destruct (String.eqb k c) eqn:E; simpl; rewrite E; [reflexivity | exact IH].
Qed.

Lemma assoc_set_other c c' v l : c <> c' -> assoc c' (assoc_set c v l) = assoc c' l.
Proof.
  intros Hc. induction l as [|[k x] l IH]; simpl.
  - destruct (String.eqb_spec c c'); [contradiction | reflexivity].
  - destruct (String.eqb_spec k c) as [->|Hk]; simpl.
    + destruct (String.eqb_spec c c'); [contradiction | reflexivity].
    + destruct (String.eqb k c'); [reflexivity | exact IH].
Qed.

Lemma assoc_set_twice c v w l : assoc_set c v (assoc_set c w l) = assoc_set c v l.
Proof.
  induction l as [|[k x] l IH]; simpl.
  - now rewrite String.eqb_refl.
  - destruct (String.eqb k c) eqn:E; simpl; rewrite E; [reflexivity | now rewrite IH].
Qed.

Lemma get_set_same c v r : get (set c v r) c = v.
Proof. apply assoc_set_same. Qed.

Lemma get_set_other c c' v r : c <> c' -> get (set c v r) c' = get r c'.
Proof. apply assoc_set_other. Qed.

Lemma set_set c v w r : set c v (set c w r) = set c v r.
Proof. unfold set; simpl. now rewrite assoc_set_twice. Qed.

Lemma label_set c v r : label (set c v r) = label r.
Proof. reflexivity. Qed.

Lemma date_set c v r : date (set c v r) = date r.
Proof. reflexivity. Qed.

Lemma PERMNO_set c v r : PERMNO (set c v r) = PERMNO r.
Proof. reflexivity. Qed.

Lemma label_eqb_eq a b : label_eqb a b = true <-> a = b.
Proof.
  destruct a as [p d], b as [p' d']. unfold label_eqb; simpl.
  rewrite andb_true_iff, !Z.eqb_eq. split.
  - intros [-> ->]; reflexivity.
  - intros H; injection H; auto.
Qed.

(** With unique labels, a row of the frame is identified by its label. *)
Lemma NoDup_label_inj (df : DataFrame) (r r' : Row) :
  NoDup (map label df) -> In r df -> In r' df -> label r = label r' -> r = r'.
Proof.
  induction df as [|x df IH]; simpl; intros Hnd Hr Hr' Hl; [contradiction|].
  inversion Hnd as [|? ? Hx Hnd']; subst.
  destruct Hr as [->|Hr], Hr' as [->|Hr'].
  - reflexivity.
  - exfalso. apply Hx. rewrite Hl. now apply in_map.
  - exfalso. apply Hx. rewrite <- Hl. now apply in_map.
  - now apply IH.
Qed.

(** Label-based assignment from a selection made on one version of the
    frame, applied to another version with the same labels: with unique
    labels it acts row by row. *)
Lemma loc_assign_rowwise (d0 : DataFrame) (pre post : Row -> Row)
  (P : Row * cell -> bool) (b : list (Z * cell)) (c : string) (v : cell) :
  NoDup (map label d0) ->
  (forall r, label (pre r) = label r) ->
  (forall r, label (post r) = label r) ->
  loc_assign
    (map (fun rb => label (fst rb)) (filter P (merge_breakpoint (map pre d0) b)))
    c v (map post d0)
  = map (fun r => if P (pre r, lookup_date (date (pre r)) b)
                  then set c v (post r) else post r) d0.
Proof.
  intros Hnd Hpre Hpost. unfold loc_assign. rewrite map_map.
  apply map_ext_in. intros r Hr.
  set (L := map _ (filter P _)).
  assert (HE : existsb (label_eqb (label (post r))) L
               = P (pre r, lookup_date (date (pre r)) b)).
  { destruct (P (pre r, lookup_date (date (pre r)) b)) eqn:EP.
    - apply existsb_exists. exists (label r). split.
      + unfold L. apply in_map_iff.
        exists (pre r, lookup_date (date (pre r)) b). split; [apply Hpre|].
        apply filter_In. split; [|exact EP].
        unfold merge_breakpoint. rewrite map_map. apply in_map_iff.
        exists r. split; [reflexivity | exact Hr].
      + apply label_eqb_eq. apply Hpost.
    - destruct (existsb _ L) eqn:EX; [|reflexivity].
      apply existsb_exists in EX. destruct EX as (lb & Hin & Heq).
      apply label_eqb_eq in Heq. unfold L in Hin.
      apply in_map_iff in Hin. destruct Hin as ([r1 b1] & Hl1 & Hin).
      apply filter_In in Hin. destruct Hin as [Hin HP].
      unfold merge_breakpoint in Hin. rewrite map_map in Hin.
      apply in_map_iff in Hin. destruct Hin as (r2 & Heq2 & Hin2).
      injection Heq2 as <- <-. simpl in Hl1.
      assert (r2 = r).
      { apply (NoDup_label_inj d0); auto.
        rewrite <- (Hpre r2), Hl1, <- Heq. apply Hpost. }
      subst r2. congruence. }
  rewrite HE. reflexivity.
Qed.

End PanelFacts.

(** ** Topic 4: portfolio_sort row by row *)

Section SortRowwise.
Import Panel Notebook Topic4.

Variables (col id_col : string).
Hypothesis col_id : col <> id_col.

Lemma label_pass_row gid b r : label (pass_row col id_col gid b r) = label r.
Proof. unfold pass_row. destruct (_ && _); reflexivity. Qed.

Lemma label_row_passes bs : forall gid r,
  label (row_passes col id_col gid bs r) = label r.
Proof.
  induction bs as [|b bs IH]; intros gid r; simpl; [reflexivity|].
  now rewrite IH, label_pass_row.
Qed.

Lemma map_label_ext (f : Row -> Row) (d : DataFrame) :
  (forall r, label (f r) = label r) -> map label (map f d) = map label d.
Proof. intros H. rewrite map_map. apply map_ext. exact H. Qed.

Lemma assign_below_rowwise gid b (d : DataFrame) :
  NoDup (map label d) ->
  assign_below col id_col gid b d = map (pass_row col id_col gid b) d.
Proof.
  intros Hnd. unfold assign_below.
  pose proof (loc_assign_rowwise d (fun r => r) (fun r => r)
                (fun rb => isnull (get (fst rb) id_col)
                           && fle (get (fst rb) col) (snd rb))
                b id_col (Some (inject_Z gid)) Hnd
                (fun r => eq_refl) (fun r => eq_refl)) as H.
  rewrite map_id in H. exact H.
Qed.

Lemma assign_passes_rowwise bs : forall gid (d : DataFrame) last,
  NoDup (map label d) ->
  assign_passes col id_col gid bs d last
  = (map (row_passes col id_col gid bs) d,
     (gid + Z.of_nat (List.length bs))%Z,
     match bs with
     | [] => last
     | _ :: _ =>
         Some (merge_breakpoint
                 (map (row_passes col id_col gid (removelast bs)) d)
                 (List.last bs []))
     end).
Proof.
  induction bs as [|b bs IH]; intros gid d last Hnd.
  - simpl. rewrite map_id, Z.add_0_r. reflexivity.
  - cbn [assign_passes]. rewrite assign_below_rowwise by exact Hnd.
    rewrite IH.
    2:{ rewrite map_label_ext; [exact Hnd | intros; apply label_pass_row]. }
    rewrite map_map. f_equal; [f_equal|].
    + cbn [List.length]. lia.
    + destruct bs as [|b' bs]; [now rewrite map_id|].
      rewrite map_map. reflexivity.
Qed.

Lemma row_passes_set bs : forall gid x r,
  row_passes col id_col gid bs (set id_col x r)
  = set id_col
        (match x with
         | Some _ => x
         | None => first_le gid (get r col) (breakpoints_at bs (date r))
         end) r.
Proof.
  assert (Hic : id_col <> col) by (intros E; apply col_id; now symmetry).
  induction bs as [|b bs IH]; intros gid x r.
  - simpl. destruct x; reflexivity.
  - cbn [row_passes breakpoints_at map first_le]. unfold pass_row.
    rewrite get_set_same, get_set_other, date_set by exact Hic.
    destruct x as [q|]; simpl isnull; cbv iota.
    + simpl andb. cbv iota. rewrite IH. reflexivity.
    + simpl andb. destruct (fle (get r col) (lookup_date (date r) b)).
      * rewrite set_set, IH. reflexivity.
      * rewrite IH. reflexivity.
Qed.

Lemma fle_fgt_excl (v b : cell) : fle v b = true -> fgt v b = false.
Proof.
  destruct v, b; simpl; try discriminate. intros ->. reflexivity.
Qed.

Lemma removelast_map {A B} (f : A -> B) (l : list A) :
  removelast (map f l) = map f (removelast l).
Proof.
  induction l as [|a [|b l] IH]; simpl; [reflexivity | reflexivity |].
  simpl in IH. now rewrite IH.
Qed.

Lemma last_map {A B} (f : A -> B) (l : list A) (d : A) :
  List.last (map f l) (f d) = f (List.last l d).
Proof.
  induction l as [|a [|b l] IH]; simpl; [reflexivity | reflexivity |].
  simpl in IH. exact IH.
Qed.

Lemma bucket_rule_last bs : forall gid v,
  bs <> [] ->
  bucket_rule gid v bs
  = match first_le gid v (removelast bs) with
    | Some _ => first_le gid v bs
    | None =>
        if fgt v (List.last bs NaN)
        then Some (inject_Z (gid + Z.of_nat (List.length bs)))
        else first_le gid v bs
    end.
Proof.
  induction bs as [|b bs IH]; intros gid v Hne; [contradiction|].
  destruct bs as [|b' bs].
  - simpl. destruct (fle v b) eqn:E.
    + now rewrite (fle_fgt_excl _ _ E).
    + destruct (fgt v b); reflexivity.
  - change (bucket_rule gid v (b :: b' :: bs))
      with (if fle v b then Some (inject_Z gid)
            else bucket_rule (gid + 1) v (b' :: bs)).
    change (removelast (b :: b' :: bs))
      with (b :: removelast (b' :: bs)).
    change (List.last (b :: b' :: bs) NaN) with (List.last (b' :: bs) NaN).
    cbn [first_le]. destruct (fle v b); [reflexivity|].
    rewrite IH by discriminate.
    replace (gid + 1 + Z.of_nat (List.length (b' :: bs)))%Z
      with (gid + Z.of_nat (List.length (b :: b' :: bs)))%Z
      by (cbn [List.length]; lia).
    reflexivity.
Qed.

Lemma breakpoints_at_removelast (bps : list (list (Z * cell))) d :
  removelast (breakpoints_at bps d) = breakpoints_at (removelast bps) d.
Proof. apply removelast_map. Qed.

Lemma breakpoints_at_last (bps : list (list (Z * cell))) d :
  List.last (breakpoints_at bps d) NaN = lookup_date d (List.last bps []).
Proof. apply (last_map (lookup_date d) bps []). Qed.

Lemma breakpoints_at_length (bps : list (list (Z * cell))) d :
  List.length (breakpoints_at bps d) = List.length bps.
Proof. apply length_map. Qed.

(** With unique labels, a sort column distinct from the id column and at
    least one breakpoint Series, the assignment gives every row the
    bucket of its own value among the breakpoints of its own date. *)
Lemma assign_buckets_rowwise (df : DataFrame) (bps : list (list (Z * cell)))
  (annual : bool) :
  NoDup (map label df) ->
  bps <> [] ->
  assign_buckets df col id_col bps annual
  = Return (let monthly :=
              map (fun r => set id_col
                              (bucket_rule 1 (get r col)
                                           (breakpoints_at bps (date r)))
                              r) df in
            if annual then keep_june_and_carry id_col monthly else monthly).
Proof.
  intros Hnd Hne. unfold assign_buckets. cbv zeta.
  assert (Hnd0 : NoDup (map label (set_column id_col NaN df))).
  { unfold set_column. rewrite map_label_ext; [exact Hnd | reflexivity]. }
  rewrite (assign_passes_rowwise bps 1 _ None Hnd0).
  destruct bps as [|b0 bs0] eqn:Ebps; [contradiction|]. rewrite <- Ebps.
  match goal with
  | |- Return (if annual then _ ?a else _) = Return (if annual then _ ?b else _) =>
      assert (Hab : a = b); [|now rewrite Hab]
  end.
  unfold above_labels, set_column. rewrite !map_map.
  rewrite (loc_assign_rowwise df
             (fun r => row_passes col id_col 1 (removelast bps) (set id_col NaN r))
             (fun r => row_passes col id_col 1 bps (set id_col NaN r))
             (fun rb => isnull (get (fst rb) id_col)
                        && fgt (get (fst rb) col) (snd rb))
             (List.last bps []) id_col _ Hnd).
  2,3: intros r; now rewrite label_row_passes.
  apply map_ext. intros r. cbn [fst snd].
  rewrite !row_passes_set.
  assert (Hic : id_col <> col) by (intros E; apply col_id; now symmetry).
  rewrite get_set_same, get_set_other, date_set by exact Hic.
  rewrite bucket_rule_last by (unfold breakpoints_at; rewrite Ebps; discriminate).
  rewrite breakpoints_at_removelast, breakpoints_at_last, breakpoints_at_length.
  cbv beta iota delta [NaN].
  destruct (first_le 1 (get r col) (breakpoints_at (removelast bps) (date r)))
    as [g|]; simpl isnull; simpl andb; cbv iota; [reflexivity|].
  destruct (fgt (get r col) (lookup_date (date r) (List.last bps []))).
  - now rewrite set_set.
  - reflexivity.
Qed.

End SortRowwise.

(** ** Breakpoints are the percentiles of the cross-section *)

Section BreakpointFacts.
Import Panel Notebook Topic4.

Lemma np_percentile_in_range (x : list Q) (q : Q) :
  0 <= q <= 100 -> np_percentile x q = Return (interpolate x q).
Proof.
  intros [H0 H1]. unfold np_percentile.
  apply Qle_bool_iff in H0. apply Qle_bool_iff in H1. now rewrite H0, H1.
Qed.

Lemma insert_uniq_In (x y : Z) (l : list Z) :
  In y (insert_uniq Z.compare x l) <-> y = x \/ In y l.
Proof.
  induction l as [|z l IH]; simpl.
  - intuition.
  - destruct (Z.compare_spec x z) as [->|H|H]; simpl.
    + intuition.
    + intuition.
    + rewrite IH. intuition.
Qed.

Lemma sort_uniq_In (y : Z) (l : list Z) :
  In y (sort_uniq Z.compare l) <-> In y l.
Proof.
  induction l as [|x l IH]; simpl; [reflexivity|].
  rewrite insert_uniq_In, IH. intuition.
Qed.

Lemma lookup_date_map (f : Z -> cell) (ds : list Z) (d : Z) :
  lookup_date d (map (fun d' => (d', f d')) ds)
  = if in_dec Z.eq_dec d ds then f d else NaN.
Proof.
  induction ds as [|d' ds IH]; simpl; [reflexivity|].
  destruct (Z.eqb_spec d d') as [E|Hne].
  - subst d'. destruct (Z.eq_dec d d); [reflexivity | contradiction].
  - rewrite IH. destruct (Z.eq_dec d' d) as [E|Hd]; [symmetry in E; contradiction|].
    destruct (in_dec Z.eq_dec d ds); reflexivity.
Qed.

Lemma apply_percentile_map (vals : Z -> list Q) (ds : list Z) (pct : Q) :
  0 <= pct <= 100 ->
  apply_percentile (map (fun d => (d, vals d)) ds) pct
  = Return (map (fun d => (d, interpolate (vals d) pct)) ds).
Proof.
  intros Hr. unfold apply_percentile.
  induction ds as [|d ds IH]; simpl; [reflexivity|].
  rewrite np_percentile_in_range by exact Hr. simpl. rewrite IH. reflexivity.
Qed.

Lemma filter_date_nil (l : list (Z * Q)) (d : Z) :
  ~ In d (map fst l) -> filter (fun x => Z.eqb (fst x) d) l = [].
Proof.
  induction l as [|[d' q] l IH]; simpl; intros H; [reflexivity|].
  destruct (Z.eqb_spec d' d) as [->|_]; [exfalso; apply H; now left|].
  apply IH. intros Hin. apply H. now right.
Qed.

(** The breakpoint Series of one percentile: at every date, the
    percentile of the values of that date. *)
Lemma apply_percentile_groupby (l : list (Z * Q)) (pct : Q) :
  0 <= pct <= 100 ->
  exists s,
    apply_percentile (groupby_date l) pct = Return s /\
    forall d,
      lookup_date d s
      = interpolate (map snd (filter (fun x => Z.eqb (fst x) d) l)) pct.
Proof.
  intros Hr. unfold groupby_date.
  rewrite (apply_percentile_map
             (fun d => map snd (filter (fun x => Z.eqb (fst x) d) l))) by exact Hr.
  eexists. split; [reflexivity|]. intros d.
  rewrite (lookup_date_map
             (fun d => interpolate
                         (map snd (filter (fun x => Z.eqb (fst x) d) l)) pct)).
  destruct (in_dec Z.eq_dec d (sort_uniq Z.compare (map fst l))) as [Hin|Hout];
    [reflexivity|].
  rewrite sort_uniq_In in Hout. now rewrite filter_date_nil.
Qed.

Lemma cross_section_groups (col : string) (U : DataFrame) (d : Z) :
  map snd (filter (fun x => Z.eqb (fst x) d)
                  (dropna_by_date (map (fun r => (date r, get r col)) U)))
  = dropna (map (fun r => get r col) (filter (fun r => Z.eqb (date r) d) U)).
Proof.
  induction U as [|r U IH]; simpl; [reflexivity|].
  destruct (get r col) as [q|] eqn:E; simpl.
  - destruct (Z.eqb (date r) d); simpl; rewrite ?E; simpl.
    + f_equal. exact IH.
    + exact IH.
  - destruct (Z.eqb (date r) d); simpl; rewrite ?E; exact IH.
Qed.

(** One breakpoint per requested percentile and per date: the percentile
    of that date's cross-section. *)
Lemma compute_breakpoints_spec (df : DataFrame) (col : string) (nyse : bool)
  (pcts : list Q) :
  Forall (fun q => 0 <= q <= 100) pcts ->
  exists bps,
    compute_breakpoints df col nyse pcts = Return bps /\
    forall d,
      breakpoints_at bps d
      = map (interpolate (cross_section df col nyse d)) pcts.
Proof.
  unfold compute_breakpoints, sort_universe, cross_section.
  set (U := if nyse
            then filter (fun r => feq (get r "EXCHCD"%string) (Some 1)) df
            else df).
  induction 1 as [|pct pcts Hr _ IH]; simpl.
  - exists []. split; reflexivity.
  - destruct (apply_percentile_groupby
                (dropna_by_date (map (fun r => (date r, get r col)) U)) pct Hr)
      as (s & Hs & Hlook).
    rewrite Hs. simpl. destruct IH as (bps & Hbps & Hat). rewrite Hbps. simpl.
    exists (s :: bps). split; [reflexivity|]. intros d.
    simpl. rewrite Hlook, Hat, cross_section_groups. reflexivity.
Qed.

End BreakpointFacts.

(** ** Forward fill within a stock *)

Section FfillFacts.
Import Panel Notebook Topic4.

Lemma ffill_rev_length n s : List.length (ffill_rev n s) = List.length s.
Proof.
  induction s as [|[p v] s IH]; simpl; [reflexivity | now rewrite IH].
Qed.

Lemma group_ffill_length n s : List.length (group_ffill n s) = List.length s.
Proof. unfold group_ffill. now rewrite length_rev, ffill_rev_length, length_rev. Qed.











End FfillFacts.

(** ** Topic 4: the claims on portfolio_sort *)

Section PortfolioSortClaims.
Import Panel Notebook Topic4.




End PortfolioSortClaims.

(** ** Group keys *)

Section KeyFacts.
Import Panel Notebook Topic4.

Lemma bucket_compare_refl (a : list Q) : bucket_compare a a = Eq.
Proof.
  induction a as [|x a IH]; simpl; [reflexivity|].
  assert (E : Qcompare x x = Eq) by (apply Qeq_alt; reflexivity).
  now rewrite E.
Qed.

Lemma bucket_compare_Eq (a : list Q) : forall b,
  bucket_compare a b = Eq <-> Forall2 Qeq a b.
Proof.
  induction a as [|x a IH]; intros [|y b]; simpl.
  - split; [constructor | reflexivity].
  - split; [discriminate | intros H; inversion H].
  - split; [discriminate | intros H; inversion H].
  - destruct (Qcompare x y) eqn:E.
    + rewrite IH. apply Qeq_alt in E. split.
      * intros H. now constructor.
      * intros H. now inversion H.
    + split; [discriminate|]. intros H. inversion H as [|? ? ? ? Hxy _]; subst.
      apply Qeq_alt in Hxy. congruence.
    + split; [discriminate|]. intros H. inversion H as [|? ? ? ? Hxy _]; subst.
      apply Qeq_alt in Hxy. congruence.
Qed.

Lemma Forall2_Qeq_sym (a b : list Q) : Forall2 Qeq a b -> Forall2 Qeq b a.
Proof. induction 1; constructor; [now symmetry | assumption]. Qed.

Lemma Forall2_Qeq_trans (a b c : list Q) :
  Forall2 Qeq a b -> Forall2 Qeq b c -> Forall2 Qeq a c.
Proof.
  intros H. revert c. induction H as [|x y a b Hxy _ IH]; intros c Hc.
  - inversion Hc. constructor.
  - inversion Hc as [|? z ? c' Hyz Hbc]; subst. constructor.
    + now rewrite Hxy.
    + now apply IH.
Qed.

Lemma key_eqb_spec (k k' : key) :
  key_eqb k k' = true <-> fst k = fst k' /\ Forall2 Qeq (snd k) (snd k').
Proof.
  unfold key_eqb, key_compare.
  destruct (Z.compare_spec (fst k) (fst k')) as [E|E|E].
  - rewrite <- bucket_compare_Eq.
    destruct (bucket_compare (snd k) (snd k')); split; intros H;
      try discriminate; try (destruct H; discriminate); auto.
  - split; [discriminate|]. intros [H _]. lia.
  - split; [discriminate|]. intros [H _]. lia.
Qed.

Lemma key_eqb_refl (k : key) : key_eqb k k = true.
Proof.
  apply key_eqb_spec. split; [reflexivity|].
  apply bucket_compare_Eq, bucket_compare_refl.
Qed.

Lemma key_eqb_sym (k k' : key) : key_eqb k k' = true -> key_eqb k' k = true.
Proof.
  rewrite !key_eqb_spec. intros [H1 H2]. split; [now symmetry|].
  now apply Forall2_Qeq_sym.
Qed.

Lemma key_eqb_trans (a b c : key) :
  key_eqb a b = true -> key_eqb b c = true -> key_eqb a c = true.
Proof.
  rewrite !key_eqb_spec. intros [H1 H2] [H3 H4]. split; [congruence|].
  eapply Forall2_Qeq_trans; eassumption.
Qed.

(** Equivalent keys select the same rows. *)
Lemma key_eqb_ext (a b k : key) :
  key_eqb a b = true -> key_eqb k a = key_eqb k b.
Proof.
  intros Hab. destruct (key_eqb k a) eqn:Ea, (key_eqb k b) eqn:Eb; auto.
  - pose proof (key_eqb_trans _ _ _ Ea Hab). congruence.
  - pose proof (key_eqb_trans _ _ _ Eb (key_eqb_sym _ _ Hab)). congruence.
Qed.

Lemma key_compare_Eq (a b : key) : key_compare a b = Eq <-> key_eqb a b = true.
Proof. unfold key_eqb. destruct (key_compare a b); split; congruence. Qed.

(** Every key of the list is represented among the sorted distinct keys. *)
Lemma sort_uniq_key_complete (l : list key) (k : key) :
  In k l -> exists k', In k' (sort_uniq key_compare l) /\ key_eqb k k' = true.
Proof.
  induction l as [|x l IH]; [intros []|].
  assert (Hins : forall (s : list key) (y : key),
             (exists z, In z s /\ key_eqb y z = true) ->
             exists z, In z (insert_uniq key_compare x s) /\ key_eqb y z = true).
  { induction s as [|z0 s IHs]; intros y (z & Hz & Hyz); [destruct Hz|].
    simpl. destruct (key_compare x z0) eqn:E.
    - exists z. split; [exact Hz | exact Hyz].
    - exists z. split; [now right | exact Hyz].
    - destruct Hz as [<-|Hz].
      + exists z0. split; [now left | exact Hyz].
      + destruct (IHs y) as (w & Hw & Hyw); [now exists z|].
        exists w. split; [now right | exact Hyw]. }
  assert (Hself : forall s : list key,
             exists z, In z (insert_uniq key_compare x s) /\ key_eqb x z = true).
  { induction s as [|z0 s IHs]; simpl.
    - exists x. split; [now left | apply key_eqb_refl].
    - destruct (key_compare x z0) eqn:E.
      + exists z0. split; [now left | now apply key_compare_Eq].
      + exists x. split; [now left | apply key_eqb_refl].
      + destruct IHs as (w & Hw & Hxw). exists w. split; [now right | exact Hxw]. }
  intros [<-|Hk]; simpl.
  - apply Hself.
  - apply Hins. now apply IH.
Qed.

Lemma sort_uniq_key_sound (l : list key) (k : key) :
  In k (sort_uniq key_compare l) -> In k l.
Proof.
  induction l as [|x l IH]; simpl; [intros []|].
  assert (Hins : forall s : list key,
             In k (insert_uniq key_compare x s) -> k = x \/ In k s).
  { induction s as [|z0 s IHs]; simpl.
    - intros [<-|[]]. now left.
    - destruct (key_compare x z0).
      + intros H. now right.
      + intros [<-|H]; [now left | now right].
      + intros [<-|H]; [right; now left|].
        destruct (IHs H) as [->|Hs]; [now left | right; now right]. }
  intros H. destruct (Hins _ H) as [->|Hs]; [now left | right; now apply IH].
Qed.

End KeyFacts.

(** ** Topic 4: the claims on compute_portfolio_returns *)

Section PortfolioReturnsClaims.
Import Panel Notebook Topic4.

Lemma lookup_key_map (F : key -> cell) (keys : list key) (k : key) :
  (forall a b, key_eqb a b = true -> F a = F b) ->
  lookup_key k (map (fun k' => (k', F k')) keys)
  = if existsb (key_eqb k) keys then F k else NaN.
Proof.
  intros HF. induction keys as [|k' keys IH]; simpl; [reflexivity|].
  destruct (key_eqb k k') eqn:E; simpl; [symmetry; now apply HF | exact IH].
Qed.

Lemma members_keyed (sg : list string) (k : key) (rows : DataFrame) :
  members k (keyed sg rows) = filter (in_group sg k) rows.
Proof.
  unfold members, keyed, in_group.
  induction rows as [|r rows IH]; simpl; [reflexivity|].
  destruct (bucket_of sg r) as [b|]; simpl; [|exact IH].
  destruct (key_eqb (date r, b) k); simpl; now rewrite IH.
Qed.

Lemma members_ext (a b : key) (rows : list (key * Row)) :
  key_eqb a b = true -> members a rows = members b rows.
Proof.
  intros Hab. unfold members. f_equal. apply filter_ext.
  intros kr. now apply key_eqb_ext.
Qed.

Lemma members_absent (k : key) (rows : list (key * Row)) :
  existsb (key_eqb k) (sort_uniq key_compare (map fst rows)) = false ->
  members k rows = [].
Proof.
  intros Hex. unfold members.
  assert (Hnil : filter (fun kr : key * Row => key_eqb (fst kr) k) rows = []).
  { destruct (filter (fun kr : key * Row => key_eqb (fst kr) k) rows)
      as [|kr rest] eqn:E; [reflexivity|].
    assert (Hin : In kr (filter (fun kr : key * Row => key_eqb (fst kr) k) rows))
      by (rewrite E; now left).
    apply filter_In in Hin. destruct Hin as [Hin Hk].
    destruct (sort_uniq_key_complete (map fst rows) (fst kr)) as (k' & Hk' & Heq).
    { now apply in_map. }
    assert (Htrue : existsb (key_eqb k) (sort_uniq key_compare (map fst rows)) = true).
    { apply existsb_exists. exists k'. split; [exact Hk'|].
      eapply key_eqb_trans; [apply key_eqb_sym; exact Hk | exact Heq]. }
    congruence. }
  now rewrite Hnil.
Qed.

(** The stacked Series of portfolio returns, looked up at any key, is the
    ratio of the two sums over the rows of that key; a key without rows
    gives 0/0, which is missing. *)
Lemma lookup_key_groupby (sg : list string) (rows : DataFrame) (k : key) :
  lookup_key k
    (map (fun ks => (fst ks, fdiv (snd (snd ks)) (fst (snd ks))))
         (groupby_sums sg rows))
  = fdiv (col_sum "me_x_retnm" (filter (in_group sg k) rows))
         (col_sum "me" (filter (in_group sg k) rows)).
Proof.
  unfold groupby_sums. rewrite map_map. cbn [fst snd].
  set (F := fun k0 : key =>
              fdiv (col_sum "me_x_retnm" (members k0 (keyed sg rows)))
                   (col_sum "me" (members k0 (keyed sg rows)))).
  change (lookup_key k (map (fun k' => (k', F k'))
                            (sort_uniq key_compare (map fst (keyed sg rows))))
          = fdiv (col_sum "me_x_retnm" (filter (in_group sg k) rows))
                 (col_sum "me" (filter (in_group sg k) rows))).
  rewrite lookup_key_map.
  2:{ intros a b Hab. unfold F. now rewrite (members_ext a b). }
  rewrite <- members_keyed.
  destruct (existsb (key_eqb k) _) eqn:E; [reflexivity|].
  rewrite (members_absent _ _ E). reflexivity.
Qed.

Lemma assign_column_map c (f : Row -> cell) (d : DataFrame) :
  assign_column c (map f d) d = map (fun r => set c (f r) r) d.
Proof. induction d as [|r d IH]; simpl; [reflexivity | now rewrite IH]. Qed.

Lemma with_next_return_product (df : DataFrame) (r : Row) :
  In r (with_next_return df) ->
  get r "me_x_retnm" = fmul (get r "me") (get r "retnm").
Proof.
  unfold with_next_return. rewrite assign_column_map.
  intros H. apply in_map_iff in H. destruct H as (r0 & <- & _).
  rewrite get_set_same, !get_set_other by discriminate. reflexivity.
Qed.

Lemma col_sum_product (df : DataFrame) (l : list Row) :
  (forall r, In r l -> In r (with_next_return df)) ->
  col_sum "me_x_retnm" l
  = Some (Qsum (dropna (map (fun r => fmul (get r "me") (get r "retnm")) l))).
Proof.
  intros Hl. unfold col_sum. do 3 f_equal. apply map_ext_in. intros r Hr.
  apply (with_next_return_product df). now apply Hl.
Qed.

Lemma insert_uniq_sorted (x : Z) (l : list Z) :
  StronglySorted Z.lt l -> StronglySorted Z.lt (insert_uniq Z.compare x l).
Proof.
  induction 1 as [|y l Hs IH Hall]; simpl.
  - constructor; constructor.
  - destruct (Z.compare_spec x y) as [E|E|E].
    + now constructor.
    + constructor; [now constructor|]. constructor; [exact E|].
      eapply Forall_impl; [|exact Hall]. intros z Hz. simpl in Hz. lia.
    + constructor; [exact IH|]. apply Forall_forall. intros z Hz.
      apply insert_uniq_In in Hz. destruct Hz as [->|Hz]; [exact E|].
      rewrite Forall_forall in Hall. now apply Hall.
Qed.

Lemma sort_uniq_sorted (l : list Z) : StronglySorted Z.lt (sort_uniq Z.compare l).
Proof.
  induction l as [|x l IH]; simpl; [constructor | now apply insert_uniq_sorted].
Qed.

Lemma nth_removelast {A} (l : list A) (d : A) (i : nat) :
  (S i < List.length l)%nat -> nth i (removelast l) d = nth i l d.
Proof.
  revert i. induction l as [|a l IH]; intros i Hi; [simpl in Hi; lia|].
  destruct l as [|b l]; [simpl in Hi; lia|].
  destruct i as [|i]; [reflexivity|].
  change (removelast (a :: b :: l)) with (a :: removelast (b :: l)).
  simpl nth. apply IH. simpl in *. lia.
Qed.

(** Entries of the unstacked frame. *)
Lemma unstack_entry (s : list (key * cell)) (i j : nat) :
  (i < List.length (index (unstack s)))%nat ->
  (j < List.length (columns (unstack s)))%nat ->
  entry (values (unstack s)) i j
  = lookup_key (nth i (index (unstack s)) 0%Z, nth j (columns (unstack s)) []) s.
Proof.
  unfold unstack; cbn [index columns values]. intros Hi Hj. unfold entry.
  set (I := sort_uniq Z.compare _) in *. set (C := sort_uniq bucket_compare _) in *.
  rewrite (nth_indep _ [] ((fun d => map (fun b => lookup_key (d, b) s) C) 0%Z))
    by (now rewrite length_map).
  rewrite (map_nth (fun d => map (fun b => lookup_key (d, b) s) C)).
  rewrite (nth_indep _ NaN ((fun b => lookup_key (nth i I 0%Z, b) s) []))
    by (now rewrite length_map).
  rewrite (map_nth (fun b => lookup_key (nth i I 0%Z, b) s)). reflexivity.
Qed.

Lemma unstack_rows (s : list (key * cell)) :
  List.length (values (unstack s)) = List.length (index (unstack s)).
Proof. unfold unstack; cbn [index values]. apply length_map. Qed.

(** After [shift(1)] the first row is missing and every other row holds
    the values of the row before it. *)
Lemma shift1_first (w : Wide) (j : nat) : entry (values (shift1 w)) 0 j = NaN.
Proof.
  unfold shift1, entry; cbn [values]. destruct (values w); simpl.
  - destruct j; reflexivity.
  - destruct (nth_in_or_default j (map (fun _ : list Q => NaN) (columns w)) NaN)
      as [H|H]; [|exact H].
    apply in_map_iff in H. now destruct H as (? & <- & _).
Qed.

Lemma shift1_next (w : Wide) (i j : nat) :
  (S i < List.length (values w))%nat ->
  entry (values (shift1 w)) (S i) j = entry (values w) i j.
Proof.
  intros Hi. unfold shift1, entry; cbn [values].
  destruct (values w) as [|row rows] eqn:E; [simpl in Hi; lia|].
  cbn [nth]. now rewrite nth_removelast.
Qed.

Lemma shift1_rows (w : Wide) :
  List.length (values (shift1 w)) = List.length (values w).
Proof.
  unfold shift1; cbn [values]. destruct (values w) as [|row rows] eqn:E;
    [reflexivity|].
  cbn [List.length]. rewrite removelast_firstn_len, length_firstn.
  cbn [List.length]. lia.
Qed.

Lemma bucket_of_keyed (sg : list string) (rows : DataFrame) (k : key) (r : Row) :
  In (k, r) (keyed sg rows) <->
  In r rows /\ bucket_of sg r = Some (snd k) /\ date r = fst k.
Proof.
  unfold keyed. rewrite in_flat_map. split.
  - intros (r0 & Hr0 & Hin). destruct (bucket_of sg r0) as [b|] eqn:E; [|destruct Hin].
    destruct Hin as [Heq|[]]. injection Heq as <- <-. auto.
  - intros (Hr & Hb & Hd). exists r. split; [exact Hr|]. rewrite Hb.
    left. destruct k; simpl in *. now subst.
Qed.

(** The dates of the output index are the dates at which some complete
    row belongs to a group. *)
Lemma index_groupby (sg : list string) (rows : DataFrame) (d : Z) :
  In d (index (unstack
                 (map (fun ks => (fst ks, fdiv (snd (snd ks)) (fst (snd ks))))
                      (groupby_sums sg rows))))
  <-> exists r, In r rows /\ bucket_of sg r <> None /\ date r = d.
Proof.
  unfold unstack; cbn [index]. rewrite sort_uniq_In.
  unfold groupby_sums. rewrite !map_map. cbn [fst snd]. rewrite in_map_iff. split.
  - intros (k & <- & Hk). apply sort_uniq_key_sound in Hk.
    apply in_map_iff in Hk. destruct Hk as ([k' r] & <- & Hin).
    apply bucket_of_keyed in Hin. destruct Hin as (Hr & Hb & Hd).
    exists r. split; [exact Hr|]. split; [congruence | exact Hd].
  - intros (r & Hr & Hb & Hd).
    destruct (bucket_of sg r) as [b|] eqn:E; [|contradiction].
    destruct (sort_uniq_key_complete (map fst (keyed sg rows)) (d, b))
      as (k' & Hk' & Heq).
    { apply in_map_iff. exists ((d, b), r). split; [reflexivity|].
      apply bucket_of_keyed. simpl. auto. }
    exists k'. split; [|exact Hk'].
    apply key_eqb_spec in Heq. destruct Heq as [Heq _]. simpl in Heq. congruence.
Qed.


(** The frame that the aggregation returns, entry by entry. *)
Lemma aggregate_spec (D : DataFrame) (sv sort_groups : list string) :
  let rows := with_next_return D in
  let out := aggregate_weighted_returns D sv sort_groups in
  (forall d, In d (index out) <->
             exists r, In r rows /\ complete_row sv r = true /\
                       bucket_of sort_groups r <> None /\ date r = d) /\
  StronglySorted Z.lt (index out) /\
  List.length (values out) = List.length (index out) /\
  (forall j, entry (values out) 0 j = NaN) /\
  (forall i j,
      (S i < List.length (index out))%nat ->
      (j < List.length (columns out))%nat ->
      entry (values out) (S i) j
      = value_weighted_return rows sv sort_groups
          (nth i (index out) 0%Z) (nth j (columns out) [])).
Proof.
  intros rows out. unfold out, aggregate_weighted_returns. fold rows.
  set (valid := filter (complete_row sv) rows).
  set (pr := map (fun ks => (fst ks, fdiv (snd (snd ks)) (fst (snd ks))))
                 (groupby_sums sort_groups valid)).
  change (index (shift1 (unstack pr))) with (index (unstack pr)).
  change (columns (shift1 (unstack pr))) with (columns (unstack pr)).
  split; [|split; [|split; [|split]]].
  - intros d. unfold pr. rewrite index_groupby. split.
    + intros (r & Hr & Hb & Hd). apply filter_In in Hr. destruct Hr as [Hr Hc].
      exists r. auto.
    + intros (r & Hr & Hc & Hb & Hd). exists r. split; [|auto].
      apply filter_In. auto.
  - unfold unstack; cbn [index]. apply sort_uniq_sorted.
  - rewrite shift1_rows. apply unstack_rows.
  - intros j. apply shift1_first.
  - intros i j Hi Hj.
    rewrite shift1_next by (rewrite unstack_rows; exact Hi).
    rewrite unstack_entry by (try exact Hj; lia).
    unfold pr. rewrite lookup_key_groupby.
    unfold value_weighted_return. fold valid.
    rewrite (col_sum_product D).
    + reflexivity.
    + intros r Hr. apply filter_In in Hr. destruct Hr as [Hr _].
      apply filter_In in Hr. now destruct Hr.
Qed.


End PortfolioReturnsClaims.

(** ** Sharpe ratios *)

Section SharpeRatio.

Variable np_sqrt : Q -> Q.

Lemma fdiv_fmul_assoc (a : Q) (m s : cell) :
  cell_eq (fdiv (fmul (Some a) m) s) (fmul (Some a) (fdiv m s)).
Proof.
  destruct m as [x|], s as [y|]; simpl; try exact I.
  destruct (Qeq_bool y 0) eqn:E; simpl; [exact I|].
  apply Qeq_bool_neq in E. field. exact E.
Qed.

(** C7.  analyze_returns computes the annualized Sharpe ratio as
    sqrt(12) times the mean of r divided by the standard deviation of r,
    over the rows whose date lies between start_date and end_date, both
    included (Topics 2 and 4, the same function); the Topic 5 variant
    takes all of r, subtracts the supplied risk-free rate rf from the
    mean before dividing, and uses the raw mean when rf is not provided.
    The mean and the standard deviation (sample, ddof=1) skip missing
    values: with at least two observations and a non-zero standard
    deviation the ratio is sqrt(12) * m / sqrt(sum (x - m)^2 / (n - 1)),
    and with fewer than two it is NaN.  The Topic 2 function on r is the
    Topic 5 one on the window without rf.  Equalities are up to the
    representation of rationals. *)
Theorem analyze_returns_sharpe_ratio :
  forall (r : list (Z * cell)) (start_date end_date : Z)
         (r5 : list cell) (rf : cell),
    let window :=
      map snd (filter (fun x => Z.leb start_date (fst x) && Z.leb (fst x) end_date) r) in
    cell_eq (Topic2.analyze_returns np_sqrt r start_date end_date)
            (fmul (Some (np_sqrt 12)) (fdiv (mean window) (std np_sqrt window))) /\
    cell_eq (Topic4.analyze_returns np_sqrt r start_date end_date)
            (fmul (Some (np_sqrt 12)) (fdiv (mean window) (std np_sqrt window))) /\
    cell_eq (Topic5.analyze_returns np_sqrt r5 (Some rf))
            (fmul (Some (np_sqrt 12))
                  (fdiv (fsub (mean r5) rf) (std np_sqrt r5))) /\
    cell_eq (Topic5.analyze_returns np_sqrt r5 None)
            (fmul (Some (np_sqrt 12)) (fdiv (mean r5) (std np_sqrt r5))) /\
    (forall x1 x2 xs,
        dropna window = x1 :: x2 :: xs ->
        let obs := x1 :: x2 :: xs in
        let m := Qsum obs / Qlen obs in
        let s := np_sqrt (Qsum (map (fun x => (x - m) * (x - m)) obs)
                          / (Qlen obs - 1)) in
        ~ s == 0 ->
        cell_eq (Topic4.analyze_returns np_sqrt r start_date end_date)
                (Some (np_sqrt 12 * m / s))) /\
    (forall x, dropna window = [] \/ dropna window = [x] ->
               Topic4.analyze_returns np_sqrt r start_date end_date = NaN) /\
    Topic2.analyze_returns np_sqrt r start_date end_date
    = Topic5.analyze_returns np_sqrt window None.
Proof.
  intros r start_date end_date r5 rf window.
  split; [apply fdiv_fmul_assoc|]. split; [apply fdiv_fmul_assoc|].
  split; [apply fdiv_fmul_assoc|]. split; [apply fdiv_fmul_assoc|].
  split; [|split].
  - intros x1 x2 xs Hobs obs m s Hs.
    unfold Topic4.analyze_returns, Topic4.loc_slice, std, var, mean.
    fold window. rewrite Hobs. fold obs. fold m. cbn [option_map fmul lift2].
    fold s. unfold fdiv.
    destruct (Qeq_bool s 0) eqn:E.
    + apply Qeq_bool_iff in E. contradiction.
    + simpl. reflexivity.
  - intros x Hx.
    unfold Topic4.analyze_returns, Topic4.loc_slice, std, var, mean.
    fold window. destruct Hx as [Hx|Hx]; rewrite Hx; reflexivity.
  - reflexivity.
Qed.

End SharpeRatio.

(** ** Topic 2: the prepared frame row by row *)

Section Topic2Rows.
Import Panel Topic2.
Local Open Scope string_scope.

Lemma add_positions_rowwise bp (df : DataFrame) :
  add_positions (merge_breakpoints bp df) = map (indicators bp) df.
Proof.
  unfold add_positions, merge_breakpoints, assign_with. rewrite !map_map.
  reflexivity.
Qed.

Lemma indicators_label bp r : label (indicators bp r) = label r.
Proof. reflexivity. Qed.



Lemma indicators_long bp r :
  get (indicators bp r) "long" = of_bool (long_indicator bp r).
Proof.
  unfold indicators, long_indicator. cbv zeta.
  rewrite !(get_set_other _ "long") by discriminate. rewrite get_set_same.
  rewrite (get_set_other "p90" "p10") by discriminate. rewrite get_set_same.
  rewrite !(get_set_other _ "ret") by discriminate. reflexivity.
Qed.

Lemma indicators_short bp r :
  get (indicators bp r) "short" = of_bool (short_indicator bp r).
Proof.
  unfold indicators, short_indicator. cbv zeta.
  rewrite !(get_set_other _ "short") by discriminate. rewrite get_set_same.
  rewrite (get_set_other "long" "p90") by discriminate. rewrite get_set_same.
  rewrite !(get_set_other _ "ret") by discriminate. reflexivity.
Qed.


Lemma combine_map_same {A B C} (f : A -> B) (g : A -> C) (l : list A) :
  combine (map f l) (map g l) = map (fun x => (f x, g x)) l.
Proof. induction l as [|a l IH]; simpl; [reflexivity | now rewrite IH]. Qed.

Lemma dropna_map_Some {A} (f : A -> Q) (l : list A) :
  dropna (map (fun a => Some (f a)) l) = map f l.
Proof. induction l as [|a l IH]; simpl; [reflexivity | now rewrite <- IH]. Qed.

Lemma filter_date_map (f : Row -> Row) (df : DataFrame) (d : Z) :
  (forall r, date (f r) = date r) ->
  filter (fun r => Z.eqb (date r) d) (map f df)
  = map f (filter (fun r => Z.eqb (date r) d) df).
Proof.
  intros Hf. induction df as [|r df IH]; simpl; [reflexivity|].
  rewrite Hf. destruct (Z.eqb (date r) d); simpl; now rewrite IH.
Qed.

Lemma sum_by_date_long bp (df : DataFrame) (d : Z) :
  sum_by_date "long" (map (indicators bp) df) d
  = Some (count_at (long_indicator bp) df d).
Proof.
  unfold sum_by_date, count_at. f_equal.
  rewrite filter_date_map by reflexivity. rewrite map_map.
  rewrite (map_ext _ (fun r => Some (if long_indicator bp r then 1 else 0))).
  - f_equal. apply dropna_map_Some.
  - intros r. rewrite indicators_long. reflexivity.
Qed.

Lemma sum_by_date_short bp (df : DataFrame) (d : Z) :
  sum_by_date "short" (map (indicators bp) df) d
  = Some (count_at (short_indicator bp) df d).
Proof.
  unfold sum_by_date, count_at. f_equal.
  rewrite filter_date_map by reflexivity. rewrite map_map.
  rewrite (map_ext _ (fun r => Some (if short_indicator bp r then 1 else 0))).
  - f_equal. apply dropna_map_Some.
  - intros r. rewrite indicators_short. reflexivity.
Qed.

Lemma add_weights_rowwise bp (df : DataFrame) :
  add_weights (map (indicators bp) df) = map (weighted bp df) df.
Proof.
  unfold add_weights, drop_columns. rewrite combine_map_same, !map_map.
  apply map_ext. intros r. cbn [fst snd]. unfold weighted.
  rewrite indicators_long, indicators_short.
  change (date (indicators bp r)) with (date r).
  now rewrite sum_by_date_long, sum_by_date_short.
Qed.

Lemma prepare_rowwise (df : DataFrame) bp :
  breakpoints df = Return bp -> prepare df = Return (map (weighted bp df) df).
Proof.
  intros Hbp. unfold prepare. rewrite Hbp. cbn [Py.bind].
  now rewrite add_positions_rowwise, add_weights_rowwise.
Qed.

Lemma assoc_filter_other (cs : list string) (c : string) (l : list (string * cell)) :
  existsb (String.eqb c) cs = false ->
  assoc c (filter (fun kv => negb (existsb (String.eqb (fst kv)) cs)) l) = assoc c l.
Proof.
  intros Hc. induction l as [|[k v] l IH]; simpl; [reflexivity|].
  destruct (String.eqb_spec k c) as [->|Hk].
  - rewrite Hc. simpl. now rewrite String.eqb_refl.
  - destruct (existsb (String.eqb k) cs); simpl; [exact IH|].
    destruct (String.eqb_spec k c); [contradiction | exact IH].
Qed.

Lemma get_drop_row (cs : list string) (c : string) (r : Row) :
  existsb (String.eqb c) cs = false -> get (drop_row cs r) c = get r c.
Proof. intros Hc. unfold get, drop_row; simpl. now apply assoc_filter_other. Qed.





Lemma weighted_long bp df r :
  get (weighted bp df r) "long"
  = fdiv (of_bool (long_indicator bp r))
         (Some (count_at (long_indicator bp) df (date r))).
Proof.
  unfold weighted. rewrite get_set_other by discriminate. apply get_set_same.
Qed.

Lemma weighted_short bp df r :
  get (weighted bp df r) "short"
  = fdiv (of_bool (short_indicator bp r))
         (Some (count_at (short_indicator bp) df (date r))).
Proof. unfold weighted. apply get_set_same. Qed.

End Topic2Rows.

(** ** Topic 2: the reversal strategy *)

Section ReversalStrategy.
Import Panel Topic2.
Local Open Scope string_scope.

Lemma breakpoints_returns (df : DataFrame) :
  exists bp,
    breakpoints df = Return bp /\
    forall d,
      let returns :=
        dropna (map (fun r => get r "ret") (filter (fun r => Z.eqb (date r) d) df)) in
      lookup_date d (fst bp) = interpolate returns 10 /\
      lookup_date d (snd bp) = interpolate returns 90.
Proof.
  unfold breakpoints.
  set (l := dropna_by_date (map (fun r => (date r, get r "ret")) df)).
  destruct (apply_percentile_groupby l 10) as (p10 & H10 & L10).
  { split; unfold Qle; simpl; lia. }
  destruct (apply_percentile_groupby l 90) as (p90 & H90 & L90).
  { split; unfold Qle; simpl; lia. }
  rewrite H10, H90. cbn [Py.bind]. eexists. split; [reflexivity|].
  intros d. cbn [fst snd]. rewrite L10, L90. unfold l.
  rewrite cross_section_groups. split; reflexivity.
Qed.

Lemma count_at_nonneg (ind : Row -> bool) (df : DataFrame) (d : Z) :
  0 <= count_at ind df d.
Proof.
  unfold count_at. induction (filter (fun r => Z.eqb (date r) d) df) as [|r l IH];
    simpl; [apply Qle_refl|].
  change (fold_right Qplus 0 (map (fun r0 => if ind r0 then 1 else 0) l))
    with (Qsum (map (fun r0 => if ind r0 then 1 else 0) l)).
  destruct (ind r); lra.
Qed.

Lemma count_at_pos (ind : Row -> bool) (df : DataFrame) (r : Row) :
  In r df -> ind r = true -> 1 <= count_at ind df (date r).
Proof.
  intros Hin Hind. unfold count_at.
  assert (Hf : In r (filter (fun r0 => Z.eqb (date r0) (date r)) df)).
  { apply filter_In. split; [exact Hin | apply Z.eqb_refl]. }
  induction (filter (fun r0 => Z.eqb (date r0) (date r)) df) as [|x l IH];
    [destruct Hf|].
  simpl.
  change (fold_right Qplus 0 (map (fun r0 => if ind r0 then 1 else 0) l))
    with (Qsum (map (fun r0 => if ind r0 then 1 else 0) l)).
  assert (Hnn : 0 <= Qsum (map (fun r0 => if ind r0 then 1 else 0) l)).
  { clear. induction l as [|y l IH]; simpl; [apply Qle_refl|].
    change (fold_right Qplus 0 (map (fun r0 => if ind r0 then 1 else 0) l))
      with (Qsum (map (fun r0 => if ind r0 then 1 else 0) l)).
    destruct (ind y); lra. }
  destruct Hf as [->|Hf].
  - rewrite Hind. lra.
  - specialize (IH Hf). destruct (ind x); lra.
Qed.





Lemma group_shift_back_length (s : list (Z * cell)) :
  List.length (group_shift_back s) = List.length s.
Proof. induction s as [|[p v] s IH]; simpl; [reflexivity | now rewrite IH]. Qed.



Lemma Forall2_map_right {A B} (R : A -> B -> Prop) (f : A -> B) (l : list A) :
  (forall a, In a l -> R a (f a)) -> Forall2 R l (map f l).
Proof.
  induction l as [|a l IH]; intros H; simpl; constructor.
  - apply H. now left.
  - apply IH. intros x Hx. apply H. now right.
Qed.


Lemma Forall2_compose {A B C} (R : A -> B -> Prop) (S : B -> C -> Prop)
  (l : list A) (l' : list B) (l'' : list C) :
  Forall2 R l l' -> Forall2 S l' l'' ->
  Forall2 (fun a c => exists b, R a b /\ S b c) l l''.
Proof.
  intros H. revert l''. induction H as [|a b l l' Hab _ IH]; intros l'' H'.
  - inversion H'. constructor.
  - inversion H' as [|? c ? l3 Hbc Hrest]; subst. constructor.
    + now exists b.
    + now apply IH.
Qed.

Lemma assign_column_Forall2 c : forall (l : DataFrame) (s : list cell),
  List.length s = List.length l ->
  Forall2 (fun r r' => exists v, r' = set c v r) l (assign_column c s l).
Proof.
  induction l as [|r l IH]; intros [|v s] Hlen; simpl in *; try discriminate.
  - constructor.
  - constructor; [now exists v | apply IH; lia].
Qed.

Lemma with_next_return_Forall2 (l : DataFrame) :
  Forall2 (fun r r4 => exists v w, r4 = set "me_x_retnm" w (set "retnm" v r))
          l (Topic4.with_next_return l).
Proof.
  unfold Topic4.with_next_return. rewrite assign_column_map.
  set (l1 := assign_column "retnm" _ l).
  assert (H1 : Forall2 (fun r r' => exists v, r' = set "retnm" v r) l l1).
  { apply assign_column_Forall2. unfold by_permno.
    now rewrite group_shift_back_length, length_map. }
  assert (H2 : Forall2 (fun r r' => exists w, r' = set "me_x_retnm" w r) l1
                 (map (fun r => set "me_x_retnm"
                                  (fmul (get r "me") (get r "retnm")) r) l1)).
  { apply Forall2_map_right. intros a _. now eexists. }
  eapply Forall2_impl; [|exact (Forall2_compose _ _ _ _ _ H1 H2)].
  intros r r4 (r1 & (v & ->) & (w & ->)). now exists v, w.
Qed.




End ReversalStrategy.

(** ** Topic 2: the strategy sees no later observation *)

Section NoLookahead.
Import Panel Topic2.
Local Open Scope string_scope.
Local Open Scope list_scope.

Variable t : Z.










Lemma filter_map_commute {A B} (f : A -> B) (Q : B -> bool) (l : list A) :
  filter Q (map f l) = map f (filter (fun a => Q (f a)) l).
Proof.
  induction l as [|a l IH]; simpl; [reflexivity|].
  destruct (Q (f a)); simpl; now rewrite IH.
Qed.








End NoLookahead.

Section NoLookaheadClaim.
Import Panel Topic2.
Local Open Scope string_scope.
Local Open Scope list_scope.


Lemma dates_increasing_before (before : DataFrame) (r : Row) (after : DataFrame) :
  dates_increasing (before ++ r :: after) = true ->
  forall x, In x before -> PERMNO x = PERMNO r -> (date x < date r)%Z.
Proof.
  induction before as [|y before IH]; simpl; intros H x Hx Hp; [destruct Hx|].
  apply andb_true_iff in H. destruct H as [Hall Hrest].
  destruct Hx as [<-|Hx]; [|now apply IH].
  rewrite forallb_forall in Hall.
  assert (Hr : In r (before ++ r :: after))
    by (apply in_or_app; right; now left).
  specialize (Hall r Hr).
  apply orb_true_iff in Hall. destruct Hall as [H|H].
  - apply negb_true_iff, Z.eqb_neq in H. congruence.
  - now apply Z.ltb_lt.
Qed.



End NoLookaheadClaim.

(** ** Panels without gaps *)

Section ContiguousPanels.
Import Panel Notebook Topic4.
Local Open Scope list_scope.

Lemma find_split {A} (f : A -> bool) (l : list A) (x : A) :
  find f l = Some x ->
  exists l1 l2, l = l1 ++ x :: l2 /\ f x = true /\
                forall y, In y l1 -> f y = false.
Proof.
  induction l as [|a l IH]; simpl; [discriminate|].
  destruct (f a) eqn:E.
  - intros H; injection H as <-. exists [], l.
    split; [reflexivity|]. split; [exact E | intros y []].
  - intros H. destruct (IH H) as (l1 & l2 & -> & Hx & Hl1).
    exists (a :: l1), l2. split; [reflexivity|]. split; [exact Hx|].
    intros y [<-|Hy]; [exact E | now apply Hl1].
Qed.

Lemma find_first_min (p : Z) (rest : DataFrame) (x0 : Row) :
  dates_increasing rest = true ->
  find (fun x => Z.eqb (PERMNO x) p) rest = Some x0 ->
  forall x, In x rest -> PERMNO x = p -> (date x0 <= date x)%Z.
Proof.
  induction rest as [|y rest IH]; simpl; [discriminate|].
  intros Hs Hf x Hx Hp. apply andb_true_iff in Hs. destruct Hs as [Hall Hrest].
  destruct (Z.eqb_spec (PERMNO y) p) as [Ey|Ey].
  - injection Hf as <-. destruct Hx as [<-|Hx]; [lia|].
    rewrite forallb_forall in Hall. specialize (Hall x Hx).
    apply orb_true_iff in Hall. destruct Hall as [H|H].
    + apply negb_true_iff, Z.eqb_neq in H. congruence.
    + apply Z.ltb_lt in H. lia.
  - destruct Hx as [<-|Hx]; [contradiction|]. now apply IH.
Qed.

Lemma contiguous_increasing (df : DataFrame) :
  contiguous df = true -> dates_increasing df = true.
Proof.
  induction df as [|r rest IH]; simpl; [reflexivity|].
  intros H. apply andb_true_iff in H. destruct H as [Hnext Hrest].
  specialize (IH Hrest). rewrite IH, andb_true_r.
  apply forallb_forall. intros x Hx. apply orb_true_iff.
  destruct (Z.eqb_spec (PERMNO x) (PERMNO r)) as [Ep|Ep]; [right | now left].
  destruct (find (fun x0 => Z.eqb (PERMNO x0) (PERMNO r)) rest) as [x0|] eqn:Ef.
  - apply Z.eqb_eq in Hnext.
    pose proof (find_first_min (PERMNO r) rest x0 IH Ef x Hx Ep).
    apply Z.ltb_lt. lia.
  - exfalso. pose proof (find_none _ _ Ef x Hx) as Hn. simpl in Hn.
    apply Z.eqb_neq in Hn. contradiction.
Qed.

Lemma dates_increasing_NoDup (df : DataFrame) :
  dates_increasing df = true -> NoDup (map label df).
Proof.
  induction df as [|r rest IH]; simpl; [constructor|].
  intros H. apply andb_true_iff in H. destruct H as [Hall Hrest].
  constructor; [|now apply IH].
  intros Hin. apply in_map_iff in Hin. destruct Hin as (x & Hl & Hx).
  rewrite forallb_forall in Hall. specialize (Hall x Hx).
  unfold label in Hl. injection Hl as Hp Hd.
  apply orb_true_iff in Hall. destruct Hall as [H|H].
  - apply negb_true_iff, Z.eqb_neq in H. contradiction.
  - apply Z.ltb_lt in H. lia.
Qed.

Lemma contiguous_suffix (before l : DataFrame) :
  contiguous (before ++ l) = true -> contiguous l = true.
Proof.
  induction before as [|x before IH]; simpl; [auto|].
  intros H. apply andb_true_iff in H. now apply IH.
Qed.

Lemma contiguous_labels (df df' : DataFrame) :
  map label df' = map label df -> contiguous df' = contiguous df.
Proof.
  revert df'. induction df as [|r df IH]; intros [|r' df'] H; simpl in *;
    try discriminate; [reflexivity|].
  unfold label at 1 3 in H. injection H as Hp Hd H. rewrite (IH _ H). f_equal.
  rewrite Hp, Hd. clear - H. revert df' H.
  induction df as [|x df IH]; intros [|x' df'] H; simpl in *;
    try discriminate; [reflexivity|].
  unfold label at 1 3 in H. injection H as Hp' Hd' H. rewrite Hp'.
  destruct (Z.eqb (PERMNO x) (PERMNO r)); [now rewrite Hd' | now apply IH].
Qed.

(** [next_in_group] skips rows of other stocks. *)
Lemma next_in_group_skip (c : string) (p : Z) (l1 l2 : DataFrame) :
  (forall y, In y l1 -> PERMNO y <> p) ->
  next_in_group p (by_permno c (l1 ++ l2)) = next_in_group p (by_permno c l2).
Proof.
  intros H. induction l1 as [|y l1 IH]; simpl; [reflexivity|].
  destruct (Z.eqb_spec p (PERMNO y)) as [E|_].
  - exfalso. apply (H y); [now left | now symmetry].
  - apply IH. intros z Hz. apply H. now right.
Qed.

Lemma rows_at_app (d : Z) (l1 l2 : DataFrame) :
  rows_at d (l1 ++ l2) = rows_at d l1 ++ rows_at d l2.
Proof. apply filter_app. Qed.

Lemma rows_at_In (d : Z) (l : DataFrame) (r : Row) :
  In r (rows_at d l) <-> In r l /\ date r = d.
Proof. unfold rows_at. rewrite filter_In, Z.eqb_eq. reflexivity. Qed.

(** In a panel without gaps the return in the next row of a stock is its
    return among the rows of the next month. *)
Lemma next_in_group_contiguous (c : string) (before : DataFrame) (r : Row)
  (after : DataFrame) :
  contiguous (before ++ r :: after) = true ->
  next_in_group (PERMNO r) (by_permno c after)
  = next_in_group (PERMNO r)
      (by_permno c (rows_at (date r + 1) (before ++ r :: after))).
Proof.
  intros Hc.
  pose proof (contiguous_increasing _ Hc) as Hinc.
  pose proof (dates_increasing_before before r after Hinc) as Hbefore.
  pose proof (contiguous_suffix before (r :: after) Hc) as Hsuf.
  rewrite rows_at_app. rewrite next_in_group_skip.
  2:{ intros y Hy Hp. apply rows_at_In in Hy. destruct Hy as [Hy Hd].
      specialize (Hbefore y Hy Hp). lia. }
  change (r :: after) with ([r] ++ after). rewrite rows_at_app.
  rewrite next_in_group_skip.
  2:{ intros y Hy _. apply rows_at_In in Hy. destruct Hy as [[<-|[]] Hd]. lia. }
  simpl in Hsuf. apply andb_true_iff in Hsuf. destruct Hsuf as [Hnext _].
  destruct (find (fun x => Z.eqb (PERMNO x) (PERMNO r)) after) as [x0|] eqn:Ef.
  - apply Z.eqb_eq in Hnext.
    destruct (find_split _ _ _ Ef) as (l1 & l2 & -> & Hx0 & Hl1).
    apply Z.eqb_eq in Hx0.
    rewrite rows_at_app, !next_in_group_skip.
    2:{ intros y Hy. apply rows_at_In in Hy. destruct Hy as [Hy _].
        specialize (Hl1 y Hy). now apply Z.eqb_neq in Hl1. }
    2:{ intros y Hy. specialize (Hl1 y Hy). now apply Z.eqb_neq in Hl1. }
    unfold rows_at. simpl. rewrite Hnext, Z.eqb_refl. simpl.
    now rewrite <- Hx0, Z.eqb_refl.
  - assert (Hnone : forall l : DataFrame,
               (forall y, In y l -> PERMNO y <> PERMNO r) ->
               next_in_group (PERMNO r) (by_permno c l) = NaN).
    { intros l Hl. rewrite <- (app_nil_r l). rewrite next_in_group_skip by exact Hl.
      reflexivity. }
    rewrite !Hnone; [reflexivity | |].
    + intros y Hy. apply rows_at_In in Hy. destruct Hy as [Hy _].
      pose proof (find_none _ _ Ef y Hy) as Hn. now apply Z.eqb_neq in Hn.
    + intros y Hy. pose proof (find_none _ _ Ef y Hy) as Hn.
      now apply Z.eqb_neq in Hn.
Qed.

End ContiguousPanels.

(** ** Topic 4 with monthly sorts: one month at a time *)

Section OneStepLag.
Import Panel Notebook Topic4.
Local Open Scope list_scope.

Lemma with_next_return_cons (r : Row) (l : DataFrame) :
  with_next_return (r :: l)
  = set "me_x_retnm"
        (fmul (get r "me") (next_in_group (PERMNO r) (by_permno "ret" l)))
        (set "retnm" (next_in_group (PERMNO r) (by_permno "ret" l)) r)
    :: with_next_return l.
Proof.
  unfold with_next_return. rewrite !assign_column_map. simpl.
  rewrite get_set_same, get_set_other by discriminate. reflexivity.
Qed.

Lemma rows_at_cons (d : Z) (x : Row) (l : DataFrame) :
  rows_at d (x :: l) = if Z.eqb (date x) d then x :: rows_at d l else rows_at d l.
Proof. reflexivity. Qed.

(** In a panel without gaps, the rows of a month with their next-month
    return are determined by the rows of that month and of the next. *)
Lemma rows_at_with_next_return (d : Z) (D : DataFrame) :
  contiguous D = true ->
  rows_at d (with_next_return D) = map (attach_next D) (rows_at d D).
Proof.
  assert (H : forall l before,
             contiguous (before ++ l) = true ->
             rows_at d (with_next_return l)
             = map (attach_next (before ++ l)) (rows_at d l)).
  { induction l as [|r l IH]; intros before Hc; [reflexivity|].
    rewrite with_next_return_cons, !rows_at_cons.
    change (date (set "me_x_retnm" _ (set "retnm" _ r))) with (date r).
    assert (Hc' : contiguous ((before ++ [r]) ++ l) = true)
      by (now rewrite <- app_assoc).
    specialize (IH (before ++ [r]) Hc'). rewrite <- app_assoc in IH. simpl in IH.
    destruct (Z.eqb (date r) d); [|exact IH].
    simpl map. rewrite IH. f_equal. unfold attach_next. cbv zeta.
    now rewrite <- (next_in_group_contiguous "ret" before r l Hc). }
  intros Hc. apply (H D []). exact Hc.
Qed.

Lemma filter_filter_idem {A} (P Q : A -> bool) (l : list A) :
  filter P (filter Q (filter P l)) = filter P (filter Q l).
Proof.
  induction l as [|a l IH]; simpl; [reflexivity|].
  destruct (P a) eqn:EP; simpl.
  - destruct (Q a); simpl; rewrite ?EP; now rewrite IH.
  - destruct (Q a); simpl; rewrite ?EP; exact IH.
Qed.

Lemma filter_idem {A} (P : A -> bool) (l : list A) :
  filter P (filter P l) = filter P l.
Proof.
  induction l as [|a l IH]; simpl; [reflexivity|].
  destruct (P a) eqn:EP; simpl; rewrite ?EP; now rewrite IH.
Qed.

Lemma cross_section_rows_at (df : DataFrame) (col : string) (nyse : bool) (d : Z) :
  cross_section df col nyse d = cross_section (rows_at d df) col nyse d.
Proof.
  unfold cross_section, rows_at. destruct nyse; cbv iota.
  - now rewrite filter_filter_idem.
  - now rewrite filter_idem.
Qed.

Lemma rows_at_monthly_sort (df : DataFrame) (col : string) (nyse : bool)
  (pcts : list Q) (id_col : string) (d : Z) :
  rows_at d (monthly_sort df col nyse pcts id_col)
  = monthly_sort (rows_at d df) col nyse pcts id_col.
Proof.
  unfold monthly_sort, rows_at. rewrite filter_map_commute.
  change (fun a : Row => Z.eqb (date (set id_col _ a)) d)
    with (fun a : Row => Z.eqb (date a) d).
  apply map_ext_in. intros r Hr. apply filter_In in Hr. destruct Hr as [_ Hr].
  apply Z.eqb_eq in Hr. rewrite Hr. fold (rows_at d df).
  now rewrite <- cross_section_rows_at.
Qed.

Lemma monthly_sort_labels (df : DataFrame) col nyse pcts id_col :
  map label (monthly_sort df col nyse pcts id_col) = map label df.
Proof. unfold monthly_sort. rewrite map_map. apply map_ext. reflexivity. Qed.

Lemma string_length_append (a b : string) :
  String.length (a ++ b)%string = (String.length a + String.length b)%nat.
Proof. induction a as [|c a IH]; simpl; [reflexivity | now rewrite IH]. Qed.

Lemma group_name_differs (v : string) : v <> group_name v.
Proof.
  unfold group_name. intros H.
  apply (f_equal String.length) in H. rewrite string_length_append in H.
  simpl in H. lia.
Qed.

(** One monthly sort, as the two pure functions compute it. *)
Lemma sort_pass_monthly (df : DataFrame) (col id_col : string) (nyse : bool)
  (pcts : list Q) :
  col <> id_col ->
  NoDup (map label df) ->
  pcts <> [] ->
  Forall (fun q => 0 <= q <= 100) pcts ->
  Py.bind (compute_breakpoints df col nyse pcts)
          (fun bps => assign_buckets df col id_col bps false)
  = Return (monthly_sort df col nyse pcts id_col).
Proof.
  intros Hcol Hnd Hne Hrange.
  destruct (compute_breakpoints_spec df col nyse pcts Hrange) as (bps & Hbps & Hat).
  rewrite Hbps. cbn [Py.bind].
  assert (Hbne : bps <> []).
  { intros ->. specialize (Hat 0%Z). simpl in Hat.
    destruct pcts; [contradiction | discriminate]. }
  rewrite (assign_buckets_rowwise col id_col Hcol _ _ false Hnd Hbne).
  cbv zeta iota. f_equal. unfold monthly_sort. apply map_ext.
  intros r. now rewrite Hat.
Qed.

Lemma percentiles_ok_cons (percentiles : list (string * list Q)) (v : string)
  (sv : list string) :
  percentiles_ok percentiles (v :: sv) = true ->
  dict_get percentiles v = Return (percentiles_of percentiles v) /\
  percentiles_of percentiles v <> [] /\
  Forall (fun q => 0 <= q <= 100) (percentiles_of percentiles v) /\
  percentiles_ok percentiles sv = true.
Proof.
  intros H. unfold percentiles_ok in H.
  pose proof (proj1 (forallb_forall _ _) H) as Hall.
  assert (Hsv : percentiles_ok percentiles sv = true).
  { unfold percentiles_ok. apply forallb_forall. intros x Hx. apply Hall. now right. }
  specialize (Hall v (or_introl eq_refl)). cbv beta in Hall.
  unfold percentiles_of.
  destruct (dict_get percentiles v) as [[|q qs]|e]; try discriminate.
  split; [reflexivity|]. split; [discriminate|]. split; [|exact Hsv].
  apply Forall_forall. intros x Hx.
  pose proof (proj1 (forallb_forall _ _) Hall x Hx) as Hx'. cbv beta in Hx'.
  apply andb_true_iff in Hx'.
  destruct Hx' as [H0 H1]. split; now apply Qle_bool_iff.
Qed.

Lemma sort_all_monthly_labels (percentiles : list (string * list Q))
  (sv : list string) : forall df,
  map label (sort_all_monthly df percentiles sv) = map label df.
Proof.
  induction sv as [|v sv IH]; intros df; simpl; [reflexivity|].
  now rewrite IH, monthly_sort_labels.
Qed.

(** With monthly sorts the loop over the sort variables returns, and
    returns the frame sorted row by row. *)
Lemma sort_all_monthly_eq (percentiles : list (string * list Q))
  (sv : list string) : forall df,
  NoDup (map label df) ->
  percentiles_ok percentiles sv = true ->
  sort_all df percentiles false sv
  = Return (sort_all_monthly df percentiles sv).
Proof.
  induction sv as [|v sv IH]; intros df Hnd Hok; simpl; [reflexivity|].
  destruct (percentiles_ok_cons _ _ _ Hok) as (Hget & Hne & Hrange & Hok').
  rewrite Hget. cbn [Py.bind].
  pose proof (sort_pass_monthly df v (group_name v) true
                (percentiles_of percentiles v) (group_name_differs v)
                Hnd Hne Hrange) as Hpass.
  destruct (compute_breakpoints df v true (percentiles_of percentiles v))
    as [bps|e]; cbn [Py.bind] in *; [|discriminate].
  rewrite Hpass. cbn [Py.bind]. apply IH; [|exact Hok'].
  now rewrite monthly_sort_labels.
Qed.

(** The rows of a month after the monthly sorts are determined by the
    rows of that month before them. *)
Lemma rows_at_sort_all_monthly (percentiles : list (string * list Q))
  (sv : list string) (d : Z) : forall df1 df2,
  rows_at d df1 = rows_at d df2 ->
  rows_at d (sort_all_monthly df1 percentiles sv)
  = rows_at d (sort_all_monthly df2 percentiles sv).
Proof.
  induction sv as [|v sv IH]; intros df1 df2 H; simpl; [exact H|].
  apply IH. now rewrite !rows_at_monthly_sort, H.
Qed.

Lemma filter_implied {A} (P C Q : A -> bool) (l : list A) :
  (forall a, P a = true -> Q a = true) ->
  filter P (filter C (filter Q l)) = filter P (filter C l).
Proof.
  intros H. induction l as [|a l IH]; simpl; [reflexivity|].
  destruct (Q a) eqn:EQ; simpl.
  - destruct (C a); simpl; [|exact IH]. destruct (P a); now rewrite IH.
  - destruct (C a); simpl; [|exact IH].
    destruct (P a) eqn:EP; [|exact IH].
    rewrite (H a EP) in EQ. discriminate.
Qed.

Lemma in_group_date (sg : list string) (d : Z) (b : list Q) (r : Row) :
  in_group sg (d, b) r = true -> Z.eqb (date r) d = true.
Proof.
  unfold in_group. destruct (bucket_of sg r) as [b'|]; [|discriminate].
  intros H. apply key_eqb_spec in H. destruct H as [H _]. simpl in H.
  now apply Z.eqb_eq.
Qed.

(** The value-weighted return of a month only reads the rows of that
    month. *)
Lemma value_weighted_return_rows_at (rows : DataFrame) (sv sg : list string)
  (d : Z) (b : list Q) :
  value_weighted_return rows sv sg d b
  = value_weighted_return (rows_at d rows) sv sg d b.
Proof.
  unfold value_weighted_return, rows_at.
  now rewrite (filter_implied (in_group sg (d, b)) (complete_row sv)
                 (fun r => Z.eqb (date r) d) rows (in_group_date sg d b)).
Qed.

(** In a strictly increasing list of dates, the date before [t] sits just
    before [t]. *)
Lemma sorted_adjacent (l : list Z) (t : Z) : forall i,
  StronglySorted Z.lt l ->
  In (t - 1)%Z l ->
  nth_error l i = Some t ->
  exists i', i = S i' /\ nth_error l i' = Some (t - 1)%Z.
Proof.
  induction l as [|x l IH]; intros i Hs Hin Hnth; [destruct Hin|].
  inversion Hs as [|? ? Hs' Hall]; subst. rewrite Forall_forall in Hall.
  destruct i as [|i]; simpl in Hnth.
  - injection Hnth as ->. destruct Hin as [E|Hin]; [lia|].
    specialize (Hall _ Hin). lia.
  - assert (Ht : In t l) by (eapply nth_error_In; eassumption).
    destruct Hin as [E|Hin].
    + destruct i as [|i].
      * exists 0%nat. split; [reflexivity|]. simpl. now rewrite E.
      * exfalso. destruct l as [|y l]; [discriminate|]. simpl in Hnth.
        inversion Hs' as [|? ? _ Hall']; subst. rewrite Forall_forall in Hall'.
        assert (Hy : (t - 1 < y)%Z) by (apply Hall; now left).
        assert (Hyt : (y < t)%Z)
          by (apply Hall'; eapply nth_error_In; eassumption).
        lia.
    + destruct (IH i Hs' Hin Hnth) as (i' & -> & Hi').
      exists (S i'). split; [reflexivity | exact Hi'].
Qed.

End OneStepLag.

Section OneStepLagClaim.
Import Panel Notebook Topic4.
Local Open Scope list_scope.

(** C3 as stated fails: with annual=True the two frames below agree on
    the rows of months 7 and 8 (they differ in June, month 5, only), and
    the value computed for month 8 and bucket 1 differs. *)
Lemma annual_sort_depends_on_last_june :
  rows_at 7 Examples.june_small_first = rows_at 7 Examples.june_small_second /\
  rows_at 8 Examples.june_small_first = rows_at 8 Examples.june_small_second /\
  exists out1 out2,
    fst (run (factor_cell 0%nat Examples.size_percentiles true)
             (Examples.notebook Examples.june_small_first)) = Return out1 /\
    fst (run (factor_cell 0%nat Examples.size_percentiles true)
             (Examples.notebook Examples.june_small_second)) = Return out2 /\
    nth_error (index out1) 3%nat = Some 8%Z /\
    nth_error (index out2) 3%nat = Some 8%Z /\
    nth_error (columns out1) 0%nat = Some [1] /\
    nth_error (columns out2) 0%nat = Some [1] /\
    entry (values out1) 3%nat 0%nat <> entry (values out2) 3%nat 0%nat.
Proof.
  split; [reflexivity|]. split; [reflexivity|].
  eexists. eexists.
  split; [vm_compute; reflexivity|].
  split; [vm_compute; reflexivity|].
  split; [reflexivity|]. split; [reflexivity|].
  split; [reflexivity|]. split; [reflexivity|].
  vm_compute. discriminate.
Qed.

Lemma index_rows_at (D : DataFrame) (sv sg : list string) (d : Z) :
  In d (index (aggregate_weighted_returns D sv sg)) <->
  exists r, In r (rows_at d (with_next_return D)) /\
            complete_row sv r = true /\ bucket_of sg r <> None.
Proof.
  destruct (aggregate_spec D sv sg) as (Hidx & _). cbv zeta in Hidx.
  rewrite Hidx. split.
  - intros (r & Hr & Hc & Hb & Hd). exists r. split; [|auto].
    apply rows_at_In. auto.
  - intros (r & Hr & Hc & Hb). apply rows_at_In in Hr. destruct Hr as [Hr Hd].
    exists r. auto.
Qed.

(** C3, amended.  With annual=False, on panels without gaps (the next row
    of a stock is dated one month later) and with percentiles within
    [0, 100] for every sort variable, the notebook cell returns, and the
    value it reports for month t and a bucket, month t-1 being in the
    index too, depends only on the rows of months t-1 and t: two such
    panels that agree on these two months report the same value. *)
Theorem monthly_sort_one_step_lag
  (st1 st2 : State) (a : addr) (percentiles : list (string * list Q)) (t : Z) :
  sort_variables st1 = sort_variables st2 ->
  contiguous (heap st1 a) = true ->
  contiguous (heap st2 a) = true ->
  percentiles_ok percentiles (sort_variables st1) = true ->
  rows_at (t - 1) (heap st1 a) = rows_at (t - 1) (heap st2 a) ->
  rows_at t (heap st1 a) = rows_at t (heap st2 a) ->
  exists out1 out2,
    fst (run (factor_cell a percentiles false) st1) = Return out1 /\
    fst (run (factor_cell a percentiles false) st2) = Return out2 /\
    (In (t - 1)%Z (index out1) <-> In (t - 1)%Z (index out2)) /\
    forall i1 i2 j1 j2 b,
      In (t - 1)%Z (index out1) ->
      nth_error (index out1) i1 = Some t ->
      nth_error (index out2) i2 = Some t ->
      nth_error (columns out1) j1 = Some b ->
      nth_error (columns out2) j2 = Some b ->
      entry (values out1) i1 j1 = entry (values out2) i2 j2.
Proof.
  intros Hsv Hc1 Hc2 Hok Hprev Hcur.
  set (sv := sort_variables st1) in *. set (sg := map group_name sv).
  set (D1 := sort_all_monthly (heap st1 a) percentiles sv).
  set (D2 := sort_all_monthly (heap st2 a) percentiles sv).
  assert (Hrun1 : fst (run (factor_cell a percentiles false) st1)
                  = Return (aggregate_weighted_returns D1 sv sg)).
  { rewrite factor_cell_run. unfold factor_pure. fold sv.
    rewrite sort_all_monthly_eq; [reflexivity | | exact Hok].
    apply dates_increasing_NoDup, contiguous_increasing, Hc1. }
  assert (Hrun2 : fst (run (factor_cell a percentiles false) st2)
                  = Return (aggregate_weighted_returns D2 sv sg)).
  { rewrite factor_cell_run. unfold factor_pure. rewrite <- Hsv. fold sv.
    rewrite sort_all_monthly_eq; [reflexivity | | exact Hok].
    apply dates_increasing_NoDup, contiguous_increasing, Hc2. }
  exists (aggregate_weighted_returns D1 sv sg), (aggregate_weighted_returns D2 sv sg).
  split; [exact Hrun1|]. split; [exact Hrun2|].
  assert (HcD1 : contiguous D1 = true).
  { unfold D1. rewrite (contiguous_labels (heap st1 a)); [exact Hc1|].
    apply sort_all_monthly_labels. }
  assert (HcD2 : contiguous D2 = true).
  { unfold D2. rewrite (contiguous_labels (heap st2 a)); [exact Hc2|].
    apply sort_all_monthly_labels. }
  assert (HprevD : rows_at (t - 1) D1 = rows_at (t - 1) D2)
    by (now apply rows_at_sort_all_monthly).
  assert (HcurD : rows_at t D1 = rows_at t D2)
    by (now apply rows_at_sort_all_monthly).
  assert (Hrows : rows_at (t - 1) (with_next_return D1)
                  = rows_at (t - 1) (with_next_return D2)).
  { rewrite !rows_at_with_next_return by assumption. rewrite HprevD.
    apply map_ext_in. intros r Hr. apply rows_at_In in Hr. destruct Hr as [_ Hd].
    unfold attach_next. cbv zeta. rewrite Hd.
    replace (t - 1 + 1)%Z with t by lia. now rewrite HcurD. }
  assert (Hidx : In (t - 1)%Z (index (aggregate_weighted_returns D1 sv sg)) <->
                 In (t - 1)%Z (index (aggregate_weighted_returns D2 sv sg))).
  { rewrite !index_rows_at, Hrows. reflexivity. }
  split; [exact Hidx|].
  intros i1 i2 j1 j2 b Hin1 Hi1 Hi2 Hj1 Hj2.
  pose proof (proj1 Hidx Hin1) as Hin2.
  destruct (aggregate_spec D1 sv sg) as (_ & Hs1 & _ & _ & He1).
  destruct (aggregate_spec D2 sv sg) as (_ & Hs2 & _ & _ & He2).
  cbv zeta in Hs1, Hs2, He1, He2.
  destruct (sorted_adjacent _ t i1 Hs1 Hin1 Hi1) as (k1 & -> & Hk1).
  destruct (sorted_adjacent _ t i2 Hs2 Hin2 Hi2) as (k2 & -> & Hk2).
  rewrite He1, He2.
  - rewrite (nth_error_nth _ _ _ Hk1), (nth_error_nth _ _ _ Hk2).
    rewrite (nth_error_nth _ _ _ Hj1), (nth_error_nth _ _ _ Hj2).
    rewrite (value_weighted_return_rows_at (with_next_return D1)).
    rewrite (value_weighted_return_rows_at (with_next_return D2)).
    now rewrite Hrows.
  - apply nth_error_Some. congruence.
  - apply nth_error_Some. congruence.
  - apply nth_error_Some. congruence.
  - apply nth_error_Some. congruence.
Qed.

End OneStepLagClaim.

(** ** The theorems at sample inputs *)

Section Witnesses.
Import Panel Notebook Topic4.
Local Open Scope list_scope.




Lemma monthly_sort_one_step_lag_witness :
  exists out1 out2,
    fst (run (factor_cell 0%nat Examples.size_percentiles false)
             (Examples.notebook Examples.june_small_first)) = Return out1 /\
    fst (run (factor_cell 0%nat Examples.size_percentiles false)
             (Examples.notebook Examples.june_small_second)) = Return out2 /\
    (In 7%Z (index out1) <-> In 7%Z (index out2)).
Proof.
  destruct (monthly_sort_one_step_lag
              (Examples.notebook Examples.june_small_first)
              (Examples.notebook Examples.june_small_second)
              0%nat Examples.size_percentiles 8)
    as (out1 & out2 & H1 & H2 & Hidx & _).
  - reflexivity.
  - vm_compute. reflexivity.
  - vm_compute. reflexivity.
  - vm_compute. reflexivity.
  - vm_compute. reflexivity.
  - vm_compute. reflexivity.
  - exists out1, out2. split; [exact H1|]. split; [exact H2|]. exact Hidx.
Defined.

End Witnesses.

(** * Further properties of the notebooks' code *)

(** ** Finite sums of rationals *)

Section FiniteSums.

Lemma sumq_nil {A} (f : A -> Q) : sumq f [] = 0.
Proof. reflexivity. Qed.

Lemma sumq_cons {A} (f : A -> Q) (a : A) (l : list A) :
  sumq f (a :: l) = f a + sumq f l.
Proof. reflexivity. Qed.

Lemma sumq_ext {A} (f g : A -> Q) (l : list A) :
  (forall x, In x l -> f x == g x) -> sumq f l == sumq g l.
Proof.
  induction l as [|a l IH]; intros H; [reflexivity|].
  rewrite !sumq_cons. rewrite (H a (or_introl eq_refl)).
  rewrite IH; [reflexivity|]. intros x Hx. apply H. now right.
Qed.

Lemma sumq_add {A} (f g : A -> Q) (l : list A) :
  sumq (fun x => f x + g x) l == sumq f l + sumq g l.
Proof.
  induction l as [|a l IH]; [reflexivity|].
  rewrite !sumq_cons, IH. ring.
Qed.

Lemma sumq_scale {A} (c : Q) (f : A -> Q) (l : list A) :
  sumq (fun x => c * f x) l == c * sumq f l.
Proof.
  induction l as [|a l IH]; [unfold sumq; simpl; ring|].
  rewrite !sumq_cons, IH. ring.
Qed.

Lemma sumq_scale_r {A} (c : Q) (f : A -> Q) (l : list A) :
  sumq (fun x => f x * c) l == sumq f l * c.
Proof.
  induction l as [|a l IH]; [unfold sumq; simpl; ring|].
  rewrite !sumq_cons, IH. ring.
Qed.

Lemma sumq_const {A} (c : Q) (l : list A) :
  sumq (fun _ => c) l == Qlen (map (fun _ => c) l) * c.
Proof.
  induction l as [|a l IH]; [unfold sumq, Qlen; simpl; ring|].
  rewrite sumq_cons, IH. simpl map. rewrite Qlen_cons. ring.
Qed.

Lemma sumq_zero {A} (l : list A) : sumq (fun _ => 0) l == 0.
Proof.
  induction l as [|a l IH]; [reflexivity|]. rewrite sumq_cons, IH. ring.
Qed.

Lemma sumq_swap {A B} (f : A -> B -> Q) (la : list A) (lb : list B) :
  sumq (fun a => sumq (fun b => f a b) lb) la
  == sumq (fun b => sumq (fun a => f a b) la) lb.
Proof.
  induction la as [|a la IH].
  - rewrite sumq_nil. symmetry. apply (sumq_zero lb).
  - rewrite sumq_cons, IH.
    rewrite <- sumq_add. apply sumq_ext. intros b _. reflexivity.
Qed.

Lemma sumq_nonneg {A} (f : A -> Q) (l : list A) :
  (forall x, In x l -> 0 <= f x) -> 0 <= sumq f l.
Proof.
  induction l as [|a l IH]; intros H; [apply Qle_refl|].
  rewrite sumq_cons.
  apply (Qplus_le_compat 0 (f a) 0 (sumq f l)).
  - apply H. now left.
  - apply IH. intros x Hx. apply H. now right.
Qed.

Lemma sumq_map {A B} (g : A -> B) (f : B -> Q) (l : list A) :
  sumq f (map g l) = sumq (fun x => f (g x)) l.
Proof. unfold sumq. now rewrite map_map. Qed.

Lemma Qsum_sumq (l : list Q) : Qsum l = sumq (fun x => x) l.
Proof. unfold sumq. now rewrite map_id. Qed.

Lemma sumq_sub {A} (f g : A -> Q) (l : list A) :
  sumq (fun x => f x - g x) l == sumq f l - sumq g l.
Proof.
  induction l as [|a l IH]; [unfold sumq; simpl; ring|].
  rewrite !sumq_cons, IH. ring.
Qed.

Lemma sumq_mul {A B} (f : A -> Q) (g : B -> Q) (la : list A) (lb : list B) :
  sumq f la * sumq g lb == sumq (fun a => sumq (fun b => f a * g b) lb) la.
Proof.
  induction la as [|a la IH]; [unfold sumq; simpl; ring|].
  rewrite !sumq_cons, <- IH, sumq_scale. ring.
Qed.

Lemma Qsq_nonneg (x : Q) : 0 <= x * x.
Proof.
  unfold Qle, Qmult. simpl. rewrite Z.mul_1_r. apply Z.square_nonneg.
Qed.

End FiniteSums.

(** ** The mean and the variance of a weighted sum of columns *)

Section WeightedSums.

Variable X : Type.
Variable x : X -> nat -> Q.
Variable w : X -> Q.
Variable CW : list X.
Variable s : list nat.
Variable TQ : Q.

Let P (t : nat) : Q := sumq (fun a => x a t * w a) CW.
Let mu (a : X) : Q := sumq (x a) s / TQ.
Let m : Q := sumq P s / TQ.
Let C (a b : X) : Q := sumq (fun t => (x a t - mu a) * (x b t - mu b)) s.

Lemma weighted_mean : m == sumq (fun a => mu a * w a) CW.
Proof.
  unfold m, P, mu, Qdiv.
  rewrite (sumq_swap (fun t a => x a t * w a) s CW).
  rewrite <- sumq_scale_r. apply sumq_ext. intros a _.
  rewrite sumq_scale_r. ring.
Qed.

Lemma weighted_deviation (t : nat) :
  P t - m == sumq (fun a => (x a t - mu a) * w a) CW.
Proof.
  rewrite weighted_mean. unfold P. rewrite <- sumq_sub.
  apply sumq_ext. intros a _. ring.
Qed.

Lemma weighted_variation :
  sumq (fun t => (P t - m) * (P t - m)) s
  == sumq (fun a => w a * sumq (fun b => C a b * w b) CW) CW.
Proof.
  transitivity
    (sumq (fun t => sumq (fun a => sumq (fun b =>
       ((x a t - mu a) * w a) * ((x b t - mu b) * w b)) CW) CW) s).
  { apply sumq_ext. intros t _. rewrite weighted_deviation.
    apply (sumq_mul (fun a => (x a t - mu a) * w a)
                    (fun b => (x b t - mu b) * w b) CW CW). }
  rewrite sumq_swap. apply sumq_ext. intros a _.
  rewrite sumq_swap. rewrite <- sumq_scale. apply sumq_ext. intros b _.
  unfold C. rewrite <- sumq_scale_r, <- sumq_scale.
  apply sumq_ext. intros t _. ring.
Qed.

End WeightedSums.

(** ** Topic 5: the two objective functions *)

Section PortfolioAlgebra.
Import Topic5 Optimization.

Lemma combine_map2 {A B C D} (f : A -> C) (g : B -> D) (a : list A) (b : list B) :
  combine (map f a) (map g b) = map (fun p => (f (fst p), g (snd p))) (combine a b).
Proof.
  revert b. induction a as [|x a IH]; intros [|y b]; simpl; try reflexivity.
  now rewrite IH.
Qed.

Lemma map_nth_seq {A} (l : list A) (d : A) :
  map (fun t => nth t l d) (seq 0 (List.length l)) = l.
Proof.
  induction l as [|x l IH]; [reflexivity|].
  simpl. f_equal. rewrite <- seq_shift, map_map. exact IH.
Qed.

Lemma fold_fadd_Some {A} (f : A -> Q) (l : list A) :
  fold_right fadd (Some 0) (map (fun x => Some (f x)) l) = Some (sumq f l).
Proof.
  induction l as [|a l IH]; [reflexivity|].
  simpl. rewrite IH. reflexivity.
Qed.

Lemma dropna_map_Some_id (l : list Q) : dropna (map Some l) = l.
Proof.
  induction l as [|x l IH]; [reflexivity|]. simpl. now rewrite IH.
Qed.

(** A column of a complete frame, row by row. *)
Lemma complete_column (df : Frame) (c : string * list cell) :
  complete_frame df = true -> rectangular df = true -> In c df ->
  snd c = map (fun t => Some (value_at c t)) (seq 0 (nrows df)).
Proof.
  intros Hc Hr Hin.
  unfold complete_frame in Hc. rewrite forallb_forall in Hc.
  unfold rectangular in Hr. rewrite forallb_forall in Hr.
  specialize (Hc c Hin). specialize (Hr c Hin).
  apply Nat.eqb_eq in Hr. rewrite <- Hr.
  rewrite forallb_forall in Hc.
  rewrite <- (map_nth_seq (snd c) NaN) at 1.
  apply map_ext_in. intros t Ht. apply in_seq in Ht.
  unfold value_at.
  assert (Hn : In (nth t (snd c) NaN) (snd c)) by (apply nth_In; lia).
  specialize (Hc _ Hn). destruct (nth t (snd c) NaN); [reflexivity|discriminate].
Qed.

Lemma complete_column_nth (df : Frame) (c : string * list cell) (t : nat) :
  complete_frame df = true -> rectangular df = true -> In c df ->
  (t < nrows df)%nat ->
  nth t (snd c) NaN = Some (value_at c t).
Proof.
  intros Hc Hr Hin Ht.
  unfold complete_frame in Hc. rewrite forallb_forall in Hc.
  unfold rectangular in Hr. rewrite forallb_forall in Hr.
  specialize (Hc c Hin). specialize (Hr c Hin).
  apply Nat.eqb_eq in Hr. rewrite forallb_forall in Hc.
  assert (Hn : In (nth t (snd c) NaN) (snd c)) by (apply nth_In; lia).
  specialize (Hc _ Hn). unfold value_at.
  destruct (nth t (snd c) NaN); [reflexivity|discriminate].
Qed.

Lemma nrows_df_mul (df : Frame) (w : list Q) :
  List.length w = List.length df ->
  nrows (map (fun cw : (string * list cell) * Q =>
                (fst (fst cw),
                 map (fun v => fmul v (Some (snd cw))) (snd (fst cw))))
             (combine df w))
  = nrows df.
Proof.
  intros Hlen. destruct df as [|c df], w as [|x w]; try discriminate; simpl.
  - reflexivity.
  - apply length_map.
Qed.

(** The portfolio return of a complete frame, row by row. *)
Lemma portfolio_return_complete (df : Frame) (w : list Q) :
  complete_frame df = true -> rectangular df = true ->
  List.length w = List.length df ->
  portfolio_return df w
  = Return (map (fun t => Some (sumq (fun cw => value_at (fst cw) t * snd cw)
                                     (combine df w)))
                (seq 0 (nrows df))).
Proof.
  intros Hc Hr Hlen. unfold portfolio_return, df_mul.
  rewrite Hlen, Nat.eqb_refl. cbn [bind]. f_equal.
  unfold sum_axis1. rewrite nrows_df_mul by exact Hlen.
  apply map_ext_in. intros t Ht. apply in_seq in Ht. f_equal.
  rewrite map_map. cbn [snd fst].
  unfold sumq. rewrite <- (dropna_map_Some_id (map _ (combine df w))).
  f_equal. rewrite map_map. f_equal. apply map_ext_in.
  intros [c x] Hin. cbn [fst snd].
  change NaN with ((fun v => fmul v (Some x)) NaN) at 1.
  rewrite map_nth.
  rewrite (complete_column_nth df c t Hc Hr (in_combine_l _ _ _ _ Hin)) by lia.
  reflexivity.
Qed.

Lemma mean_of_values (f : nat -> Q) (T : nat) :
  (1 <= T)%nat ->
  mean (map (fun t => Some (f t)) (seq 0 T))
  = Some (sumq f (seq 0 T) / inject_Z (Z.of_nat T)).
Proof.
  intros HT. unfold mean.
  rewrite <- (map_map f Some), dropna_map_Some_id.
  destruct T as [|T]; [lia|].
  change (map f (seq 0 (S T))) with (f 0%nat :: map f (seq 1 T)).
  unfold sumq, Qlen. change (f 0%nat :: map f (seq 1 T)) with (map f (seq 0 (S T))).
  now rewrite length_map, length_seq.
Qed.

Lemma var_of_values (f : nat -> Q) (T : nat) :
  (2 <= T)%nat ->
  var (map (fun t => Some (f t)) (seq 0 T))
  = Some (sumq (fun t => (f t - sumq f (seq 0 T) / inject_Z (Z.of_nat T))
                         * (f t - sumq f (seq 0 T) / inject_Z (Z.of_nat T)))
               (seq 0 T)
          / (inject_Z (Z.of_nat T) - 1)).
Proof.
  intros HT. unfold var.
  rewrite <- (map_map f Some), dropna_map_Some_id.
  remember (map f (seq 0 T)) as l eqn:E.
  assert (Hl : List.length l = T) by (subst l; now rewrite length_map, length_seq).
  destruct l as [|a [|b rest]]; simpl in Hl; try lia.
  rewrite E. cbv zeta.
  unfold sumq, Qlen. rewrite map_map, length_map, length_seq. reflexivity.
Qed.

Lemma complete_pairs_values (f g : nat -> Q) (s : list nat) :
  complete_pairs (map (fun t => Some (f t)) s) (map (fun t => Some (g t)) s)
  = map (fun t => (f t, g t)) s.
Proof.
  induction s as [|t s IH]; [reflexivity|]. simpl. now rewrite IH.
Qed.

Lemma cov_pair_of_values (f g : nat -> Q) (T : nat) :
  (2 <= T)%nat ->
  cov_pair (map (fun t => Some (f t)) (seq 0 T))
           (map (fun t => Some (g t)) (seq 0 T))
  = Some (sumq (fun t => (f t - sumq f (seq 0 T) / inject_Z (Z.of_nat T))
                         * (g t - sumq g (seq 0 T) / inject_Z (Z.of_nat T)))
               (seq 0 T)
          / (inject_Z (Z.of_nat T) - 1)).
Proof.
  intros HT. unfold cov_pair. rewrite complete_pairs_values.
  remember (map (fun t => (f t, g t)) (seq 0 T)) as l eqn:E.
  assert (Hl : List.length l = T) by (subst l; now rewrite length_map, length_seq).
  destruct l as [|a [|b rest]]; simpl in Hl; try lia.
  rewrite E. cbv zeta.
  unfold sumq, Qlen. rewrite !map_map, length_map, length_seq. reflexivity.
Qed.

Lemma mapM_Return {A B} (f : A -> result B) (g : A -> B) (l : list A) :
  (forall a, In a l -> f a = Return (g a)) -> mapM f l = Return (map g l).
Proof.
  induction l as [|a l IH]; intros H; [reflexivity|].
  simpl. rewrite (H a (or_introl eq_refl)). cbn [bind].
  rewrite IH; [reflexivity|]. intros b Hb. apply H. now right.
Qed.

Lemma mapM_map {A B C} (f : B -> result C) (g : A -> B) (l : list A) :
  mapM f (map g l) = mapM (fun a => f (g a)) l.
Proof.
  induction l as [|a l IH]; [reflexivity|]. simpl. now rewrite IH.
Qed.

Lemma combine_swap {A B} (a : list A) (b : list B) :
  combine a b = map (fun p => (snd p, fst p)) (combine b a).
Proof.
  revert b. induction a as [|x a IH]; intros [|y b]; simpl; try reflexivity.
  now rewrite IH.
Qed.

(** [np.dot] of the asset means with the weights. *)
Lemma np_dot_means (df : Frame) (w : list Q) :
  complete_frame df = true -> rectangular df = true ->
  List.length w = List.length df -> (1 <= nrows df)%nat ->
  np_dot (map snd (df_mean df)) (map Some w)
  = Return (Some (sumq (fun cw => sumq (value_at (fst cw)) (seq 0 (nrows df))
                                  / inject_Z (Z.of_nat (nrows df)) * snd cw)
                       (combine df w))).
Proof.
  intros Hc Hr Hlen HT. unfold np_dot, df_mean.
  rewrite !length_map, Hlen, Nat.eqb_refl. f_equal.
  rewrite map_map. cbn [snd]. rewrite combine_map2.
  rewrite map_map. cbn [fst snd].
  rewrite <- fold_fadd_Some. f_equal. apply map_ext_in.
  intros [c x] Hin. cbn [fst snd].
  rewrite (complete_column df c Hc Hr (in_combine_l _ _ _ _ Hin)) at 1.
  rewrite mean_of_values by exact HT. reflexivity.
Qed.

(** An entry of [df.cov()] on a complete frame. *)
Lemma cov_pair_complete (df : Frame) (a b : string * list cell) :
  complete_frame df = true -> rectangular df = true ->
  (2 <= nrows df)%nat -> In a df -> In b df ->
  cov_pair (snd a) (snd b) = Some (cov_at a b) /\
  cov_at a b
  = sumq (fun t =>
            (value_at a t - sumq (value_at a) (seq 0 (nrows df))
                            / inject_Z (Z.of_nat (nrows df)))
            * (value_at b t - sumq (value_at b) (seq 0 (nrows df))
                              / inject_Z (Z.of_nat (nrows df))))
         (seq 0 (nrows df))
    / (inject_Z (Z.of_nat (nrows df)) - 1).
Proof.
  intros Hc Hr HT Ha Hb.
  pose proof (cov_pair_of_values (value_at a) (value_at b) (nrows df) HT) as E.
  rewrite <- (complete_column df a Hc Hr Ha) in E.
  rewrite <- (complete_column df b Hc Hr Hb) in E.
  unfold cov_at. rewrite E. split; reflexivity.
Qed.

(** The quadratic form of [df.cov()] in the weights. *)
Lemma portfolio_variance_complete (df : Frame) (w : list Q) :
  complete_frame df = true -> rectangular df = true ->
  List.length w = List.length df -> (2 <= nrows df)%nat ->
  portfolio_variance (values (df_cov df)) w
  = Return (Some (sumq (fun aw => snd aw
                          * sumq (fun bw => cov_at (fst aw) (fst bw) * snd bw)
                                 (combine df w))
                       (combine df w))).
Proof.
  intros Hc Hr Hlen HT. unfold portfolio_variance, mat_vec, df_cov.
  cbn [values].
  assert (Hrows : forall a, In a df ->
            np_dot (map (fun b : string * list cell => cov_pair (snd a) (snd b)) df)
                   (map Some w)
            = Return (Some (sumq (fun bw => cov_at a (fst bw) * snd bw)
                                 (combine df w)))).
  { intros a Ha. unfold np_dot. rewrite !length_map, Hlen, Nat.eqb_refl.
    f_equal. rewrite combine_map2, map_map. cbn [fst snd].
    rewrite <- fold_fadd_Some. f_equal. apply map_ext_in.
    intros [b x] Hin. cbn [fst snd].
    destruct (cov_pair_complete df a b Hc Hr HT Ha (in_combine_l _ _ _ _ Hin))
      as [E _].
    rewrite E. reflexivity. }
  rewrite (mapM_map _ _ df). cbv beta.
  match goal with
  | |- context [mapM ?f ?l] =>
      rewrite (mapM_Return f
                 (fun a => Some (sumq (fun bw => cov_at a (fst bw) * snd bw)
                                      (combine df w))) l Hrows)
  end.
  cbn [bind]. unfold np_dot. rewrite !length_map, Hlen, Nat.eqb_refl.
  f_equal. rewrite combine_map2, map_map. cbn [fst snd fmul lift2].
  rewrite fold_fadd_Some. f_equal.
  rewrite (combine_swap w df), sumq_map. reflexivity.
Qed.

Lemma portfolio_moments (df : Frame) (weights : list Q) :
  complete_frame df = true -> rectangular df = true ->
  List.length weights = List.length df -> (2 <= nrows df)%nat ->
  exists r mu v,
    portfolio_return df weights = Return r /\
    np_dot (map snd (df_mean df)) (map Some weights) = Return (Some mu) /\
    portfolio_variance (values (df_cov df)) weights = Return (Some v) /\
    cell_eq (mean r) (Some mu) /\
    cell_eq (var r) (Some v) /\
    0 <= v.
Proof.
  intros Hc Hr Hlen HT.
  set (T := nrows df) in *. set (TQ := inject_Z (Z.of_nat T)).
  set (CW := combine df weights).
  eexists. eexists. eexists.
  split; [apply (portfolio_return_complete df weights Hc Hr Hlen)|].
  split; [apply (np_dot_means df weights Hc Hr Hlen); fold T; lia|].
  split; [apply (portfolio_variance_complete df weights Hc Hr Hlen HT)|].
  fold T CW TQ.
  assert (Hvar :
    sumq (fun t =>
            (sumq (fun cw => value_at (fst cw) t * snd cw) CW
             - sumq (fun t0 => sumq (fun cw => value_at (fst cw) t0 * snd cw) CW)
                    (seq 0 T) / TQ)
            * (sumq (fun cw => value_at (fst cw) t * snd cw) CW
               - sumq (fun t0 => sumq (fun cw => value_at (fst cw) t0 * snd cw) CW)
                      (seq 0 T) / TQ))
         (seq 0 T) / (TQ - 1)
    == sumq (fun aw => snd aw
               * sumq (fun bw => cov_at (fst aw) (fst bw) * snd bw) CW) CW).
  { rewrite (weighted_variation _ (fun cw => value_at (fst cw)) snd CW
                                (seq 0 T) TQ).
    unfold Qdiv. rewrite <- sumq_scale_r. apply sumq_ext. intros [a wa] Ha.
    rewrite <- Qmult_assoc. apply Qmult_comp; [reflexivity|].
    rewrite <- sumq_scale_r. apply sumq_ext. intros [b wb] Hb.
    destruct (cov_pair_complete df a b Hc Hr HT
                (in_combine_l _ _ _ _ Ha) (in_combine_l _ _ _ _ Hb)) as [_ E].
    cbn [fst snd]. rewrite E. fold T TQ. unfold Qdiv. ring. }
  split; [|split].
  - rewrite mean_of_values by lia. cbn [cell_eq]. fold TQ.
    apply (weighted_mean _ (fun cw => value_at (fst cw)) snd CW (seq 0 T) TQ).
  - rewrite var_of_values by exact HT. cbn [cell_eq]. fold TQ. exact Hvar.
  - rewrite <- Hvar. unfold Qdiv. apply Qmult_le_0_compat.
    + apply sumq_nonneg. intros t _. apply Qsq_nonneg.
    + apply Qinv_le_0_compat. unfold TQ.
      rewrite <- (Qplus_opp_r 1). apply Qplus_le_compat; [|apply Qle_refl].
      change 1 with (inject_Z 1). rewrite <- Zle_Qle. lia.
Qed.

(** The mean of the portfolio return is the weighted sum of the asset
    means, and its sample variance is the quadratic form of the sample
    covariance matrix in the weights: on a frame without missing values
    and with at least two rows, [neg_sharpe_ratio] and [neg_sharpe_ratio2]
    are fed the same two moments. *)
Theorem portfolio_mean_and_variance (df : Frame) (weights : list Q) :
  complete_frame df = true -> rectangular df = true ->
  List.length weights = List.length df -> (2 <= nrows df)%nat ->
  exists r mu v,
    portfolio_return df weights = Return r /\
    np_dot (map snd (df_mean df)) (map Some weights) = Return (Some mu) /\
    portfolio_variance (values (df_cov df)) weights = Return (Some v) /\
    cell_eq (mean r) (Some mu) /\
    cell_eq (var r) (Some v) /\
    0 <= v.
Proof. exact (portfolio_moments df weights). Qed.

Lemma portfolio_mean_and_variance_witness :
  exists r mu v,
    portfolio_return Samples.three_months [1#2; 1#2] = Return r /\
    np_dot (map snd (df_mean Samples.three_months)) (map Some [1#2; 1#2])
    = Return (Some mu) /\
    portfolio_variance (values (df_cov Samples.three_months)) [1#2; 1#2]
    = Return (Some v) /\
    cell_eq (mean r) (Some mu) /\
    cell_eq (var r) (Some v) /\
    0 <= v.
Proof.
  apply (portfolio_mean_and_variance Samples.three_months [1#2; 1#2]).
  - reflexivity.
  - reflexivity.
  - reflexivity.
  - simpl. lia.
Defined.

(** On a frame without missing values and with at least two rows, the
    objective computed from the returns is sqrt(12) times the objective
    computed from the means and the covariance matrix: both are minimized
    by the same weights. *)
Theorem neg_sharpe_ratios_agree (np_sqrt : Q -> Q) (df : Frame)
  (weights : list Q) (rf : cell) :
  (forall x y, x == y -> np_sqrt x == np_sqrt y) ->
  complete_frame df = true -> rectangular df = true ->
  List.length weights = List.length df -> (2 <= nrows df)%nat ->
  exists a b,
    neg_sharpe_ratio np_sqrt weights df rf = Return a /\
    neg_sharpe_ratio2 np_sqrt weights (df_mean df) (df_cov df) rf = Return b /\
    cell_eq a (fmul (Some (np_sqrt 12)) b).
Proof.
  intros Hsqrt Hc Hr Hlen HT.
  destruct (portfolio_moments df weights Hc Hr Hlen HT)
    as (r & mu & v & Hret & Hmu & Hv & Hmean & Hvar & Hpos).
  unfold portfolio_return in Hret. unfold neg_sharpe_ratio, neg_sharpe_ratio2.
  rewrite Hmu, Hv. cbn [bind].
  destruct (df_mul df weights) as [m|e]; [|discriminate].
  cbn [bind] in *. injection Hret as Hret. rewrite Hret.
  eexists. eexists. split; [reflexivity|]. split; [reflexivity|].
  unfold std, fsqrt.
  assert (Hle : Qle_bool 0 v = true) by (apply Qle_bool_iff; exact Hpos).
  rewrite Hle.
  destruct (mean r) as [m'|]; [|contradiction].
  destruct (var r) as [v'|]; [|contradiction].
  cbn [cell_eq] in Hmean, Hvar. cbn [option_map].
  destruct rf as [f|]; [|exact I].
  cbn [fsub fmul lift2 fdiv].
  pose proof (Hsqrt _ _ Hvar) as Hs.
  destruct (Qeq_bool (np_sqrt v') 0) eqn:E1, (Qeq_bool (np_sqrt v) 0) eqn:E2;
    cbn [fneg option_map fmul lift2 cell_eq].
  - exact I.
  - apply Qeq_bool_iff in E1. apply Qeq_bool_neq in E2.
    rewrite Hs in E1. contradiction.
  - apply Qeq_bool_iff in E2. apply Qeq_bool_neq in E1.
    rewrite Hs in E1. contradiction.
  - apply Qeq_bool_neq in E2. rewrite Hs, Hmean. field. exact E2.
Qed.

Lemma neg_sharpe_ratios_agree_witness :
  exists a b,
    neg_sharpe_ratio (fun x => x) [1#2; 1#2] Samples.three_months (Some (1#1000))
    = Return a /\
    neg_sharpe_ratio2 (fun x => x) [1#2; 1#2] (df_mean Samples.three_months)
                      (df_cov Samples.three_months) (Some (1#1000))
    = Return b /\
    cell_eq a (fmul (Some 12) b).
Proof.
  apply (neg_sharpe_ratios_agree (fun x => x) Samples.three_months [1#2; 1#2]
                                 (Some (1#1000))).
  - intros x y H. exact H.
  - reflexivity.
  - reflexivity.
  - reflexivity.
  - simpl. lia.
Defined.

(** *** Shrinkage keeps the variance term non-negative *)

Lemma portfolio_variance_entries {X} (L : list X) (c : X -> X -> Q) (w : list Q) :
  List.length w = List.length L ->
  portfolio_variance (map (fun a => map (fun b => Some (c a b)) L) L) w
  = Return (Some (sumq (fun aw => snd aw
                          * sumq (fun bw => c (fst aw) (fst bw) * snd bw)
                                 (combine L w))
                       (combine L w))).
Proof.
  intros Hlen. unfold portfolio_variance, mat_vec.
  rewrite mapM_map. cbv beta.
  assert (Hrows : forall a, In a L ->
            np_dot (map (fun b => Some (c a b)) L) (map Some w)
            = Return (Some (sumq (fun bw => c a (fst bw) * snd bw) (combine L w)))).
  { intros a Ha. unfold np_dot. rewrite !length_map, Hlen, Nat.eqb_refl.
    f_equal. rewrite combine_map2, map_map. cbn [fst snd fmul lift2].
    apply fold_fadd_Some. }
  match goal with
  | |- context [mapM ?f ?l] =>
      rewrite (mapM_Return f
                 (fun a => Some (sumq (fun bw => c a (fst bw) * snd bw)
                                      (combine L w))) l Hrows)
  end.
  cbn [bind]. unfold np_dot. rewrite !length_map, Hlen, Nat.eqb_refl.
  f_equal. rewrite combine_map2, map_map. cbn [fst snd fmul lift2].
  rewrite fold_fadd_Some. f_equal.
  rewrite (combine_swap w L), sumq_map. reflexivity.
Qed.

(** The shrunk matrix, entry by entry. *)
Lemma shrunk_values (df : Frame) (k : Q) :
  complete_frame df = true -> rectangular df = true -> (2 <= nrows df)%nat ->
  imul_where (values (df_cov df))
             (invert (np_eye (List.length (values (df_cov df))))) (Some k)
  = map (fun p : (string * list cell) * nat =>
           map (fun q : (string * list cell) * nat =>
                  Some (if negb (Nat.eqb (snd p) (snd q))
                        then cov_at (fst p) (fst q) * k
                        else cov_at (fst p) (fst q)))
               (combine df (seq 0 (List.length df))))
        (combine df (seq 0 (List.length df))).
Proof.
  intros Hc Hr HT. rewrite df_cov_rows.
  unfold imul_where, invert, np_eye, df_cov. cbn [values].
  rewrite (map_map _ (map negb)).
  rewrite combine_map2, map_map. cbn [fst snd].
  apply map_ext_in. intros [a i] Ha. cbn [fst snd].
  rewrite map_map, combine_map2, map_map. cbn [fst snd].
  apply map_ext_in. intros [b j] Hb. cbn [fst snd].
  destruct (cov_pair_complete df a b Hc Hr HT
              (in_combine_l _ _ _ _ Ha) (in_combine_l _ _ _ _ Hb)) as [E _].
  rewrite E. destruct (negb (Nat.eqb i j)); reflexivity.
Qed.

Lemma combine_index_drop {A B} (l : list A) (sq : list nat) (w : list B) :
  List.length sq = List.length l ->
  map (fun pw : (A * nat) * B => (fst (fst pw), snd pw)) (combine (combine l sq) w)
  = combine l w.
Proof.
  revert sq w. induction l as [|a l IH]; intros [|i sq] [|x w] H;
    simpl in *; try discriminate; try reflexivity.
  f_equal. apply IH. lia.
Qed.

Lemma combine_index_keep {A B} (l : list A) (sq : list nat) (w : list B) :
  List.length sq = List.length l -> List.length w = List.length l ->
  map (fun pw : (A * nat) * B => snd (fst pw)) (combine (combine l sq) w) = sq.
Proof.
  revert sq w. induction l as [|a l IH]; intros [|i sq] [|x w] H1 H2;
    simpl in *; try discriminate; try reflexivity.
  f_equal. apply IH; lia.
Qed.

(** With distinct indices, the terms of one index pick one term. *)
Lemma sumq_pick {A} (g : A -> nat) (f : A -> Q) (L : list A) (p : A) :
  NoDup (map g L) -> In p L ->
  sumq (fun q => if Nat.eqb (g p) (g q) then f q else 0) L == f p.
Proof.
  induction L as [|a L IH]; intros Hnd Hin; [contradiction|].
  simpl in Hnd. inversion Hnd as [|? ? Hnotin Hnd']; subst.
  rewrite sumq_cons. destruct Hin as [->|Hin].
  - rewrite Nat.eqb_refl.
    assert (E : sumq (fun q => if Nat.eqb (g p) (g q) then f q else 0) L == 0).
    { rewrite <- (sumq_zero L). apply sumq_ext. intros q Hq.
      destruct (Nat.eqb_spec (g p) (g q)) as [Heq|_]; [|reflexivity].
      exfalso. apply Hnotin. rewrite Heq. now apply in_map. }
    rewrite E. ring.
  - destruct (Nat.eqb_spec (g p) (g a)) as [Heq|_].
    + exfalso. apply Hnotin. rewrite <- Heq. now apply in_map.
    + rewrite (IH Hnd' Hin). ring.
Qed.

Lemma cov_at_diag_nonneg (df : Frame) (a : string * list cell) :
  complete_frame df = true -> rectangular df = true -> (2 <= nrows df)%nat ->
  In a df -> 0 <= cov_at a a.
Proof.
  intros Hc Hr HT Ha.
  destruct (cov_pair_complete df a a Hc Hr HT Ha Ha) as [_ E]. rewrite E.
  unfold Qdiv. apply Qmult_le_0_compat.
  - apply sumq_nonneg. intros t _. apply Qsq_nonneg.
  - apply Qinv_le_0_compat.
    rewrite <- (Qplus_opp_r 1). apply Qplus_le_compat; [|apply Qle_refl].
    change 1 with (inject_Z 1). rewrite <- Zle_Qle. lia.
Qed.

Lemma shrunk_quadratic_form (df : Frame) (w : list Q) (k : Q) :
  List.length w = List.length df ->
  sumq (fun pw : ((string * list cell) * nat) * Q =>
          snd pw
          * sumq (fun qw : ((string * list cell) * nat) * Q =>
                    (if negb (Nat.eqb (snd (fst pw)) (snd (fst qw)))
                     then cov_at (fst (fst pw)) (fst (fst qw)) * k
                     else cov_at (fst (fst pw)) (fst (fst qw))) * snd qw)
                 (combine (combine df (seq 0 (List.length df))) w))
       (combine (combine df (seq 0 (List.length df))) w)
  == k * sumq (fun aw => snd aw
                 * sumq (fun bw => cov_at (fst aw) (fst bw) * snd bw)
                        (combine df w))
              (combine df w)
     + (1 - k) * sumq (fun aw => snd aw * snd aw * cov_at (fst aw) (fst aw))
                      (combine df w).
Proof.
  intros Hlen.
  set (LL := combine (combine df (seq 0 (List.length df))) w).
  assert (Hdrop : map (fun pw : ((string * list cell) * nat) * Q =>
                         (fst (fst pw), snd pw)) LL = combine df w).
  { apply combine_index_drop. apply length_seq. }
  assert (Hnd : NoDup (map (fun pw : ((string * list cell) * nat) * Q =>
                              snd (fst pw)) LL)).
  { unfold LL. rewrite combine_index_keep.
    - apply seq_NoDup.
    - apply length_seq.
    - exact Hlen. }
  assert (Hre : forall G : (string * list cell) * Q -> Q,
             sumq G (combine df w)
             = sumq (fun pw : ((string * list cell) * nat) * Q =>
                       G (fst (fst pw), snd pw)) LL).
  { intros G. rewrite <- Hdrop, sumq_map. reflexivity. }
  rewrite (Hre (fun aw => snd aw
                  * sumq (fun bw => cov_at (fst aw) (fst bw) * snd bw)
                         (combine df w))).
  rewrite (Hre (fun aw => snd aw * snd aw * cov_at (fst aw) (fst aw))).
  cbn [fst snd].
  rewrite <- !sumq_scale, <- sumq_add.
  apply sumq_ext. intros pw Hp.
  transitivity
    (snd pw * (k * sumq (fun qw : ((string * list cell) * nat) * Q =>
                           cov_at (fst (fst pw)) (fst (fst qw)) * snd qw) LL
               + (1 - k) * sumq (fun qw : ((string * list cell) * nat) * Q =>
                    if Nat.eqb (snd (fst pw)) (snd (fst qw))
                    then cov_at (fst (fst pw)) (fst (fst qw)) * snd qw
                    else 0) LL)).
  { apply Qmult_comp; [reflexivity|].
    rewrite <- !sumq_scale, <- sumq_add. apply sumq_ext. intros qw _.
    destruct (Nat.eqb (snd (fst pw)) (snd (fst qw))); cbn [negb]; ring. }
  rewrite (sumq_pick (fun qw : ((string * list cell) * nat) * Q => snd (fst qw))
             (fun qw => cov_at (fst (fst pw)) (fst (fst qw)) * snd qw)
             LL pw Hnd Hp).
  rewrite (Hre (fun bw => cov_at (fst (fst pw)) (fst bw) * snd bw)).
  cbn [fst snd]. ring.
Qed.

(** On a frame without missing values and with at least two rows, the
    matrix returned by [compute_cov_matrix] for a shrinkage in [0, 1]
    keeps the variance term of [neg_sharpe_ratio2] non-negative for all
    weights: it is (1 - s) times the variance term of [df.cov()] plus s
    times the sum of the squared weights times the asset variances. *)
Theorem shrunk_covariance_variance_nonnegative (df : Frame) (weights : list Q)
  (s : Q) :
  complete_frame df = true -> rectangular df = true ->
  List.length weights = List.length df -> (2 <= nrows df)%nat ->
  0 <= s <= 1 ->
  exists m v0 v,
    compute_cov_matrix (Some df) (Some s) = Return m /\
    portfolio_variance (values (df_cov df)) weights = Return (Some v0) /\
    portfolio_variance (values m) weights = Return (Some v) /\
    v == (1 - s) * v0
         + s * sumq (fun aw => snd aw * snd aw * cov_at (fst aw) (fst aw))
                    (combine df weights) /\
    0 <= v.
Proof.
  intros Hc Hr Hlen HT [H0 H1].
  destruct (portfolio_moments df weights Hc Hr Hlen HT)
    as (_ & _ & v0 & _ & _ & Hv0 & _ & _ & Hpos).
  rewrite (portfolio_variance_complete df weights Hc Hr Hlen HT) in Hv0.
  injection Hv0 as Hv0.
  assert (Hd : 0 <= sumq (fun aw => snd aw * snd aw * cov_at (fst aw) (fst aw))
                         (combine df weights)).
  { apply sumq_nonneg. intros [a x] Ha. cbn [fst snd].
    apply Qmult_le_0_compat; [apply Qsq_nonneg|].
    apply (cov_at_diag_nonneg df a Hc Hr HT (in_combine_l _ _ _ _ Ha)). }
  assert (Hs1 : 0 <= 1 - s).
  { rewrite <- (Qplus_opp_r s). apply Qplus_le_compat; [exact H1|apply Qle_refl]. }
  unfold compute_cov_matrix.
  assert (E0 : fle (Some 0) (Some s) = true) by (apply fle_Some; exact H0).
  assert (E1 : fle (Some s) (Some 1) = true) by (apply fle_Some; exact H1).
  rewrite E0, E1. simpl negb. cbv iota.
  destruct (fgt (Some s) (Some 0)) eqn:Epos.
  - eexists. exists v0. eexists.
    split; [reflexivity|].
    split; [rewrite <- Hv0; apply (portfolio_variance_complete df weights Hc Hr Hlen HT)|].
    cbn [values fsub lift2].
    rewrite (shrunk_values df (1 - s) Hc Hr HT).
    rewrite portfolio_variance_entries
      by (rewrite length_combine, length_seq, Nat.min_id; exact Hlen).
    split; [reflexivity|].
    cbn [fst snd].
    rewrite (shrunk_quadratic_form df weights (1 - s) Hlen). rewrite Hv0.
    split.
    + ring.
    + apply (Qplus_le_compat 0 _ 0 _).
      * apply Qmult_le_0_compat; [exact Hs1 | exact Hpos].
      * apply Qmult_le_0_compat; [|exact Hd].
        setoid_replace (1 - (1 - s)) with s by ring. exact H0.
  - exists (df_cov df), v0, v0.
    split; [reflexivity|].
    split; [rewrite <- Hv0; apply (portfolio_variance_complete df weights Hc Hr Hlen HT)|].
    split; [rewrite <- Hv0; apply (portfolio_variance_complete df weights Hc Hr Hlen HT)|].
    assert (Hz : s == 0).
    { unfold fgt, flt in Epos. apply negb_false_iff, Qle_bool_iff in Epos.
      apply Qle_antisym; assumption. }
    split; [rewrite Hz; ring | exact Hpos].
Qed.

Lemma shrunk_covariance_variance_nonnegative_witness :
  exists m v0 v,
    compute_cov_matrix (Some Samples.three_months) (Some (1#5)) = Return m /\
    portfolio_variance (values (df_cov Samples.three_months)) [3#2; -1#2]
    = Return (Some v0) /\
    portfolio_variance (values m) [3#2; -1#2] = Return (Some v) /\
    v == (1 - (1#5)) * v0
         + (1#5) * sumq (fun aw => snd aw * snd aw * cov_at (fst aw) (fst aw))
                        (combine Samples.three_months [3#2; -1#2]) /\
    0 <= v.
Proof.
  apply (shrunk_covariance_variance_nonnegative
           Samples.three_months [3#2; -1#2] (1#5)).
  - reflexivity.
  - reflexivity.
  - reflexivity.
  - simpl. lia.
  - split; unfold Qle; simpl; lia.
Defined.

(** *** Symmetry of the covariance matrix *)

Lemma complete_pairs_swap (x y : list cell) :
  complete_pairs y x = map (fun p => (snd p, fst p)) (complete_pairs x y).
Proof.
  revert y. induction x as [|[a|] x IH]; intros [|[b|] y]; simpl;
    try reflexivity; try apply IH.
  now rewrite IH.
Qed.

Lemma cov_pair_sym (x y : list cell) : cell_eq (cov_pair y x) (cov_pair x y).
Proof.
  unfold cov_pair. rewrite complete_pairs_swap.
  destruct (complete_pairs x y) as [|p [|q ps]]; try exact I.
  remember (p :: q :: ps) as l eqn:El.
  remember (map (fun p0 : Q * Q => (snd p0, fst p0)) l) as l' eqn:E.
  destruct l' as [|a [|b rest]]; try (subst l; discriminate E).
  rewrite E, El. cbv zeta. rewrite <- El.
  rewrite !map_map. cbn [fst snd cell_eq].
  unfold Qlen. rewrite !length_map.
  apply Qmult_comp; [|reflexivity].
  apply (sumq_ext
           (fun p0 : Q * Q =>
              (snd p0 - Qsum (map (fun x0 : Q * Q => snd x0) l)
                        / inject_Z (Z.of_nat (List.length l)))
              * (fst p0 - Qsum (map (fun x0 : Q * Q => fst x0) l)
                          / inject_Z (Z.of_nat (List.length l))))
           (fun p0 : Q * Q =>
              (fst p0 - Qsum (map fst l) / inject_Z (Z.of_nat (List.length l)))
              * (snd p0 - Qsum (map snd l)
                          / inject_Z (Z.of_nat (List.length l))))).
  intros p0 _.
  change (map (fun x0 : Q * Q => snd x0) l) with (map (@snd Q Q) l).
  change (map (fun x0 : Q * Q => fst x0) l) with (map (@fst Q Q) l).
  ring.
Qed.

Lemma df_cov_entry (df : Frame) (i j : nat) (d : string * list cell) :
  (i < List.length df)%nat -> (j < List.length df)%nat ->
  entry (values (df_cov df)) i j
  = cov_pair (snd (nth i df d)) (snd (nth j df d)).
Proof.
  intros Hi Hj. unfold entry, df_cov. cbn [values].
  rewrite (nth_indep _ [] ((fun a : string * list cell =>
             map (fun b : string * list cell => cov_pair (snd a) (snd b)) df) d))
    by (now rewrite length_map).
  rewrite (map_nth (fun a : string * list cell =>
             map (fun b : string * list cell => cov_pair (snd a) (snd b)) df)).
  rewrite (nth_indep _ NaN ((fun b : string * list cell =>
             cov_pair (snd (nth i df d)) (snd b)) d))
    by (now rewrite length_map).
  rewrite (map_nth (fun b : string * list cell =>
             cov_pair (snd (nth i df d)) (snd b))).
  reflexivity.
Qed.

Lemma cell_eq_fmul (a b k : cell) : cell_eq a b -> cell_eq (fmul a k) (fmul b k).
Proof.
  destruct a as [x|], b as [y|], k as [z|]; simpl; try tauto.
  intros H. now rewrite H.
Qed.

(** The matrix returned by [compute_cov_matrix] is symmetric, missing
    entries included, whatever the frame holds. *)
Theorem compute_cov_matrix_symmetric (df : Frame) (s : Q) :
  0 <= s <= 1 ->
  exists m,
    compute_cov_matrix (Some df) (Some s) = Return m /\
    forall i j, (i < List.length df)%nat -> (j < List.length df)%nat ->
                cell_eq (entry (values m) i j) (entry (values m) j i).
Proof.
  intros [H0 H1]. unfold compute_cov_matrix.
  assert (E0 : fle (Some 0) (Some s) = true) by (apply fle_Some; exact H0).
  assert (E1 : fle (Some s) (Some 1) = true) by (apply fle_Some; exact H1).
  rewrite E0, E1. simpl negb. cbv iota.
  assert (Hsym : forall i j, (i < List.length df)%nat -> (j < List.length df)%nat ->
            cell_eq (entry (values (df_cov df)) i j)
                    (entry (values (df_cov df)) j i)).
  { intros i j Hi Hj.
    rewrite (df_cov_entry df i j (EmptyString, []) Hi Hj).
    rewrite (df_cov_entry df j i (EmptyString, []) Hj Hi).
    apply cov_pair_sym. }
  destruct (fgt (Some s) (Some 0)).
  - eexists. split; [reflexivity|]. cbn [values]. intros i j Hi Hj.
    rewrite !imul_where_off_diagonal;
      try (rewrite df_cov_rows; assumption);
      try (rewrite df_cov_rows; apply df_cov_row_length; assumption);
      try reflexivity.
    rewrite (Nat.eqb_sym j i).
    destruct (Nat.eqb i j); [apply Hsym; assumption|].
    apply cell_eq_fmul, Hsym; assumption.
  - eexists. split; [reflexivity|]. exact Hsym.
Qed.

Lemma compute_cov_matrix_symmetric_witness :
  exists m,
    compute_cov_matrix (Some Examples.two_assets) (Some (1#5)) = Return m /\
    forall i j, (i < 2)%nat -> (j < 2)%nat ->
                cell_eq (entry (values m) i j) (entry (values m) j i).
Proof.
  apply (compute_cov_matrix_symmetric Examples.two_assets (1#5)).
  split; unfold Qle; simpl; lia.
Defined.

(** *** Shrinking the means *)

Lemma mean_present (l : list cell) (a : Q) :
  In (Some a) l -> exists g, mean l = Some g.
Proof.
  intros H. unfold mean.
  assert (Ha : In a (dropna l)).
  { unfold dropna. apply in_flat_map. exists (Some a). split; [exact H|now left]. }
  destruct (dropna l) as [|x xs]; [contradiction|]. eexists. reflexivity.
Qed.

(** For a shrinkage in [0, 1], [compute_mean_returns] keeps the asset
    labels, leaves a missing mean missing, and scales the difference
    between any two asset means by (1 - s): the ranking of the assets by
    mean return is kept. *)
Theorem compute_mean_returns_scales_spread (df : Frame) (s : Q) :
  0 <= s <= 1 ->
  exists m,
    compute_mean_returns (Some df) (Some s) = Return m /\
    map fst m = map fst (df_mean df) /\
    (forall i n, nth_error (df_mean df) i = Some (n, NaN) ->
                 nth_error m i = Some (n, NaN)) /\
    (forall i j ni nj a b,
        nth_error (df_mean df) i = Some (ni, Some a) ->
        nth_error (df_mean df) j = Some (nj, Some b) ->
        exists a' b',
          nth_error m i = Some (ni, Some a') /\
          nth_error m j = Some (nj, Some b') /\
          b' - a' == (1 - s) * (b - a) /\
          (a <= b -> a' <= b')).
Proof.
  intros [H0 H1]. unfold compute_mean_returns.
  assert (E1 : fgt (Some s) (Some 1) = false).
  { unfold fgt. apply flt_Some_false. exact H1. }
  rewrite E1.
  assert (Hs1 : 0 <= 1 - s).
  { rewrite <- (Qplus_opp_r s). apply Qplus_le_compat; [exact H1|apply Qle_refl]. }
  destruct (fgt (Some s) (Some 0)) eqn:Epos.
  - eexists. split; [reflexivity|].
    split; [rewrite map_map; reflexivity|]. split.
    + intros i n Hi. erewrite map_nth_error by exact Hi.
      cbn [fst snd]. reflexivity.
    + intros i j ni nj a b Hi Hj.
      destruct (mean_present (map snd (df_mean df)) a) as [g Hg].
      { apply nth_error_In in Hi.
        change (Some a) with (snd (ni, Some a)). now apply in_map. }
      unfold series_mean. rewrite Hg.
      exists ((1 - s) * a + s * g), ((1 - s) * b + s * g).
      split; [erewrite map_nth_error by exact Hi; reflexivity|].
      split; [erewrite map_nth_error by exact Hj; reflexivity|].
      split; [ring|].
      intros Hab. apply Qplus_le_compat; [|apply Qle_refl].
      rewrite !(Qmult_comm (1 - s)). apply Qmult_le_compat_r; assumption.
  - assert (Hz : s == 0).
    { unfold fgt, flt in Epos. apply negb_false_iff, Qle_bool_iff in Epos.
      apply Qle_antisym; assumption. }
    exists (df_mean df). split; [reflexivity|].
    split; [reflexivity|]. split; [auto|].
    intros i j ni nj a b Hi Hj. exists a, b.
    split; [exact Hi|]. split; [exact Hj|].
    split; [rewrite Hz; ring | auto].
Qed.

Lemma compute_mean_returns_scales_spread_witness :
  exists m,
    compute_mean_returns (Some Examples.two_assets) (Some (1#5)) = Return m /\
    map fst m = map fst (df_mean Examples.two_assets).
Proof.
  destruct (compute_mean_returns_scales_spread Examples.two_assets (1#5))
    as (m & Hm & Hl & _).
  - split; unfold Qle; simpl; lia.
  - exists m. split; assumption.
Defined.

(** *** Equal and normalized weights *)

Lemma Qsum_repeat (k : Q) (n : nat) :
  Qsum (repeat k n) == inject_Z (Z.of_nat n) * k.
Proof.
  induction n as [|n IH]; [simpl; ring|].
  simpl repeat. simpl Qsum. rewrite IH.
  rewrite Nat2Z.inj_succ, <- Z.add_1_l, inject_Z_plus. ring.
Qed.

Lemma sumq_combine_repeat {A} (f : A -> Q) (l : list A) (k : Q) :
  sumq (fun cw => f (fst cw) * snd cw) (combine l (repeat k (List.length l)))
  == sumq f l * k.
Proof.
  induction l as [|a l IH]; [unfold sumq; simpl; ring|].
  simpl List.length. simpl repeat. simpl combine.
  rewrite !sumq_cons, IH. cbn [fst snd]. ring.
Qed.

Lemma mean_map_Some {A} (f : A -> Q) (l : list A) :
  l <> [] ->
  mean (map (fun a => Some (f a)) l)
  = Some (sumq f l / inject_Z (Z.of_nat (List.length l))).
Proof.
  intros Hne. unfold mean. rewrite dropna_map_Some.
  destruct l as [|a l]; [contradiction|].
  cbn [map]. change (f a :: map f l) with (map f (a :: l)).
  unfold sumq, Qlen. now rewrite length_map.
Qed.

Lemma inject_Z_pos (n : nat) : (1 <= n)%nat -> ~ inject_Z (Z.of_nat n) == 0.
Proof.
  intros H E. unfold Qeq in E. simpl in E. lia.
Qed.

(** The equal weights the optimizer starts from exist as soon as there
    is an asset, satisfy the constraint that the weights sum to one, and
    on a frame without missing values give the average of the assets'
    returns in every row. *)
Theorem equal_weighted_portfolio (df : Frame) :
  complete_frame df = true -> rectangular df = true -> df <> [] ->
  exists w r,
    weights_equal (map fst df) = Some w /\
    List.length w = List.length df /\
    constraint w == 0 /\
    portfolio_return df w = Return r /\
    forall t, (t < nrows df)%nat ->
              cell_eq (nth t r NaN) (mean (map (fun c => nth t (snd c) NaN) df)).
Proof.
  intros Hc Hr Hne.
  destruct df as [|c0 df0] eqn:Edf; [contradiction|]. rewrite <- Edf in *.
  set (n := List.length df).
  assert (Hn : (1 <= n)%nat) by (unfold n; rewrite Edf; simpl; lia).
  set (k := 1 / inject_Z (Z.of_nat n)).
  assert (Hw : weights_equal (map fst df) = Some (repeat k n)).
  { rewrite Edf. unfold k, n. rewrite Edf. cbn [map weights_equal].
    cbn [List.length]. rewrite !length_map. reflexivity. }
  exists (repeat k n). eexists.
  split; [exact Hw|].
  split; [apply repeat_length|].
  split.
  { unfold constraint. rewrite Qsum_repeat. unfold k. field.
    apply inject_Z_pos. exact Hn. }
  split.
  { apply portfolio_return_complete; [exact Hc | exact Hr | apply repeat_length]. }
  intros t Ht.
  rewrite (nth_indep _ NaN
             ((fun t0 => Some (sumq (fun cw : (string * list cell) * Q =>
                                       value_at (fst cw) t0 * snd cw)
                                    (combine df (repeat k n)))) 0%nat))
    by (now rewrite length_map, length_seq).
  rewrite (map_nth (fun t0 => Some (sumq (fun cw : (string * list cell) * Q =>
                                            value_at (fst cw) t0 * snd cw)
                                         (combine df (repeat k n))))).
  rewrite seq_nth by exact Ht. cbn [Nat.add].
  rewrite (map_ext_in _ (fun c => Some (value_at c t)))
    by (intros c Hin; apply (complete_column_nth df c t Hc Hr Hin Ht)).
  rewrite mean_map_Some by exact Hne. cbn [cell_eq].
  unfold n. rewrite (sumq_combine_repeat (fun c => value_at c t) df k).
  unfold k, n. unfold Qdiv. ring.
Qed.

Lemma equal_weighted_portfolio_witness :
  exists w r,
    weights_equal (map fst Samples.three_months) = Some w /\
    List.length w = List.length Samples.three_months /\
    constraint w == 0 /\
    portfolio_return Samples.three_months w = Return r /\
    forall t, (t < nrows Samples.three_months)%nat ->
              cell_eq (nth t r NaN)
                      (mean (map (fun c => nth t (snd c) NaN) Samples.three_months)).
Proof.
  apply (equal_weighted_portfolio Samples.three_months).
  - reflexivity.
  - reflexivity.
  - discriminate.
Defined.

(** Dividing the random draws by their sum gives weights that sum to
    one, unless the draws sum to zero. *)
Theorem normalized_weights_sum_to_one (weights : list Q) :
  ~ Qsum weights == 0 ->
  exists w, normalize weights = map Some w /\
            List.length w = List.length weights /\
            constraint w == 0.
Proof.
  intros Hs. exists (map (fun x => x / Qsum weights) weights).
  split; [|split].
  - unfold normalize. rewrite map_map. apply map_ext. intros x.
    unfold fdiv. destruct (Qeq_bool (Qsum weights) 0) eqn:E; [|reflexivity].
    apply Qeq_bool_iff in E. contradiction.
  - apply length_map.
  - unfold constraint. change (Qsum (map (fun x => x / Qsum weights) weights))
      with (sumq (fun x => x / Qsum weights) weights).
    unfold Qdiv. rewrite sumq_scale_r, <- Qsum_sumq. field. exact Hs.
Qed.

Lemma normalized_weights_sum_to_one_witness :
  exists w, normalize [3#10; -1#10; 2#10] = map Some w /\
            List.length w = 3%nat /\
            constraint w == 0.
Proof.
  apply (normalized_weights_sum_to_one [3#10; -1#10; 2#10]).
  unfold Qeq. simpl. lia.
Defined.

End PortfolioAlgebra.

(** ** The download of Ken French's data files *)

Section FrenchDataFacts.
Import FrenchData.
Local Open Scope string_scope.
Local Open Scope list_scope.

Lemma prefix_iff (s1 s2 : string) :
  String.prefix s1 s2 = true <-> exists b, s2 = (s1 ++ b)%string.
Proof.
  revert s2. induction s1 as [|a s1 IH]; intros s2.
  - split; [intros _; exists s2; reflexivity|]. intros _. now destruct s2.
  - destruct s2 as [|c s2]; simpl.
    + split; [discriminate|]. intros [b H]. discriminate H.
    + destruct (ascii_dec a c) as [->|Hne].
      * rewrite IH. split; intros [b H]; exists b.
        -- now rewrite H.
        -- now injection H.
      * split; [discriminate|]. intros [b H]. injection H as H _. congruence.
Qed.

(** [contains sub line] holds exactly when [sub] occurs in [line]. *)
Lemma contains_iff (sub line : string) :
  contains sub line = true <-> exists a b, line = (a ++ sub ++ b)%string.
Proof.
  induction line as [|c line IH].
  - cbn [contains]. rewrite orb_false_r, prefix_iff. split.
    + intros [b H]. exists EmptyString, b. exact H.
    + intros (a & b & H). destruct a as [|x a]; [|discriminate H].
      exists b. exact H.
  - cbn [contains]. rewrite orb_true_iff, prefix_iff, IH. split.
    + intros [[b H]|(a & b & H)].
      * exists EmptyString, b. exact H.
      * exists (String c a), b. simpl. now rewrite H.
    + intros (a & b & H). destruct a as [|x a].
      * left. exists b. exact H.
      * right. simpl in H. injection H as _ H. exists a, b. exact H.
Qed.

Lemma lstrip_nil (l : list ascii) :
  lstrip l = [] <-> forallb isspace l = true.
Proof.
  induction l as [|c l IH]; simpl; [tauto|].
  destruct (isspace c); simpl; [exact IH|]. split; discriminate.
Qed.

Lemma forallb_rev {A} (f : A -> bool) (l : list A) :
  forallb f (rev l) = forallb f l.
Proof.
  induction l as [|a l IH]; [reflexivity|].
  simpl. rewrite forallb_app, IH. simpl. rewrite andb_true_r. apply andb_comm.
Qed.

Lemma lstrip_spaces_or_nonspace (l : list ascii) :
  forallb isspace l = false -> forallb isspace (lstrip l) = false.
Proof.
  induction l as [|c l IH]; simpl; [discriminate|].
  destruct (isspace c) eqn:E; simpl; [exact IH|]. now rewrite E.
Qed.

(** [len(line.strip()) == 0] holds exactly when the line is made of
    white space. *)
Lemma strip_empty_iff (line : string) :
  Nat.eqb (String.length (strip line)) 0 = true
  <-> forallb isspace (list_ascii_of_string line) = true.
Proof.
  unfold strip. set (l := list_ascii_of_string line).
  destruct (forallb isspace l) eqn:E.
  - apply lstrip_nil in E. rewrite E. simpl. tauto.
  - split; [|discriminate]. intros H. exfalso.
    apply lstrip_spaces_or_nonspace in E.
    rewrite <- forallb_rev in E. apply lstrip_spaces_or_nonspace in E.
    rewrite <- forallb_rev in E.
    destruct (rev (lstrip (rev (lstrip l)))) as [|c r]; [discriminate E|].
    simpl in H. discriminate H.
Qed.

Lemma enumerate_until_stop (body : list string) (t : string) (rest : list string)
  (idx : nat) (last : option nat) :
  Forall (fun l => stops l = false) body -> stops t = true ->
  enumerate_until idx last (body ++ t :: rest) = Some (idx + List.length body)%nat.
Proof.
  intros Hb Ht. revert idx last.
  induction Hb as [|l body Hl Hb IH]; intros idx last; simpl.
  - rewrite Ht. f_equal. lia.
  - rewrite Hl, IH. f_equal. lia.
Qed.

Lemma enumerate_until_end (lines : list string) (idx : nat) (last : option nat) :
  Forall (fun l => stops l = false) lines ->
  enumerate_until idx last lines
  = match lines with
    | [] => last
    | _ :: _ => Some (idx + List.length lines - 1)%nat
    end.
Proof.
  intros H. revert idx last.
  induction H as [|l lines Hl H IH]; intros idx last; [reflexivity|].
  simpl enumerate_until. rewrite Hl, IH.
  destruct lines; simpl; f_equal; lia.
Qed.

Lemma firstn_removelast {A} (l : list A) :
  firstn (List.length l - 1) l = removelast l.
Proof.
  induction l as [|a l IH]; [reflexivity|].
  destruct l as [|b l]; [reflexivity|].
  replace (List.length (a :: b :: l) - 1)%nat with (S (List.length (b :: l) - 1))
    by (simpl; lia).
  cbn [firstn]. rewrite IH. reflexivity.
Qed.

Lemma trim_stop (body : list string) (t : string) (rest : list string) :
  Forall (fun l => stops l = false) body -> stops t = true ->
  trim (body ++ t :: rest) = Some body.
Proof.
  intros Hb Ht. unfold trim. rewrite (enumerate_until_stop body t rest 0 None Hb Ht).
  simpl. rewrite firstn_app, Nat.sub_diag, firstn_all. simpl.
  now rewrite app_nil_r.
Qed.

Lemma trim_end (lines : list string) :
  Forall (fun l => stops l = false) lines ->
  trim lines = match lines with [] => None | _ :: _ => Some (removelast lines) end.
Proof.
  intros H. unfold trim. rewrite (enumerate_until_end lines 0 None H).
  destruct lines as [|l lines]; [reflexivity|].
  cbn [Nat.add]. now rewrite firstn_removelast.
Qed.

Lemma enumerate_until_last (lines : list string) (idx i : nat) :
  enumerate_until idx (Some i) lines <> None.
Proof.
  revert idx i. induction lines as [|l lines IH]; intros idx i; simpl.
  - discriminate.
  - destruct (stops l); [discriminate | apply IH].
Qed.

Lemma trim_None (lines : list string) : trim lines = None <-> lines = [].
Proof.
  unfold trim. destruct lines as [|l lines]; simpl.
  - tauto.
  - split; [|discriminate]. destruct (stops l); [discriminate|].
    destruct (enumerate_until 1 (Some 0%nat) lines) eqn:E; [discriminate|].
    now apply enumerate_until_last in E.
Qed.

Lemma split_at_stop (lines : list string) :
  Forall (fun l => stops l = false) lines \/
  exists body t rest,
    lines = body ++ t :: rest /\
    Forall (fun l => stops l = false) body /\ stops t = true.
Proof.
  induction lines as [|l lines IH]; [left; constructor|].
  destruct (stops l) eqn:E.
  - right. exists [], l, lines. split; [reflexivity|]. split; [constructor|exact E].
  - destruct IH as [H|(body & t & rest & -> & Hb & Ht)].
    + left. now constructor.
    + right. exists (l :: body), t, rest.
      split; [reflexivity|]. split; [now constructor|exact Ht].
Qed.

(** The loop ends at a line that contains 'Annual Factors' or is made of
    white space only, and at no other line. *)
Theorem stops_iff (line : string) :
  stops line = true <->
  (exists a b, line = (a ++ "Annual Factors" ++ b)%string) \/
  forallb isspace (list_ascii_of_string line) = true.
Proof.
  unfold stops. rewrite orb_true_iff, contains_iff, strip_empty_iff. tauto.
Qed.

(** With status 200 and [csvname] in the archive, the text handed to
    [pd.read_csv] is made of the lines after the first [skiplines] up to,
    and without, the first line that ends the monthly block. *)
Theorem download_keeps_monthly_block
  (archive : string -> option (list string)) (csvname : string)
  (skiplines : option Z) (raw body : list string) (t : string)
  (rest : list string) :
  archive csvname = Some raw ->
  slice_from skiplines raw = body ++ t :: rest ->
  Forall (fun l => stops l = false) body ->
  stops t = true ->
  download_french_data 200 archive csvname skiplines
  = Read_csv (String.concat newline body).
Proof.
  intros Ha Hs Hb Ht. unfold download_french_data. simpl negb. cbv iota.
  rewrite Ha. cbv zeta. rewrite Hs, (trim_stop body t rest Hb Ht). reflexivity.
Qed.

Lemma download_keeps_monthly_block_witness :
  download_french_data 200 Samples.french_archive
                       "F-F_Research_Data_Factors.csv" (Some 1%Z)
  = Read_csv (String.concat newline
                [",Mkt-RF,SMB"; "196307,-0.39,-0.41"; "196308,5.07,-0.80"]).
Proof.
  apply (download_keeps_monthly_block Samples.french_archive
           "F-F_Research_Data_Factors.csv" (Some 1%Z) Samples.french_file
           [",Mkt-RF,SMB"; "196307,-0.39,-0.41"; "196308,5.07,-0.80"]
           "  "
           [" Annual Factors: January-December"; ",Mkt-RF,SMB";
            "1963,-1.00,2.00"]).
  - reflexivity.
  - reflexivity.
  - repeat constructor.
  - reflexivity.
Defined.

(** When no line ends the monthly block, the last line is lost: the loop
    leaves [idx] at the last index and [lines[:idx]] stops before it.
    When no line is left after the first [skiplines], [idx] is never
    bound and the call raises UnboundLocalError. *)
Theorem download_without_terminator
  (archive : string -> option (list string)) (csvname : string)
  (skiplines : option Z) (raw : list string) :
  archive csvname = Some raw ->
  Forall (fun l => stops l = false) (slice_from skiplines raw) ->
  download_french_data 200 archive csvname skiplines
  = match slice_from skiplines raw with
    | [] => Raises_UnboundLocalError
    | _ :: _ =>
        Read_csv (String.concat newline
                    (removelast (slice_from skiplines raw)))
    end.
Proof.
  intros Ha Hs. unfold download_french_data. simpl negb. cbv iota.
  rewrite Ha. cbv zeta. rewrite (trim_end _ Hs).
  destruct (slice_from skiplines raw); reflexivity.
Qed.

Lemma download_without_terminator_witness :
  download_french_data 200
    (fun _ => Some ["x,y"; "196307,1.0"; "196308,2.0"]) "any.csv" (Some 0%Z)
  = Read_csv (String.concat newline ["x,y"; "196307,1.0"]).
Proof.
  apply (download_without_terminator
           (fun _ => Some ["x,y"; "196307,1.0"; "196308,2.0"]) "any.csv"
           (Some 0%Z) ["x,y"; "196307,1.0"; "196308,2.0"]).
  - reflexivity.
  - repeat constructor.
Defined.

(** How a call ends badly: it raises exactly when the status code is not
    200, returns an empty frame exactly when the archive lacks [csvname],
    and raises UnboundLocalError exactly when no line is left after the
    first [skiplines]. *)
Theorem download_french_data_failures (status_code : Z)
  (archive : string -> option (list string)) (csvname : string)
  (skiplines : option Z) :
  (download_french_data status_code archive csvname skiplines = Raises_Exception
   <-> status_code <> 200%Z) /\
  (download_french_data status_code archive csvname skiplines = Empty_DataFrame
   <-> status_code = 200%Z /\ archive csvname = None) /\
  (download_french_data status_code archive csvname skiplines
   = Raises_UnboundLocalError
   <-> status_code = 200%Z /\
       exists raw, archive csvname = Some raw /\ slice_from skiplines raw = []).
Proof.
  unfold download_french_data.
  destruct (Z.eqb_spec status_code 200) as [->|Hne]; simpl negb; cbv iota.
  - destruct (archive csvname) as [raw|] eqn:Ha; cbv zeta.
    + destruct (trim (slice_from skiplines raw)) as [kept|] eqn:Et.
      * assert (Hn : slice_from skiplines raw <> []).
        { intros E. apply trim_None in E. congruence. }
        split; [split; [discriminate|intros H; now contradiction H]|].
        split; [split; [discriminate|intros [_ H]; discriminate H]|].
        split; [discriminate|]. intros [_ (raw' & Hr & Hs)].
        injection Hr as <-. contradiction.
      * apply trim_None in Et.
        split; [split; [discriminate|intros H; now contradiction H]|].
        split; [split; [discriminate|intros [_ H]; discriminate H]|].
        split; [|reflexivity]. intros _. split; [reflexivity|].
        exists raw. split; [reflexivity|exact Et].
    + split; [split; [discriminate|intros H; now contradiction H]|].
      split; [split; [intros _; split; reflexivity|reflexivity]|].
      split; [discriminate|]. intros [_ (raw & Hr & _)]. discriminate Hr.
  - split; [split; [intros _; exact Hne|reflexivity]|].
    split; [split; [discriminate|intros [H _]; contradiction]|].
    split; [discriminate|]. intros [H _]. contradiction.
Qed.

(** The lines kept are a proper prefix of the lines read: at least one
    line is dropped, and no line kept would have ended the loop. *)
Theorem trim_keeps_proper_prefix (lines kept : list string) :
  trim lines = Some kept ->
  exists dropped,
    lines = kept ++ dropped /\ dropped <> [] /\
    Forall (fun l => stops l = false) kept.
Proof.
  intros H. destruct (split_at_stop lines) as [Hall|(body & t & rest & -> & Hb & Ht)].
  - rewrite (trim_end lines Hall) in H.
    destruct lines as [|l lines]; [discriminate|]. injection H as <-.
    exists [last (l :: lines) l]. split; [|split].
    + apply app_removelast_last. discriminate.
    + discriminate.
    + rewrite (app_removelast_last l (l := l :: lines)) in Hall by discriminate.
      apply Forall_app in Hall. tauto.
  - rewrite (trim_stop body t rest Hb Ht) in H. injection H as <-.
    exists (t :: rest). split; [reflexivity|]. split; [discriminate|exact Hb].
Qed.

Lemma trim_keeps_proper_prefix_witness :
  exists dropped,
    Samples.french_file
    = ["This file was created using the 202309 CRSP database.";
       ",Mkt-RF,SMB"; "196307,-0.39,-0.41"; "196308,5.07,-0.80"] ++ dropped /\
    dropped <> [] /\
    Forall (fun l => stops l = false)
           ["This file was created using the 202309 CRSP database.";
            ",Mkt-RF,SMB"; "196307,-0.39,-0.41"; "196308,5.07,-0.80"].
Proof.
  apply (trim_keeps_proper_prefix Samples.french_file). reflexivity.
Defined.

End FrenchDataFacts.

(** ** The CRSP frame *)

Section CrspFacts.
Import Panel Crsp.
Local Open Scope string_scope.

Lemma clean_rowwise (df : DataFrame) : clean df = map clean_row (filter keep df).
Proof.
  unfold clean, Topic2.drop_columns, Topic2.assign_with, mask_assign.
  rewrite !map_map. reflexivity.
Qed.

Ltac row_get :=
  repeat (rewrite get_set_same
          || (rewrite get_set_other by discriminate)
          || (rewrite get_drop_row by reflexivity)).

Lemma clean_row_ret (r : Row) :
  get (clean_row r) "ret"
  = if isnull (get r "RET") && isnull (get r "DLRET") then NaN
    else fsub (fmul (fadd (Some 1) (fillna 0 (get r "RET")))
                    (fadd (Some 1) (fillna 0 (get r "DLRET"))))
              (Some 1).
Proof.
  unfold clean_row. cbv zeta. row_get.
  destruct (isnull (get r "RET") && isnull (get r "DLRET")); row_get; reflexivity.
Qed.

Lemma clean_row_me (r : Row) :
  get (clean_row r) "me"
  = replace_zero (fdiv (fmul (fabs (get r "PRC")) (get r "SHROUT")) (Some 1000)).
Proof.
  unfold clean_row. cbv zeta. row_get.
  destruct (isnull (get r "RET") && isnull (get r "DLRET")); row_get; reflexivity.
Qed.

Lemma clean_row_exchcd (r : Row) :
  get (clean_row r) "EXCHCD" = get r "EXCHCD".
Proof.
  unfold clean_row. cbv zeta. row_get.
  destruct (isnull (get r "RET") && isnull (get r "DLRET")); row_get; reflexivity.
Qed.

Lemma clean_row_label (r : Row) : label (clean_row r) = label r.
Proof.
  unfold clean_row. cbv zeta.
  destruct (isnull _ && isnull _); reflexivity.
Qed.

(** The cleaned frame holds the rows with share code 10 or 11 and
    exchange code 1, 2 or 3, in their order and under their labels.  The
    return of a row compounds the return and the delisting return: it is
    missing exactly when both are, it is the one that is present when the
    other is missing, and 1 + ret = (1 + RET)(1 + DLRET) when both are
    present. *)
Theorem crsp_return_with_delisting (df : DataFrame) :
  Forall2 (fun r r' =>
             label r' = label r /\
             isin (get r "SHRCD") [10; 11] = true /\
             isin (get r' "EXCHCD") [1; 2; 3] = true /\
             (get r' "ret" = NaN <-> get r "RET" = NaN /\ get r "DLRET" = NaN) /\
             (get r "DLRET" = NaN -> cell_eq (get r' "ret") (get r "RET")) /\
             (get r "RET" = NaN -> cell_eq (get r' "ret") (get r "DLRET")) /\
             (forall a b, get r "RET" = Some a -> get r "DLRET" = Some b ->
                          exists x, get r' "ret" = Some x /\
                                    1 + x == (1 + a) * (1 + b)))
          (filter keep df) (clean df).
Proof.
  rewrite clean_rowwise. apply Forall2_map_right. intros r Hr.
  apply filter_In in Hr. destruct Hr as [_ Hk].
  unfold keep in Hk. apply andb_true_iff in Hk. destruct Hk as [Hs He].
  split; [apply clean_row_label|]. split; [exact Hs|].
  split; [rewrite clean_row_exchcd; exact He|].
  rewrite clean_row_ret.
  destruct (get r "RET") as [a|], (get r "DLRET") as [b|]; cbn.
  - split; [split; [discriminate|intros [H _]; discriminate H]|].
    split; [discriminate|]. split; [discriminate|].
    intros a' b' Ha Hb. injection Ha as <-. injection Hb as <-.
    eexists. split; [reflexivity|]. ring.
  - split; [split; [discriminate|intros [H _]; discriminate H]|].
    split; [intros _; ring|]. split; [discriminate|]. intros a' b' _ Hb.
    discriminate Hb.
  - split; [split; [discriminate|intros [_ H]; discriminate H]|].
    split; [discriminate|]. split; [intros _; ring|]. intros a' b' Ha _.
    discriminate Ha.
  - split; [split; [intros _; split; reflexivity|reflexivity]|].
    split; [intros _; exact I|]. split; [intros _; exact I|].
    intros a' b' Ha _. discriminate Ha.
Qed.

Lemma Qabs_zero_iff (p : Q) : Qabs p == 0 <-> p == 0.
Proof.
  split; intros H.
  - assert (Hle : Qabs p <= 0) by (rewrite H; apply Qle_refl).
    apply Qabs_Qle_condition in Hle. destruct Hle as [H1 H2].
    apply Qle_antisym; assumption.
  - rewrite H. reflexivity.
Qed.

Lemma scaled_product_zero (p s : Q) :
  Qabs p * s / 1000 == 0 <-> p == 0 \/ s == 0.
Proof.
  split.
  - intros E.
    assert (E' : Qabs p * s == 0).
    { setoid_replace (Qabs p * s) with (Qabs p * s / 1000 * 1000) by field.
      rewrite E. ring. }
    apply Qmult_integral in E'. destruct E' as [E'|E']; [left|right; exact E'].
    now apply Qabs_zero_iff.
  - intros [E|E].
    + apply Qabs_zero_iff in E. rewrite E. field.
    + rewrite E. field.
Qed.

(** Market equity is |PRC| * SHROUT / 1000 with zero replaced by a
    missing value: it is never zero, it is missing exactly when the price
    or the shares are missing or zero, and it is positive when the
    shares outstanding are. *)
Theorem crsp_market_equity (df : DataFrame) :
  Forall2 (fun r r' =>
             label r' = label r /\
             (forall m, get r' "me" = Some m ->
                        ~ m == 0 /\
                        exists p s, get r "PRC" = Some p /\
                                    get r "SHROUT" = Some s /\
                                    m == Qabs p * s / 1000 /\
                                    (0 < s -> 0 < m)) /\
             (get r' "me" = NaN <->
              get r "PRC" = NaN \/ get r "SHROUT" = NaN \/
              exists p s, get r "PRC" = Some p /\ get r "SHROUT" = Some s /\
                          (p == 0 \/ s == 0)))
          (filter keep df) (clean df).
Proof.
  rewrite clean_rowwise. apply Forall2_map_right. intros r _.
  split; [apply clean_row_label|].
  rewrite clean_row_me.
  destruct (get r "PRC") as [p|], (get r "SHROUT") as [s|]; cbn.
  2,3,4: (split; [discriminate|]; split; [intros _; auto|reflexivity]).
  change (Qeq_bool 1000 0) with false. cbv iota.
  destruct (Qeq_bool (Qabs p * s / 1000) 0) eqn:E.
  - apply Qeq_bool_iff in E. split; [discriminate|].
    split; [|reflexivity]. intros _. right. right. exists p, s.
    split; [reflexivity|]. split; [reflexivity|].
    now apply scaled_product_zero.
  - apply Qeq_bool_neq in E. split.
    + intros m Hm. injection Hm as <-. split; [exact E|].
      exists p, s. split; [reflexivity|]. split; [reflexivity|].
      split; [reflexivity|]. intros Hs.
      assert (Hge : 0 <= Qabs p * s / 1000).
      { unfold Qdiv. apply Qmult_le_0_compat; [|discriminate].
        apply Qmult_le_0_compat; [apply Qabs_nonneg|]. now apply Qlt_le_weak. }
      apply Qle_lteq in Hge. destruct Hge as [Hlt|Heq].
      * exact Hlt.
      * exfalso. apply E. symmetry. exact Heq.
    + split; [discriminate|].
      intros [H|[H|(p' & s' & Hp & Hs & Hz)]]; try discriminate.
      injection Hp as <-. injection Hs as <-.
      exfalso. apply E. now apply scaled_product_zero.
Qed.

End CrspFacts.

(** ** The Compustat frame *)

Section CompustatFacts.
Import Panel Compustat.
Local Open Scope string_scope.
Local Open Scope list_scope.

Lemma assign_column_map2 c (K : Row -> cell) (T : Row -> Row) (d : DataFrame) :
  assign_column c (map K d) (map T d) = map (fun r => set c (K r) (T r)) d.
Proof. induction d as [|r d IH]; simpl; [reflexivity | now rewrite IH]. Qed.

Lemma add_book_equity_rowwise (df : DataFrame) :
  add_book_equity df
  = map (fun r => set "be" (book_equity r)
                      (set "txditc" (Crsp.fillna 0 (get r "txditc")) r)) df.
Proof.
  unfold add_book_equity, Topic2.assign_with. cbv zeta.
  rewrite combine_map_same, map_map. cbn [fst snd].
  rewrite combine_map_same, map_map. cbn [fst snd].
  rewrite assign_column_map2. apply map_ext. intros r.
  unfold book_equity. cbv zeta. rewrite date_set, get_set_same. reflexivity.
Qed.

(** Book equity is missing exactly when [seq], [ceq + pstk] and
    [at - lt] are all missing: the adjustments for preferred stock and
    for the investment tax credit never make it missing.  When it is
    present it is the first of the three that is present, minus the
    preferred stock (the first present of [pstkrv], [pstkl], [pstk], if
    any), plus [txditc] (0 when missing) for fiscal years ending in
    December 1993 or before. *)
Theorem book_equity_adjustments (df : DataFrame) :
  Forall2 (fun r r' =>
             let base :=
               combine_first
                 (combine_first (get r "seq") (fadd (get r "ceq") (get r "pstk")))
                 (fsub (get r "at") (get r "lt")) in
             let pref :=
               combine_first (combine_first (get r "pstkrv") (get r "pstkl"))
                             (get r "pstk") in
             label r' = label r /\
             get r' "txditc" = Some (value_or_zero (get r "txditc")) /\
             (get r' "be" = NaN <->
              get r "seq" = NaN /\
              (get r "ceq" = NaN \/ get r "pstk" = NaN) /\
              (get r "at" = NaN \/ get r "lt" = NaN)) /\
             (forall b, base = Some b ->
                get r' "be"
                = Some (if Z.leb (date r) december_1993
                        then (if notnull pref then b - value_or_zero pref else b)
                             + value_or_zero (get r "txditc")
                        else (if notnull pref then b - value_or_zero pref else b))))
          df (add_book_equity df).
Proof.
  rewrite add_book_equity_rowwise. apply Forall2_map_right. intros r _.
  cbv zeta. split; [reflexivity|].
  split.
  { rewrite get_set_other by discriminate. rewrite get_set_same.
    destruct (get r "txditc"); reflexivity. }
  rewrite get_set_same. unfold book_equity. cbv zeta.
  set (pref := combine_first (combine_first (get r "pstkrv") (get r "pstkl"))
                             (get r "pstk")).
  split.
  - destruct (get r "seq") as [q|], (get r "ceq") as [c|], (get r "pstk") as [k|],
             (get r "at") as [a|], (get r "lt") as [l|];
      destruct pref as [f|], (Z.leb (date r) december_1993),
               (get r "txditc") as [x|];
      cbn; split; intros H;
      try discriminate H; try reflexivity;
      try (destruct H as (H1 & [H2|H2] & [H3|H3]); discriminate);
      try (split; [reflexivity|]; split; auto).
  - intros b Hb. rewrite Hb.
    destruct pref as [f|], (Z.leb (date r) december_1993),
             (get r "txditc") as [x|]; cbn; reflexivity.
Qed.

Lemma add_beme_rowwise (df : DataFrame) :
  add_beme df
  = map (fun r => if flt (get r "be") (Some 0)
                  then set "beme" NaN r
                  else set "beme" (fdiv (get r "be") (get r "me")) r) df.
Proof.
  unfold add_beme, Topic2.assign_with, mask_assign. rewrite map_map.
  apply map_ext. intros r. rewrite get_set_other by discriminate.
  destruct (flt (get r "be") (Some 0)); [apply set_set | reflexivity].
Qed.

(** Book-to-market is missing for every row with negative book equity
    and leaves the other columns alone; on a row whose market equity is
    not zero (as CRSP's is once its zeros are replaced), a book-to-market
    that is present is [be / me] for a non-negative [be], hence
    non-negative when market equity is positive. *)
Theorem beme_excludes_negative_book_equity (df : DataFrame) :
  Forall2 (fun r r' =>
             label r' = label r /\
             get r' "be" = get r "be" /\
             get r' "me" = get r "me" /\
             (forall b, get r "be" = Some b -> b < 0 -> get r' "beme" = NaN) /\
             ((forall m, get r "me" = Some m -> ~ m == 0) ->
              forall x, get r' "beme" = Some x ->
                exists b m, get r "be" = Some b /\ get r "me" = Some m /\
                            0 <= b /\ x == b / m /\ (0 < m -> 0 <= x)))
          df (add_beme df).
Proof.
  rewrite add_beme_rowwise. apply Forall2_map_right. intros r _.
  destruct (flt (get r "be") (Some 0)) eqn:E.
  - split; [reflexivity|].
    split; [apply get_set_other; discriminate|].
    split; [apply get_set_other; discriminate|].
    rewrite get_set_same. split; [reflexivity|]. intros _ x Hx. discriminate Hx.
  - split; [reflexivity|].
    split; [apply get_set_other; discriminate|].
    split; [apply get_set_other; discriminate|].
    rewrite get_set_same. split.
    + intros b Hb Hneg. rewrite Hb in E. unfold flt in E.
      apply negb_false_iff, Qle_bool_iff in E.
      exfalso. exact (Qlt_not_le _ _ Hneg E).
    + intros Hme x Hx.
      destruct (get r "be") as [b|]; [|discriminate Hx].
      destruct (get r "me") as [m|]; [|discriminate Hx].
      unfold flt in E. apply negb_false_iff, Qle_bool_iff in E.
      unfold fdiv in Hx. destruct (Qeq_bool m 0); [discriminate Hx|].
      injection Hx as <-. exists b, m.
      split; [reflexivity|]. split; [reflexivity|]. split; [exact E|].
      split; [reflexivity|]. intros Hm.
      unfold Qdiv. apply Qmult_le_0_compat; [exact E|].
      apply Qinv_le_0_compat. now apply Qlt_le_weak.
Qed.

(** *** The six-month lag and the forward fill *)

Lemma scan_with_app {A B} (f : list A -> A -> B) (b l1 l2 : list A) :
  scan_with f b (l1 ++ l2) = scan_with f b l1 ++ scan_with f (rev l1 ++ b) l2.
Proof.
  revert b. induction l1 as [|x l1 IH]; intros b; [reflexivity|].
  simpl. rewrite IH, <- app_assoc. reflexivity.
Qed.

Lemma scan_with_length {A B} (f : list A -> A -> B) (b l : list A) :
  List.length (scan_with f b l) = List.length l.
Proof.
  revert b. induction l as [|x l IH]; intros b; simpl; [reflexivity|].
  now rewrite IH.
Qed.

Lemma scan_with_at {A B} (f : list A -> A -> B) (l1 l2 : list A) (x : A) :
  nth_error (scan_with f [] (l1 ++ x :: l2)) (List.length l1)
  = Some (f (rev l1) x).
Proof.
  rewrite scan_with_app. simpl scan_with. rewrite app_nil_r.
  rewrite nth_error_app2 by (rewrite scan_with_length; lia).
  rewrite scan_with_length, Nat.sub_diag. reflexivity.
Qed.

Lemma latest_repeat_NaN (n k : nat) : latest n (repeat NaN k) = NaN.
Proof.
  revert k. induction n as [|n IH]; intros [|k]; simpl; try reflexivity.
  apply IH.
Qed.

Lemma latest_app_NaN (n k : nat) (l : list cell) :
  latest n (l ++ repeat NaN k) = latest n l.
Proof.
  revert l. induction n as [|n IH]; intros l; [reflexivity|].
  destruct l as [|[v|] l]; simpl.
  - destruct k; [reflexivity|]. simpl. apply latest_repeat_NaN.
  - reflexivity.
  - apply IH.
Qed.

Lemma nth_in_group_single (k : nat) (p : Z) (before : list (Z * cell)) :
  (forall x, In x before -> fst x = p) ->
  nth_in_group k p before = nth k (map snd before) NaN.
Proof.
  revert k. induction before as [|[p' v] before IH]; intros k H.
  - destruct k; reflexivity.
  - pose proof (H (p', v) (or_introl eq_refl)) as E. cbn [fst] in E. subst p'.
    simpl. rewrite Z.eqb_refl. destruct k; [reflexivity|].
    apply IH. intros x Hx. apply H. now right.
Qed.

Lemma nth_in_group_absent (k : nat) (p : Z) (before : list (Z * cell)) :
  (forall x, In x before -> fst x <> p) -> nth_in_group k p before = NaN.
Proof.
  induction before as [|[p' v] before IH]; intros H; [reflexivity|].
  simpl. destruct (Z.eqb_spec p p') as [->|_].
  - exfalso. now apply (H (p', v) (or_introl eq_refl)).
  - apply IH. intros x Hx. apply H. now right.
Qed.

Lemma skipn_nth_cons {A} (k : nat) (R : list A) (d : A) :
  (k < List.length R)%nat -> nth k R d :: skipn (S k) R = skipn k R.
Proof.
  revert R. induction k as [|k IH]; intros R H.
  - destruct R; [simpl in H; lia | reflexivity].
  - destruct R as [|y R]; [simpl in H; lia|].
    cbn [nth]. change (skipn (S (S k)) (y :: R)) with (skipn (S k) R).
    change (skipn (S k) (y :: R)) with (skipn k R).
    apply IH. simpl in H. lia.
Qed.

Lemma skipn_step {A} (k : nat) (R : list A) (d : A) :
  nth k R d :: skipn (S k) R ++ repeat d (Nat.min (S k) (List.length R))
  = skipn k R ++ repeat d (Nat.min (S k) (S (List.length R))).
Proof.
  destruct (Nat.le_gt_cases (List.length R) k) as [Hle|Hgt].
  - rewrite nth_overflow by lia. rewrite !skipn_all2 by lia.
    replace (Nat.min (S k) (List.length R)) with (List.length R) by lia.
    replace (Nat.min (S k) (S (List.length R))) with (S (List.length R)) by lia.
    reflexivity.
  - replace (Nat.min (S k) (List.length R)) with (S k) by lia.
    replace (Nat.min (S k) (S (List.length R))) with (S k) by lia.
    rewrite <- (skipn_nth_cons k R d Hgt). reflexivity.
Qed.

(** The lagged column of one firm, most recent row first: the values of
    the firm without the six most recent ones, then missing values. *)
Lemma group_shift_n_single (k : nat) (p : Z) (l : list (Z * cell)) :
  (forall x, In x l -> fst x = p) ->
  rev (group_shift_n (S k) l)
  = skipn (S k) (rev (map snd l)) ++ repeat NaN (Nat.min (S k) (List.length l)).
Proof.
  induction l as [|x l IH] using rev_ind; intros H; [reflexivity|].
  unfold group_shift_n in *. rewrite scan_with_app. simpl scan_with.
  rewrite rev_app_distr. simpl rev. simpl app.
  rewrite app_nil_r.
  rewrite IH by (intros y Hy; apply H; apply in_or_app; now left).
  rewrite (H x) by (apply in_or_app; right; now left).
  rewrite nth_in_group_single
    by (intros y Hy; apply H; apply in_or_app; left; now apply in_rev).
  rewrite map_app, rev_app_distr. simpl map. simpl rev. simpl app.
  rewrite map_rev. rewrite length_app. simpl List.length.
  replace (List.length l + 1)%nat with (S (List.length (rev (map snd l))))
    by (rewrite length_rev, length_map; lia).
  replace (List.length l) with (List.length (rev (map snd l)))
    by (rewrite length_rev, length_map; lia).
  cbn [skipn]. apply skipn_step.
Qed.

Lemma shift_and_fill_at (c : string) (before : list Row) (r : Row)
  (after : list Row) :
  nth_error (shift_and_fill c (before ++ r :: after)) (List.length before)
  = Some (match nth_in_group 5 (PERMNO r) (rev (by_permno c before)) with
          | Some v => Some v
          | None => latest 23 (rev (group_shift_n 6 (by_permno c before)))
          end).
Proof.
  unfold shift_and_fill, by_permno. rewrite map_app. simpl map.
  set (S1 := map (fun x => (PERMNO x, get x c)) before).
  unfold group_shift_n at 1. rewrite scan_with_app. simpl scan_with.
  rewrite app_nil_r. cbn [fst].
  fold (group_shift_n 6 S1).
  replace (List.length before) with (List.length (group_shift_n 6 S1))
    by (unfold group_shift_n, S1; now rewrite scan_with_length, length_map).
  unfold ffill. rewrite scan_with_at.
  destruct (nth_in_group 5 (PERMNO r) (rev S1)); reflexivity.
Qed.

(** On the rows of one firm, the value a row receives from
    [groupby(level='PERMNO').shift(6).ffill(limit=23)] is the nearest
    value present among the rows 6 to 29 positions before it: never a
    value of the row itself or of the 5 rows before it, and never one
    that is more than 29 rows old. *)
Theorem accounting_data_lagged_six_rows (c : string) (before : list Row)
  (r : Row) (after : list Row) :
  (forall x, In x before -> PERMNO x = PERMNO r) ->
  nth_error (shift_and_fill c (before ++ r :: after)) (List.length before)
  = Some (latest 24 (skipn 5 (rev (map (fun x => get x c) before)))).
Proof.
  intros H. rewrite shift_and_fill_at. f_equal.
  set (S1 := by_permno c before).
  assert (HS : forall x, In x S1 -> fst x = PERMNO r).
  { intros x Hx. unfold S1, by_permno in Hx. apply in_map_iff in Hx.
    destruct Hx as (y & <- & Hy). cbn [fst]. now apply H. }
  rewrite nth_in_group_single
    by (intros x Hx; apply HS; now apply in_rev).
  rewrite (group_shift_n_single 5 (PERMNO r) S1 HS).
  rewrite latest_app_NaN.
  assert (E : map snd S1 = map (fun x => get x c) before).
  { unfold S1, by_permno. rewrite map_map. reflexivity. }
  rewrite map_rev, E.
  set (R := rev (map (fun x => get x c) before)).
  destruct (Nat.le_gt_cases (List.length R) 5) as [Hle|Hgt].
  - rewrite nth_overflow by lia. rewrite !skipn_all2 by lia. reflexivity.
  - rewrite <- (skipn_nth_cons 5 R NaN Hgt).
    destruct (nth 5 R NaN); reflexivity.
Qed.

Lemma accounting_data_lagged_six_rows_witness :
  nth_error (shift_and_fill "at" Samples.one_firm) 7 = Some (Some 110).
Proof.
  apply (accounting_data_lagged_six_rows "at"
           (firstn 7 Samples.one_firm) (Samples.firm_month 1 7 NaN) []).
  intros x Hx. simpl in Hx.
  repeat (destruct Hx as [<-|Hx]; [reflexivity|]). contradiction.
Defined.

(** The forward fill is applied to the whole frame, not firm by firm:
    the first row of a firm receives the nearest value present among the
    7th to the 29th last rows of the firm listed before it. *)
Theorem forward_fill_crosses_firms (c : string) (before : list Row) (r : Row)
  (after : list Row) (p : Z) :
  (forall x, In x before -> PERMNO x = p) ->
  PERMNO r <> p ->
  nth_error (shift_and_fill c (before ++ r :: after)) (List.length before)
  = Some (latest 23 (skipn 6 (rev (map (fun x => get x c) before)))).
Proof.
  intros H Hne. rewrite shift_and_fill_at. f_equal.
  set (S1 := by_permno c before).
  assert (HS : forall x, In x S1 -> fst x = p).
  { intros x Hx. unfold S1, by_permno in Hx. apply in_map_iff in Hx.
    destruct Hx as (y & <- & Hy). cbn [fst]. now apply H. }
  rewrite nth_in_group_absent.
  2:{ intros x Hx. apply in_rev in Hx. rewrite (HS x Hx). congruence. }
  rewrite (group_shift_n_single 5 p S1 HS).
  rewrite latest_app_NaN.
  unfold S1, by_permno. rewrite map_map. reflexivity.
Qed.

Lemma forward_fill_crosses_firms_witness :
  nth_error (shift_and_fill "at" (Samples.one_firm ++ Samples.next_firm)) 8
  = Some (Some 110).
Proof.
  apply (forward_fill_crosses_firms "at" Samples.one_firm
           (Samples.firm_month 2 0 (Some 500)) [Samples.firm_month 2 1 NaN] 1).
  - intros x Hx. simpl in Hx.
    repeat (destruct Hx as [<-|Hx]; [reflexivity|]). contradiction.
  - discriminate.
Defined.

End CompustatFacts.

(** ** Topic 4: errors and side effects of the two functions *)

Section NotebookEdges.
Import Panel Notebook Topic4.
Local Open Scope string_scope.
Local Open Scope list_scope.

(** Without percentiles the loop never binds [df_merged]: the call
    raises NameError (an UnboundLocalError) after the id column of the
    caller's frame has been overwritten with missing values, and touches
    nothing else. *)
Theorem portfolio_sort_without_percentiles (st : State) (df : addr)
  (col id_col : string) (nyse annual : bool) :
  exists st',
    run (portfolio_sort df col nyse [] id_col annual) st = (Raise NameError, st') /\
    heap st' df = set_column id_col NaN (heap st df) /\
    same_except df st st'.
Proof.
  rewrite portfolio_sort_unfold. cbv zeta.
  eexists. split; [reflexivity|]. split.
  - apply modify_heap.
  - apply modify_same_except.
Qed.

Lemma apply_percentile_raises (grp : list (Z * list Q)) (q : Q) (e : exn) :
  apply_percentile grp q = Raise e -> e = ValueError.
Proof.
  unfold apply_percentile. induction grp as [|g grp IH]; simpl; [discriminate|].
  unfold np_percentile at 1.
  destruct (Qle_bool 0 q && Qle_bool q 100); cbn [Py.bind].
  - destruct (mapM _ grp) as [bs|e']; cbn [Py.bind]; [discriminate|].
    intros H. injection H as <-. now apply IH.
  - intros H. now injection H as <-.
Qed.

Lemma apply_percentile_out_of_range (grp : list (Z * list Q)) (q : Q) :
  grp <> [] -> q < 0 \/ 100 < q -> apply_percentile grp q = Raise ValueError.
Proof.
  intros Hne Hq. destruct grp as [|g grp]; [contradiction|].
  unfold apply_percentile. simpl. unfold np_percentile.
  assert (E : Qle_bool 0 q && Qle_bool q 100 = false).
  { apply andb_false_iff. destruct Hq as [Hq|Hq]; [left|right];
      apply not_true_is_false; intros H; apply Qle_bool_iff in H;
      exact (Qlt_not_le _ _ Hq H). }
  rewrite E. reflexivity.
Qed.

Lemma compute_breakpoints_out_of_range (D : DataFrame) (col : string)
  (nyse : bool) (pcts : list Q) (q : Q) :
  sort_universe col nyse D <> [] -> In q pcts -> q < 0 \/ 100 < q ->
  compute_breakpoints D col nyse pcts = Raise ValueError.
Proof.
  intros Hne Hin Hq. unfold compute_breakpoints.
  induction pcts as [|p pcts IH]; [contradiction|].
  simpl. destruct (apply_percentile (sort_universe col nyse D) p) as [b|e] eqn:E;
    cbn [Py.bind].
  - destruct Hin as [->|Hin].
    + rewrite (apply_percentile_out_of_range _ q Hne Hq) in E. discriminate.
    + rewrite (IH Hin). reflexivity.
  - now rewrite (apply_percentile_raises _ _ _ E).
Qed.

(** A percentile outside [0, 100] makes the call raise ValueError, at
    whatever place of the list it stands, as soon as one month has a
    value to sort on. *)
Theorem portfolio_sort_percentile_out_of_range (st : State) (df : addr)
  (col id_col : string) (nyse annual : bool) (pcts : list Q) (q : Q) :
  sort_universe col nyse (heap st df) <> [] ->
  In q pcts -> q < 0 \/ 100 < q ->
  fst (run (portfolio_sort df col nyse pcts id_col annual) st) = Raise ValueError.
Proof.
  intros Hne Hin Hq.
  pose proof (portfolio_sort_run df col id_col nyse pcts annual st) as H.
  rewrite (compute_breakpoints_out_of_range _ col nyse pcts q Hne Hin Hq) in H.
  exact H.
Qed.

Lemma portfolio_sort_percentile_out_of_range_witness :
  fst (run (portfolio_sort 0%nat "me" true [50; 120] "me_group" false)
           (Examples.notebook Examples.three_stocks)) = Raise ValueError.
Proof.
  apply (portfolio_sort_percentile_out_of_range
           (Examples.notebook Examples.three_stocks) 0%nat "me" "me_group"
           true false [50; 120] 120).
  - discriminate.
  - right. now left.
  - right. reflexivity.
Defined.

(** *** What compute_portfolio_returns leaves in the caller's frame *)

Lemma assoc_set_present c v (l : list (string * cell)) :
  In c (map fst l) -> assoc c l = v -> assoc_set c v l = l.
Proof.
  induction l as [|[k x] l IH]; intros Hin Hv; [contradiction|].
  simpl in *. destruct (String.eqb_spec k c) as [->|Hk].
  - now subst.
  - f_equal. apply IH; [|exact Hv]. destruct Hin as [E|Hin]; [contradiction|exact Hin].
Qed.

Lemma assoc_set_keys c v k (l : list (string * cell)) :
  In k (map fst l) \/ k = c -> In k (map fst (assoc_set c v l)).
Proof.
  induction l as [|[k' x] l IH]; simpl.
  - intros [H|H]; [contradiction | now left].
  - destruct (String.eqb_spec k' c) as [E|Hk]; simpl.
    + intros [[H|H]|H]; subst; auto.
    + intros [[H|H]|H]; subst; auto.
Qed.

Lemma set_again (c1 c2 : string) (a b : cell) (r : Row) :
  c1 <> c2 ->
  set c2 b (set c1 a (set c2 b (set c1 a r))) = set c2 b (set c1 a r).
Proof.
  intros Hne. unfold set at 1 2. cbn [PERMNO date cols].
  set (r2 := set c2 b (set c1 a r)).
  assert (H1 : assoc_set c1 a (cols r2) = cols r2).
  { apply assoc_set_present.
    - unfold r2, set. cbn [cols]. apply assoc_set_keys. left.
      apply assoc_set_keys. now right.
    - change (get r2 c1 = a). unfold r2.
      rewrite get_set_other by (intros E; apply Hne; now symmetry).
      apply get_set_same. }
  rewrite H1.
  assert (H2 : assoc_set c2 b (cols r2) = cols r2).
  { apply assoc_set_present.
    - unfold r2, set. cbn [cols]. apply assoc_set_keys. now right.
    - change (get r2 c2 = b). unfold r2. apply get_set_same. }
  rewrite H2. destruct r2; reflexivity.
Qed.

Lemma by_permno_with_next_return (c : string) (l : DataFrame) :
  c <> "retnm" -> c <> "me_x_retnm" ->
  by_permno c (with_next_return l) = by_permno c l.
Proof.
  intros H1 H2. induction l as [|r l IH]; [reflexivity|].
  rewrite with_next_return_cons. unfold by_permno in *. cbn [map].
  rewrite IH. rewrite !PERMNO_set.
  rewrite !get_set_other by (intros E; symmetry in E; contradiction).
  reflexivity.
Qed.

Lemma with_next_return_idempotent (l : DataFrame) :
  with_next_return (with_next_return l) = with_next_return l.
Proof.
  induction l as [|r l IH]; [reflexivity|].
  rewrite with_next_return_cons. rewrite with_next_return_cons.
  rewrite IH. f_equal.
  rewrite by_permno_with_next_return by discriminate.
  rewrite !PERMNO_set. rewrite !get_set_other by discriminate.
  apply set_again. discriminate.
Qed.

(** [compute_portfolio_returns] writes the columns [retnm] and
    [me_x_retnm] into the caller's frame and changes no other column, no
    label and no other object; a second call returns the same frame of
    portfolio returns and leaves the caller's frame as the first call
    left it. *)
Theorem compute_portfolio_returns_twice (st : State) (df : addr)
  (sort_groups : list string) :
  exists st1 st2 out,
    run (compute_portfolio_returns df sort_groups) st = (Return out, st1) /\
    run (compute_portfolio_returns df sort_groups) st1 = (Return out, st2) /\
    same_except df st st1 /\
    heap st2 df = heap st1 df /\
    Forall2 (fun r r' =>
               label r' = label r /\
               forall c, c <> "retnm" -> c <> "me_x_retnm" -> get r' c = get r c)
            (heap st df) (heap st1 df).
Proof.
  destruct (compute_portfolio_returns_run df sort_groups st)
    as (st1 & Hrun1 & Hheap1 & Hsame1).
  destruct (compute_portfolio_returns_run df sort_groups st1)
    as (st2 & Hrun2 & Hheap2 & Hsame2).
  exists st1, st2. eexists. split; [exact Hrun1|].
  split.
  { rewrite Hrun2. f_equal. f_equal. rewrite Hheap1.
    destruct Hsame1 as [_ Hsv]. rewrite Hsv.
    unfold aggregate_weighted_returns. now rewrite with_next_return_idempotent. }
  split; [exact Hsame1|].
  split; [rewrite Hheap2, Hheap1; apply with_next_return_idempotent|].
  rewrite Hheap1.
  eapply Forall2_impl; [|apply with_next_return_Forall2].
  intros r r' (v & w & ->). split; [reflexivity|].
  intros c H1 H2.
  rewrite !get_set_other by (intros E; symmetry in E; contradiction).
  reflexivity.
Qed.

End NotebookEdges.

(** ** Percentiles lie within the sample *)

Section PercentileBounds.
Import Panel.
Local Open Scope list_scope.

Lemma insert_sorted_In (x y : Q) (l : list Q) :
  In y (insert_sorted x l) <-> y = x \/ In y l.
Proof.
  induction l as [|z l IH]; simpl; [intuition|].
  destruct (Qle_bool x z); simpl; [intuition|]. rewrite IH. intuition.
Qed.

Lemma sort_In (y : Q) (l : list Q) : In y (sort l) <-> In y l.
Proof.
  induction l as [|x l IH]; simpl; [tauto|].
  unfold sort in *. simpl. rewrite insert_sorted_In, IH. intuition.
Qed.

Lemma insert_sorted_length (x : Q) (l : list Q) :
  List.length (insert_sorted x l) = S (List.length l).
Proof.
  induction l as [|z l IH]; simpl; [reflexivity|].
  destruct (Qle_bool x z); simpl; [reflexivity | now rewrite IH].
Qed.

Lemma sort_length (l : list Q) : List.length (sort l) = List.length l.
Proof.
  induction l as [|x l IH]; [reflexivity|].
  unfold sort in *. simpl. now rewrite insert_sorted_length, IH.
Qed.

Lemma insert_sorted_sorted (x : Q) (l : list Q) :
  StronglySorted Qle l -> StronglySorted Qle (insert_sorted x l).
Proof.
  induction 1 as [|z l Hs IH Hall]; simpl.
  - constructor; [constructor | constructor].
  - destruct (Qle_bool x z) eqn:E.
    + apply Qle_bool_iff in E. constructor.
      * constructor; assumption.
      * constructor; [exact E|].
        eapply Forall_impl; [|exact Hall]. intros a Ha. eapply Qle_trans; eassumption.
    + assert (Hzx : z <= x).
      { apply Qlt_le_weak, Qnot_le_lt. intros H. apply Qle_bool_iff in H.
        congruence. }
      constructor; [exact IH|].
      apply Forall_forall. intros a Ha. apply insert_sorted_In in Ha.
      destruct Ha as [->|Ha]; [exact Hzx|].
      rewrite Forall_forall in Hall. now apply Hall.
Qed.

Lemma sort_sorted (l : list Q) : StronglySorted Qle (sort l).
Proof.
  induction l as [|x l IH]; [constructor|].
  unfold sort in *. simpl. now apply insert_sorted_sorted.
Qed.

Lemma sorted_nth_le (s : list Q) (i j : nat) :
  StronglySorted Qle s -> (i <= j)%nat -> (j < List.length s)%nat ->
  nth i s 0 <= nth j s 0.
Proof.
  intros Hs. revert i j. induction Hs as [|z l Hs IH Hall]; intros i j Hij Hj.
  - simpl in Hj. lia.
  - destruct i as [|i], j as [|j]; simpl in *.
    + apply Qle_refl.
    + rewrite Forall_forall in Hall. apply Hall. apply nth_In. lia.
    + lia.
    + apply IH; lia.
Qed.

(** A percentile between 0 and 100 of a non-empty sample lies between
    the smallest and the largest value of the sample. *)
Lemma interpolate_between (x : list Q) (q : Q) :
  x <> [] -> 0 <= q <= 100 ->
  exists v lo hi,
    interpolate x q = Some v /\ In lo x /\ In hi x /\
    (forall y, In y x -> lo <= y <= hi) /\
    lo <= v <= hi.
Proof.
  intros Hne [Hq0 Hq1].
  set (s := sort x). set (n := List.length x).
  assert (Hn : (1 <= n)%nat) by (unfold n; destruct x; [contradiction|simpl; lia]).
  assert (Hlen : List.length s = n) by apply sort_length.
  pose proof (sort_sorted x) as Hs. fold s in Hs.
  set (vi := q / 100 * (Qlen x - 1)).
  assert (HQlen : Qlen x == inject_Z (Z.of_nat n)) by reflexivity.
  assert (Hn1 : 0 <= Qlen x - 1).
  { rewrite HQlen. unfold Qle. simpl. lia. }
  assert (Hvi0 : 0 <= vi).
  { unfold vi. apply Qmult_le_0_compat; [|exact Hn1].
    unfold Qdiv. apply Qmult_le_0_compat; [exact Hq0|discriminate]. }
  assert (Hvi1 : vi <= Qlen x - 1).
  { unfold vi. rewrite <- (Qmult_1_l (Qlen x - 1)) at 2.
    apply Qmult_le_compat_r; [|exact Hn1].
    apply Qle_shift_div_r; [reflexivity|]. rewrite Qmult_1_l. exact Hq1. }
  set (fl := Qfloor vi).
  assert (Hfl0 : (0 <= fl)%Z).
  { unfold fl. change 0%Z with (Qfloor 0). now apply Qfloor_resp_le. }
  assert (Hfl1 : (fl <= Z.of_nat n - 1)%Z).
  { unfold fl. rewrite <- (Qfloor_Z (Z.of_nat n - 1)). apply Qfloor_resp_le.
    unfold Z.sub. rewrite inject_Z_plus, inject_Z_opp. exact Hvi1. }
  set (prev := Z.to_nat fl).
  set (next := Nat.min (prev + 1) (n - 1)).
  assert (Hprev : (prev <= n - 1)%nat) by (unfold prev; lia).
  assert (Hpn : (prev <= next)%nat) by (unfold next; lia).
  assert (Hnext : (next <= n - 1)%nat) by (unfold next; lia).
  set (gamma := vi - inject_Z fl).
  assert (Hg0 : 0 <= gamma).
  { unfold gamma, fl. pose proof (Qfloor_le vi). lra. }
  assert (Hg1 : gamma <= 1).
  { unfold gamma, fl. pose proof (Qlt_floor vi) as H.
    rewrite inject_Z_plus in H. change (inject_Z 1) with 1 in H. lra. }
  exists (nth prev s 0 + gamma * (nth next s 0 - nth prev s 0)),
         (nth 0 s 0), (nth (n - 1) s 0).
  split.
  { unfold interpolate. destruct x as [|x0 x']; [contradiction|]. reflexivity. }
  split; [apply (sort_In _ x); fold s; apply nth_In; lia|].
  split; [apply (sort_In _ x); fold s; apply nth_In; lia|].
  split.
  { intros y Hy. apply (sort_In y x) in Hy. fold s in Hy.
    destruct (In_nth s y 0 Hy) as (k & Hk & <-).
    split; apply sorted_nth_le; try assumption; lia. }
  assert (Hab : nth prev s 0 <= nth next s 0)
    by (apply sorted_nth_le; try assumption; lia).
  assert (H0p : nth 0 s 0 <= nth prev s 0)
    by (apply sorted_nth_le; try assumption; lia).
  assert (Hnl : nth next s 0 <= nth (n - 1) s 0)
    by (apply sorted_nth_le; try assumption; lia).
  set (a := nth prev s 0) in *. set (b := nth next s 0) in *.
  assert (Hd : 0 <= gamma * (b - a)).
  { apply Qmult_le_0_compat; [exact Hg0|]. lra. }
  assert (Hd1 : gamma * (b - a) <= b - a).
  { rewrite <- (Qmult_1_l (b - a)) at 2. apply Qmult_le_compat_r; [exact Hg1|]. lra. }
  split; lra.
Qed.

End PercentileBounds.

(** ** Breakpoints within the cross-section; the two sides of the
       reversal strategy *)

Section BreakpointBounds.
Import Panel Topic4.
Local Open Scope string_scope.
Local Open Scope list_scope.

(** Every breakpoint of a month lies between the smallest and the
    largest sort value of that month's cross-section (NYSE stocks when
    [nyse]). *)
Theorem breakpoints_within_cross_section (df : DataFrame) (col : string)
  (nyse : bool) (pcts : list Q) :
  Forall (fun q => 0 <= q <= 100) pcts ->
  exists bps,
    compute_breakpoints df col nyse pcts = Return bps /\
    forall d,
      cross_section df col nyse d <> [] ->
      Forall (fun b =>
                exists v lo hi,
                  b = Some v /\
                  In lo (cross_section df col nyse d) /\
                  In hi (cross_section df col nyse d) /\
                  (forall y, In y (cross_section df col nyse d) -> lo <= y <= hi) /\
                  lo <= v <= hi)
             (breakpoints_at bps d).
Proof.
  intros Hr. destruct (compute_breakpoints_spec df col nyse pcts Hr) as (bps & Hb & Hat).
  exists bps. split; [exact Hb|]. intros d Hne. rewrite Hat.
  apply Forall_forall. intros b Hin. apply in_map_iff in Hin.
  destruct Hin as (q & <- & Hq). rewrite Forall_forall in Hr.
  destruct (interpolate_between _ q Hne (Hr q Hq)) as (v & lo & hi & Hv & H).
  exists v, lo, hi. split; [exact Hv | exact H].
Qed.

Lemma breakpoints_within_cross_section_witness :
  exists bps,
    compute_breakpoints Examples.three_stocks "me" true [30; 70] = Return bps /\
    forall d,
      cross_section Examples.three_stocks "me" true d <> [] ->
      Forall (fun b =>
                exists v lo hi,
                  b = Some v /\
                  In lo (cross_section Examples.three_stocks "me" true d) /\
                  In hi (cross_section Examples.three_stocks "me" true d) /\
                  (forall y, In y (cross_section Examples.three_stocks "me" true d) ->
                             lo <= y <= hi) /\
                  lo <= v <= hi)
             (breakpoints_at bps d).
Proof.
  apply (breakpoints_within_cross_section Examples.three_stocks "me" true [30; 70]).
  repeat constructor; unfold Qle; simpl; lia.
Defined.

End BreakpointBounds.

Section ReversalSides.
Import Panel Topic2.
Local Open Scope string_scope.
Local Open Scope list_scope.

Lemma dropna_In (l : list cell) (q : Q) : In q (dropna l) <-> In (Some q) l.
Proof.
  unfold dropna. rewrite in_flat_map. split.
  - intros ([x|] & Hx & Hq); simpl in Hq; [|contradiction].
    destruct Hq as [->|[]]. exact Hx.
  - intros H. exists (Some q). split; [exact H | now left].
Qed.

Lemma weights_sum (ind : Row -> bool) (L : list Row) (c : Q) :
  c == sumq (fun r => if ind r then 1 else 0) L -> ~ c == 0 ->
  Qsum (dropna (map (fun r => fdiv (of_bool (ind r)) (Some c)) L)) == 1.
Proof.
  intros Hc Hne.
  assert (E : Qeq_bool c 0 = false).
  { destruct (Qeq_bool c 0) eqn:E; [|reflexivity].
    apply Qeq_bool_iff in E. contradiction. }
  rewrite (map_ext _ (fun r => Some ((if ind r then 1 else 0) / c))).
  2:{ intros r. unfold fdiv, of_bool. now rewrite E. }
  rewrite dropna_map_Some.
  change (Qsum (map (fun r => (if ind r then 1 else 0) / c) L))
    with (sumq (fun r => (if ind r then 1 else 0) / c) L).
  unfold Qdiv. rewrite sumq_scale_r, <- Hc. field. exact Hne.
Qed.

Lemma side_weights_sum (bp : list (Z * cell) * list (Z * cell))
  (ind : Row -> bool) (c : string) (df : DataFrame) (d : Z) (r0 : Row) :
  (forall r, get (weighted bp df r) c
             = fdiv (of_bool (ind r)) (Some (count_at ind df (date r)))) ->
  In r0 df -> date r0 = d -> ind r0 = true ->
  cell_eq (sum_by_date c (map (weighted bp df) df) d) (Some 1).
Proof.
  intros Hget Hin Hd Hind. unfold sum_by_date. cbn [cell_eq].
  rewrite filter_date_map by reflexivity. rewrite map_map.
  rewrite (map_ext_in _ (fun r => fdiv (of_bool (ind r)) (Some (count_at ind df d)))).
  2:{ intros r Hr. apply filter_In in Hr. destruct Hr as [_ Hr].
      apply Z.eqb_eq in Hr. rewrite Hget, Hr. reflexivity. }
  apply weights_sum; [reflexivity|].
  intros E. pose proof (count_at_pos ind df r0 Hin Hind) as Hc.
  rewrite Hd, E in Hc. apply (Qlt_not_le 0 1); [reflexivity | exact Hc].
Qed.

(** In every month that has a return, at least one stock is in the long
    portfolio and at least one in the short portfolio, and the equal
    weights of each side add up to one, as the notebook checks by
    eye. *)
Theorem reversal_weights_sum_to_one (df : DataFrame) (d : Z) :
  (exists r, In r df /\ date r = d /\ get r "ret" <> NaN) ->
  exists bp prepared,
    breakpoints df = Return bp /\
    prepare df = Return prepared /\
    (exists r, In r df /\ date r = d /\ long_indicator bp r = true) /\
    (exists r, In r df /\ date r = d /\ short_indicator bp r = true) /\
    cell_eq (sum_by_date "long" prepared d) (Some 1) /\
    cell_eq (sum_by_date "short" prepared d) (Some 1).
Proof.
  intros (r0 & Hin0 & Hd0 & Hret0).
  destruct (breakpoints_returns df) as (bp & Hbp & Hpct).
  exists bp, (map (weighted bp df) df).
  split; [exact Hbp|]. split; [apply prepare_rowwise; exact Hbp|].
  specialize (Hpct d). cbv zeta in Hpct. destruct Hpct as [H10 H90].
  set (xs := dropna (map (fun r => get r "ret")
                         (filter (fun r => Z.eqb (date r) d) df))) in *.
  assert (Hne : xs <> []).
  { destruct (get r0 "ret") as [q|] eqn:E; [|contradiction].
    assert (Hq : In q xs).
    { unfold xs. apply dropna_In. rewrite <- E.
      apply (in_map (fun r => get r "ret")). apply filter_In.
      split; [exact Hin0 | now apply Z.eqb_eq]. }
    intros Hnil. rewrite Hnil in Hq. contradiction. }
  assert (Hrow : forall q, In q xs ->
            exists r, In r df /\ date r = d /\ get r "ret" = Some q).
  { intros q Hq. unfold xs in Hq. apply dropna_In in Hq.
    apply in_map_iff in Hq. destruct Hq as (r & Hr & Hf).
    apply filter_In in Hf. destruct Hf as [Hf Hdt]. apply Z.eqb_eq in Hdt.
    exists r. auto. }
  destruct (interpolate_between xs 10 Hne) as (v1 & lo1 & hi1 & Hv1 & Hlo1 & _ & _ & Hb1).
  { split; unfold Qle; simpl; lia. }
  destruct (interpolate_between xs 90 Hne) as (v9 & lo9 & hi9 & Hv9 & _ & Hhi9 & _ & Hb9).
  { split; unfold Qle; simpl; lia. }
  destruct (Hrow lo1 Hlo1) as (rl & Hinl & Hdl & Hretl).
  destruct (Hrow hi9 Hhi9) as (rs & Hins & Hds & Hrets).
  assert (Hlong : long_indicator bp rl = true).
  { unfold long_indicator. rewrite Hretl, Hdl, H10, Hv1. apply fle_Some. tauto. }
  assert (Hshort : short_indicator bp rs = true).
  { unfold short_indicator, fge. rewrite Hrets, Hds, H90, Hv9. apply fle_Some. tauto. }
  split; [exists rl; auto|]. split; [exists rs; auto|].
  split.
  - apply (side_weights_sum bp (long_indicator bp) "long" df d rl);
      [apply weighted_long | assumption..].
  - apply (side_weights_sum bp (short_indicator bp) "short" df d rs);
      [apply weighted_short | assumption..].
Qed.

Lemma reversal_weights_sum_to_one_witness :
  exists bp prepared,
    breakpoints Examples.three_stocks = Return bp /\
    prepare Examples.three_stocks = Return prepared /\
    (exists r, In r Examples.three_stocks /\ date r = 2%Z /\
               long_indicator bp r = true) /\
    (exists r, In r Examples.three_stocks /\ date r = 2%Z /\
               short_indicator bp r = true) /\
    cell_eq (sum_by_date "long" prepared 2) (Some 1) /\
    cell_eq (sum_by_date "short" prepared 2) (Some 1).
Proof.
  apply (reversal_weights_sum_to_one Examples.three_stocks 2).
  exists (Examples.stock 1 2 (Some 1) (Some 11) (Some (2#100))).
  split; [right; left; reflexivity|]. split; [reflexivity|discriminate].
Defined.

End ReversalSides.

(** ** Running the sort a second time *)

Section SortTwice.
Import Panel Notebook Topic4.
Local Open Scope string_scope.
Local Open Scope list_scope.

Variables (col id_col : string).
Hypothesis col_id : col <> id_col.
Hypothesis exch_id : id_col <> "EXCHCD".

(** The sorted frame differs from the frame it was computed from in the
    id column only. *)
Lemma keep_june_and_carry_rel (M : DataFrame) :
  Forall2 (fun r r' => exists v, r' = set id_col v r) M
          (keep_june_and_carry id_col M).
Proof.
  unfold keep_june_and_carry.
  set (m := mask_assign (fun r => negb (Z.eqb (month (date r)) 6)) id_col NaN M).
  assert (Hlen : List.length (group_ffill 11 (by_permno id_col m)) = List.length M).
  { rewrite group_ffill_length. unfold by_permno, m, mask_assign.
    now rewrite !length_map. }
  revert Hlen. generalize (group_ffill 11 (by_permno id_col m)). unfold m.
  clear m. induction M as [|r M IH]; intros [|v s] Hlen; simpl in *;
    try discriminate; constructor.
  - exists v. destruct (negb (Z.eqb (month (date r)) 6));
      [apply set_set | reflexivity].
  - apply IH. lia.
Qed.

Lemma sorted_frame_rel (D : DataFrame) (bps : list (list (Z * cell)))
  (annual : bool) :
  Forall2 (fun r r' => exists v, r' = set id_col v r) D
          (let monthly :=
             map (fun r => set id_col
                             (bucket_rule 1 (get r col) (breakpoints_at bps (date r)))
                             r) D in
           if annual then keep_june_and_carry id_col monthly else monthly).
Proof.
  cbv zeta.
  set (monthly := map _ D).
  assert (H1 : Forall2 (fun r r' => exists v, r' = set id_col v r) D monthly).
  { apply Forall2_map_right. intros r _. now eexists. }
  destruct annual; [|exact H1].
  eapply Forall2_impl;
    [|exact (Forall2_compose _ _ _ _ _ H1 (keep_june_and_carry_rel monthly))].
  intros r r' (r1 & (v & ->) & (w & ->)). exists w. apply set_set.
Qed.

Lemma sort_universe_rel (nyse : bool) (D D1 : DataFrame) :
  Forall2 (fun r r' => exists v, r' = set id_col v r) D D1 ->
  sort_universe col nyse D1 = sort_universe col nyse D.
Proof.
  intros H. unfold sort_universe. do 2 f_equal.
  assert (Hrow : forall r v, (date (set id_col v r), get (set id_col v r) col)
                             = (date r, get r col)).
  { intros r v. rewrite date_set.
    rewrite get_set_other by (intros E; apply col_id; now symmetry).
    reflexivity. }
  induction H as [|r r' D D1 (v & ->) _ IH]; [now destruct nyse|].
  destruct nyse.
  - cbn [filter]. rewrite get_set_other by exact exch_id.
    destruct (feq (get r "EXCHCD") (Some 1)); [|exact IH].
    cbn [map]. rewrite IH, Hrow. reflexivity.
  - cbn [map]. rewrite IH, Hrow. reflexivity.
Qed.

Lemma monthly_rel (D D1 : DataFrame) (bps : list (list (Z * cell))) :
  Forall2 (fun r r' => exists v, r' = set id_col v r) D D1 ->
  map (fun r => set id_col
                    (bucket_rule 1 (get r col) (breakpoints_at bps (date r))) r) D1
  = map (fun r => set id_col
                      (bucket_rule 1 (get r col) (breakpoints_at bps (date r))) r) D.
Proof.
  induction 1 as [|r r' D D1 (v & ->) _ IH]; [reflexivity|].
  cbn [map]. rewrite IH, date_set, set_set.
  rewrite get_set_other by (intros E; apply col_id; now symmetry).
  reflexivity.
Qed.

Lemma labels_rel (D D1 : DataFrame) :
  Forall2 (fun r r' => exists v, r' = set id_col v r) D D1 ->
  map label D1 = map label D.
Proof.
  induction 1 as [|r r' D D1 (v & ->) _ IH]; [reflexivity|].
  cbn [map]. rewrite IH. unfold label. now rewrite PERMNO_set, date_set.
Qed.

(** On a frame with unique labels, a sort column other than the id
    column, an id column other than [EXCHCD] and percentiles within
    [0, 100], running [portfolio_sort] a second time with the same
    arguments leaves the frame as the first run left it. *)
Theorem portfolio_sort_twice (st : State) (df : addr) (nyse annual : bool)
  (pcts : list Q) :
  NoDup (map label (heap st df)) ->
  pcts <> [] ->
  Forall (fun q => 0 <= q <= 100) pcts ->
  exists st1 st2,
    run (portfolio_sort df col nyse pcts id_col annual) st = (Return df, st1) /\
    run (portfolio_sort df col nyse pcts id_col annual) st1 = (Return df, st2) /\
    heap st2 df = heap st1 df /\
    same_except df st st2.
Proof.
  intros Hnd Hne Hr.
  set (D := heap st df).
  destruct (compute_breakpoints_spec D col nyse pcts Hr) as (bps & Hb & Hat).
  assert (Hbne : bps <> []).
  { intros E. specialize (Hat 0%Z). rewrite E in Hat. simpl in Hat.
    destruct pcts; [contradiction | discriminate]. }
  pose proof (portfolio_sort_run df col id_col nyse pcts annual st) as H1.
  fold D in H1. rewrite Hb in H1. cbn [Py.bind] in H1.
  rewrite (assign_buckets_rowwise col id_col col_id D bps annual Hnd Hbne) in H1.
  destruct H1 as (st1 & Hrun1 & Hheap1 & Hsame1).
  assert (Hrel : Forall2 (fun r r' => exists v, r' = set id_col v r) D
                         (heap st1 df)).
  { rewrite Hheap1. apply sorted_frame_rel. }
  pose proof (portfolio_sort_run df col id_col nyse pcts annual st1) as H2.
  assert (Hb1 : compute_breakpoints (heap st1 df) col nyse pcts = Return bps).
  { unfold compute_breakpoints. rewrite (sort_universe_rel nyse D _ Hrel).
    exact Hb. }
  rewrite Hb1 in H2. cbn [Py.bind] in H2.
  assert (Hnd1 : NoDup (map label (heap st1 df))).
  { rewrite (labels_rel D _ Hrel). exact Hnd. }
  rewrite (assign_buckets_rowwise col id_col col_id _ bps annual Hnd1 Hbne) in H2.
  destruct H2 as (st2 & Hrun2 & Hheap2 & Hsame2).
  exists st1, st2. split; [exact Hrun1|]. split; [exact Hrun2|].
  split.
  - rewrite Hheap2. cbv zeta. rewrite (monthly_rel D _ bps Hrel).
    symmetry. exact Hheap1.
  - eapply same_except_trans; eassumption.
Qed.

End SortTwice.

Section SortTwiceWitness.
Import Panel Notebook Topic4.
Local Open Scope string_scope.

Lemma portfolio_sort_twice_witness :
  exists st1 st2,
    run (portfolio_sort 0%nat "me" true [50] "me_group" true)
        (Examples.notebook Examples.june_small_first) = (Return 0%nat, st1) /\
    run (portfolio_sort 0%nat "me" true [50] "me_group" true) st1
    = (Return 0%nat, st2) /\
    heap st2 0%nat = heap st1 0%nat /\
    same_except 0%nat (Examples.notebook Examples.june_small_first) st2.
Proof.
  apply (portfolio_sort_twice "me" "me_group").
  - discriminate.
  - discriminate.
  - apply dates_increasing_NoDup. vm_compute. reflexivity.
  - discriminate.
  - repeat constructor; unfold Qle; simpl; lia.
Defined.

End SortTwiceWitness.

(** ** Ranks and linear weights *)

Section RankFacts.
Import LinearWeights.

Lemma count_sumq (p : Q -> bool) (l : list Q) :
  count p l == sumq (fun b => if p b then 1 else 0) l.
Proof.
  unfold count. induction l as [|b l IH]; [reflexivity|].
  rewrite sumq_cons. cbn [filter]. destruct (p b).
  - rewrite Qlen_cons, IH. reflexivity.
  - rewrite IH. ring.
Qed.

Lemma rank_of_sumq (vals : list Q) (a : Q) :
  rank_of vals a == sumq (fun c => below a c + tied a c * (1 # 2)) vals + (1 # 2).
Proof.
  unfold rank_of. rewrite !count_sumq, sumq_add.
  rewrite (sumq_scale_r (1 # 2) (tied a) vals).
  unfold below, tied. field.
Qed.

Lemma below_cases (a c : Q) :
  (c < a /\ below a c = 1) \/ (a <= c /\ below a c = 0).
Proof.
  unfold below. destruct (Qle_bool a c) eqn:E.
  - right. split; [now apply Qle_bool_iff | reflexivity].
  - left. split; [|reflexivity]. apply Qnot_le_lt. intros H.
    apply Qle_bool_iff in H. congruence.
Qed.

Lemma tied_cases (a c : Q) :
  (c == a /\ tied a c = 1) \/ (~ c == a /\ tied a c = 0).
Proof.
  unfold tied. destruct (Qeq_bool c a) eqn:E.
  - left. split; [now apply Qeq_bool_iff | reflexivity].
  - right. split; [|reflexivity]. intros H. apply Qeq_bool_iff in H.
    congruence.
Qed.

Ltac rank_cases a c :=
  destruct (below_cases a c) as [[? ->]|[? ->]];
  destruct (tied_cases a c) as [[? ->]|[? ->]].

Lemma sumq_le {A} (f g : A -> Q) (l : list A) :
  (forall x, In x l -> f x <= g x) -> sumq f l <= sumq g l.
Proof.
  induction l as [|a l IH]; intros H; [apply Qle_refl|].
  rewrite !sumq_cons. apply Qplus_le_compat.
  - apply H. now left.
  - apply IH. intros x Hx. apply H. now right.
Qed.

Lemma sumq_lt {A} (f g : A -> Q) (l : list A) (a : A) :
  (forall x, In x l -> f x <= g x) -> In a l -> f a < g a ->
  sumq f l < sumq g l.
Proof.
  induction l as [|b l IH]; intros H Hin Hlt; [contradiction|].
  rewrite !sumq_cons. destruct Hin as [->|Hin].
  - apply Qplus_lt_le_compat; [exact Hlt|].
    apply sumq_le. intros x Hx. apply H. now right.
  - assert (H1 : f b <= g b) by (apply H; now left).
    assert (H2 : sumq f l < sumq g l).
    { apply IH; [|exact Hin | exact Hlt]. intros x Hx. apply H. now right. }
    lra.
Qed.

Lemma weight_mono (a b c : Q) :
  a <= b -> below a c + tied a c * (1 # 2) <= below b c + tied b c * (1 # 2).
Proof.
  intros Hab. rank_cases a c; rank_cases b c; lra.
Qed.

Lemma rank_of_mono (vals : list Q) (a b : Q) :
  a <= b -> rank_of vals a <= rank_of vals b.
Proof.
  intros Hab. rewrite !rank_of_sumq. apply Qplus_le_compat; [|apply Qle_refl].
  apply sumq_le. intros c _. now apply weight_mono.
Qed.

Lemma rank_of_strict (vals : list Q) (a b : Q) :
  In a vals -> a < b -> rank_of vals a < rank_of vals b.
Proof.
  intros Hin Hab. rewrite !rank_of_sumq.
  apply Qplus_lt_le_compat; [|apply Qle_refl].
  apply (sumq_lt _ _ vals a).
  - intros c _. apply weight_mono. lra.
  - exact Hin.
  - rank_cases a a; rank_cases b a; lra.
Qed.

Lemma dropna_rank (x : list cell) :
  dropna (rank x) = map (rank_of (dropna x)) (dropna x).
Proof.
  unfold rank. generalize (rank_of (dropna x)) as f. intros f.
  induction x as [|[q|] x IH]; [reflexivity| |exact IH].
  cbn [map option_map]. rewrite !dropna_Some. cbn [map]. now rewrite IH.
Qed.

Lemma fold_min_spec (a : Q) (l : list Q) :
  In (fold_right Qmin a l) (a :: l) /\
  forall c, In c (a :: l) -> fold_right Qmin a l <= c.
Proof.
  induction l as [|b l [IHin IHle]].
  - split; [now left|]. intros c [<-|[]]. apply Qle_refl.
  - cbn [fold_right]. split.
    + unfold Qmin at 1, GenericMinMax.gmin.
      destruct (b ?= fold_right Qmin a l).
      * right. now left.
      * right. now left.
      * destruct IHin as [H|H]; [now left | right; now right].
    + intros c [<-|[<-|H]].
      * eapply Qle_trans; [apply Q.le_min_r|]. apply IHle. now left.
      * apply Q.le_min_l.
      * eapply Qle_trans; [apply Q.le_min_r|]. apply IHle. now right.
Qed.

Lemma fold_max_spec (a : Q) (l : list Q) :
  In (fold_right Qmax a l) (a :: l) /\
  forall c, In c (a :: l) -> c <= fold_right Qmax a l.
Proof.
  induction l as [|b l [IHin IHle]].
  - split; [now left|]. intros c [<-|[]]. apply Qle_refl.
  - cbn [fold_right]. split.
    + unfold Qmax at 1, GenericMinMax.gmax.
      destruct (b ?= fold_right Qmax a l).
      * right. now left.
      * destruct IHin as [H|H]; [now left | right; now right].
      * right. now left.
    + intros c [<-|[<-|H]].
      * eapply Qle_trans; [|apply Q.le_max_r]. apply IHle. now left.
      * apply Q.le_max_l.
      * eapply Qle_trans; [|apply Q.le_max_r]. apply IHle. now right.
Qed.

(** The smallest and the largest rank of a cross-section with a value:
    both are ranks of values of the cross-section and bound every rank. *)
Lemma rank_extremes (x : list cell) (a : Q) :
  In (Some a) x ->
  exists lo hi clo chi,
    series_min (rank x) = Some lo /\ series_max (rank x) = Some hi /\
    In (Some clo) x /\ In (Some chi) x /\
    lo = rank_of (dropna x) clo /\ hi = rank_of (dropna x) chi /\
    forall c, In (Some c) x ->
      lo <= rank_of (dropna x) c /\ rank_of (dropna x) c <= hi.
Proof.
  intros Ha. unfold series_min, series_max. rewrite dropna_rank.
  apply dropna_In in Ha.
  assert (Hall : forall c, In (Some c) x ->
            In (rank_of (dropna x) c) (map (rank_of (dropna x)) (dropna x))).
  { intros c Hc. apply in_map. now apply dropna_In. }
  assert (Hback : forall r, In r (map (rank_of (dropna x)) (dropna x)) ->
            exists c, In (Some c) x /\ r = rank_of (dropna x) c).
  { intros r Hr. apply in_map_iff in Hr. destruct Hr as (c & <- & Hc).
    exists c. split; [now apply dropna_In | reflexivity]. }
  destruct (map (rank_of (dropna x)) (dropna x)) as [|r0 rs] eqn:E.
  { destruct (dropna x); [contradiction | discriminate]. }
  destruct (fold_min_spec r0 rs) as [Hmin_in Hmin_le].
  destruct (fold_max_spec r0 rs) as [Hmax_in Hmax_le].
  destruct (Hback _ Hmin_in) as (clo & Hclo & Elo).
  destruct (Hback _ Hmax_in) as (chi & Hchi & Ehi).
  exists (fold_right Qmin r0 rs), (fold_right Qmax r0 rs), clo, chi.
  repeat split; try assumption; try reflexivity.
  - apply Hmin_le. now apply Hall.
  - apply Hmax_le. now apply Hall.
Qed.

Lemma linear_weight_bounds (r lo hi : Q) :
  lo < hi -> lo <= r <= hi ->
  -1 <= (r - lo) / (hi - lo) * -2 + 1 <= 1.
Proof.
  intros Hlt [H1 H2].
  assert (Hpos : 0 < hi - lo) by lra.
  assert (H0 : 0 <= (r - lo) / (hi - lo)).
  { apply Qle_shift_div_l; [exact Hpos | lra]. }
  assert (H1' : (r - lo) / (hi - lo) <= 1).
  { apply Qle_shift_div_r; [exact Hpos | lra]. }
  lra.
Qed.

(** On a date with two different returns every stock with a return gets
    a position between -1 and 1, a stock with the lowest return gets 1
    and a stock with the highest return gets -1; a stock without a
    return gets no position. *)
Theorem linear_position_bounds (x : list cell) (a b : Q) :
  In (Some a) x -> In (Some b) x -> a < b ->
  Forall2 (fun v p =>
             match v with
             | None => p = NaN
             | Some q =>
                 exists w, p = Some w /\ -1 <= w <= 1 /\
                   ((forall c, In (Some c) x -> q <= c) -> w == 1) /\
                   ((forall c, In (Some c) x -> c <= q) -> w == -1)
             end) x (position x).
Proof.
  intros Ha Hb Hab.
  destruct (rank_extremes x a Ha)
    as (lo & hi & clo & chi & Emin & Emax & Hclo & Hchi & Elo & Ehi & Hbnd).
  assert (Hlt : lo < hi).
  { destruct (Hbnd a Ha) as [H1 _]. destruct (Hbnd b Hb) as [_ H2].
    pose proof (rank_of_strict (dropna x) a b (proj2 (dropna_In x a) Ha) Hab).
    lra. }
  unfold position. rewrite Emin, Emax. cbv zeta.
  unfold rank at 1. rewrite map_map.
  apply Forall2_map_right. intros [q|] Hq; [|reflexivity].
  destruct (Hbnd q Hq) as [H1 H2].
  set (r := rank_of (dropna x) q) in *.
  cbn [option_map fsub lift2 fdiv]. fold r.
  destruct (Qeq_bool (hi - lo) 0) eqn:E.
  { apply Qeq_bool_iff in E. lra. }
  cbn [fmul fadd lift2]. eexists. split; [reflexivity|].
  split; [apply linear_weight_bounds; [exact Hlt | now split]|].
  assert (Hne : ~ hi - lo == 0) by lra.
  split; intros Hext.
  - assert (Er : r == lo).
    { apply Qle_antisym; [|exact H1]. rewrite Elo. unfold r.
      apply rank_of_mono. now apply Hext. }
    rewrite Er. field. exact Hne.
  - assert (Er : r == hi).
    { apply Qle_antisym; [exact H2|]. rewrite Ehi. unfold r.
      apply rank_of_mono. now apply Hext. }
    rewrite Er. field. exact Hne.
Qed.

Lemma linear_position_bounds_witness :
  Forall2 (fun v p =>
             match v with
             | None => p = NaN
             | Some q =>
                 exists w, p = Some w /\ -1 <= w <= 1 /\
                   ((forall c, In (Some c) Samples.one_date -> q <= c) -> w == 1) /\
                   ((forall c, In (Some c) Samples.one_date -> c <= q) -> w == -1)
             end) Samples.one_date (position Samples.one_date).
Proof.
  apply (linear_position_bounds Samples.one_date (-1 # 100) (3 # 100)).
  - right. right. now left.
  - now left.
  - reflexivity.
Defined.

(** On a date where all the returns present are equal, and so on a date
    with one stock, no stock gets a position. *)
Theorem linear_position_without_spread (x : list cell) :
  (forall a b, In (Some a) x -> In (Some b) x -> a == b) ->
  Forall (fun p => p = NaN) (position x).
Proof.
  intros Heq. unfold position. cbv zeta. apply Forall_forall.
  intros p Hp. apply in_map_iff in Hp. destruct Hp as (r & <- & Hr).
  destruct r as [r|]; [|reflexivity].
  unfold rank in Hr. apply in_map_iff in Hr.
  destruct Hr as ([q|] & Hq & Hin); [|discriminate].
  destruct (rank_extremes x q Hin)
    as (lo & hi & clo & chi & Emin & Emax & Hclo & Hchi & Elo & Ehi & _).
  rewrite Emin, Emax. cbn [fsub lift2 fdiv].
  assert (E : hi - lo == 0).
  { pose proof (Heq clo chi Hclo Hchi) as Hc.
    assert (H1 : lo <= hi)
      by (rewrite Elo, Ehi; apply rank_of_mono; rewrite Hc; apply Qle_refl).
    assert (H2 : hi <= lo)
      by (rewrite Elo, Ehi; apply rank_of_mono; rewrite Hc; apply Qle_refl).
    lra. }
  apply Qeq_bool_iff in E. rewrite E. reflexivity.
Qed.

Lemma linear_position_without_spread_witness :
  Forall (fun p => p = NaN) (position [Some (2 # 100); NaN]).
Proof.
  apply linear_position_without_spread.
  intros a b [Ha|[Ha|[]]] [Hb|[Hb|[]]]; try discriminate.
  injection Ha as <-. injection Hb as <-. reflexivity.
Defined.

Lemma weights_complement (a c : Q) :
  (below a c + tied a c * (1 # 2)) + (below c a + tied c a * (1 # 2)) == 1.
Proof.
  rank_cases a c; rank_cases c a; lra.
Qed.

Lemma sumq_const_Q (c : Q) (l : list Q) : sumq (fun _ => c) l == Qlen l * c.
Proof.
  rewrite sumq_const. unfold Qlen. now rewrite length_map.
Qed.

(** The ranks of [n] values add up to [n (n + 1) / 2], ties or not. *)
Lemma rank_sum (vals : list Q) :
  sumq (rank_of vals) vals == Qlen vals * (Qlen vals + 1) * (1 # 2).
Proof.
  set (w := fun a c => below a c + tied a c * (1 # 2)).
  set (S := sumq (fun a => sumq (fun c => w a c) vals) vals).
  assert (E1 : sumq (rank_of vals) vals == S + Qlen vals * (1 # 2)).
  { rewrite (sumq_ext (rank_of vals)
               (fun a => sumq (fun c => w a c) vals + (1 # 2)) vals)
      by (intros a _; apply rank_of_sumq).
    rewrite sumq_add, sumq_const_Q. reflexivity. }
  assert (E2 : S + S == Qlen vals * Qlen vals).
  { unfold S at 2. rewrite (sumq_swap w vals vals). unfold S.
    rewrite <- sumq_add.
    rewrite (sumq_ext _ (fun _ => Qlen vals * 1) vals).
    - rewrite sumq_const_Q. ring.
    - intros a _. rewrite <- sumq_add.
      rewrite (sumq_ext _ (fun _ => 1) vals)
        by (intros c _; apply weights_complement).
      apply sumq_const_Q. }
  rewrite E1. lra.
Qed.

Lemma dropna_position_pct (x : list cell) (a : Q) :
  In (Some a) x ->
  dropna (position_pct x)
  = map (fun c => (rank_of (dropna x) c / Qlen (dropna x) - (1 # 2)) * -2)
        (dropna x).
Proof.
  intros Ha. unfold position_pct, rank_pct, rank. rewrite !map_map.
  assert (Hn : Qeq_bool (Qlen (dropna x)) 0 = false).
  { apply dropna_In in Ha. destruct (dropna x) as [|v vs]; [contradiction|].
    pose proof (Qlen_cons_pos v vs) as Hpos.
    destruct (Qeq_bool (Qlen (v :: vs)) 0) eqn:E; [|reflexivity].
    apply Qeq_bool_iff in E. lra. }
  generalize (rank_of (dropna x)) as f. intros f.
  generalize dependent (Qlen (dropna x)). intros n Hn. clear Ha.
  induction x as [|[q|] x IH]; [reflexivity| |exact IH].
  cbn [map option_map fdiv]. rewrite Hn. cbn [fsub fmul lift2].
  rewrite !dropna_Some. cbn [map]. now rewrite IH.
Qed.

(** With percentile ranks the positions of a date with at least one
    return add up to -1, whatever the returns and however many of them
    are tied. *)
Theorem percentile_positions_sum (x : list cell) (a : Q) :
  In (Some a) x ->
  Qsum (dropna (position_pct x)) == -1.
Proof.
  intros Ha. rewrite (dropna_position_pct x a Ha).
  apply dropna_In in Ha.
  set (vals := dropna x) in *.
  assert (Hpos : 0 < Qlen vals).
  { destruct vals as [|v vs]; [contradiction | apply Qlen_cons_pos]. }
  change (sumq (fun c => (rank_of vals c / Qlen vals - (1 # 2)) * -2) vals == -1).
  rewrite (sumq_ext _ (fun c => rank_of vals c * (-2 / Qlen vals) + 1) vals)
    by (intros c _; field; lra).
  rewrite sumq_add, sumq_scale_r, rank_sum, sumq_const_Q.
  field. lra.
Qed.

Lemma percentile_positions_sum_witness :
  Qsum (dropna (position_pct Samples.one_date)) == -1.
Proof.
  apply (percentile_positions_sum Samples.one_date (3 # 100)). now left.
Defined.

End RankFacts.

(** ** Volatility scaling and trading costs *)

Section ScalingFacts.
Import LinearWeights.

Lemma nth_error_removelast {A} (l : list A) (k : nat) :
  nth_error (removelast l) k
  = if Nat.ltb (S k) (List.length l) then nth_error l k else None.
Proof.
  revert k. induction l as [|a l IH]; intros k.
  - now destruct k.
  - destruct l as [|b l].
    + now destruct k.
    + change (removelast (a :: b :: l)) with (a :: removelast (b :: l)).
      destruct k as [|k]; [reflexivity|].
      cbn [nth_error]. rewrite IH. reflexivity.
Qed.

Lemma nth_error_shift_rows (w : Unstacked) (k : nat) :
  nth_error (shift_rows w) (S k)
  = if Nat.ltb (S k) (List.length w) then nth_error w k else None.
Proof.
  destruct w as [|r w]; [reflexivity|].
  unfold shift_rows. cbn [nth_error]. apply nth_error_removelast.
Qed.

Lemma nth_error_shift_series (s : list cell) (k : nat) :
  nth_error (shift_series s) (S k)
  = if Nat.ltb (S k) (List.length s) then nth_error s k else None.
Proof.
  destruct s as [|r s]; [reflexivity|].
  unfold shift_series. cbn [nth_error]. apply nth_error_removelast.
Qed.

Lemma nth_error_combine {A B} (a : list A) (b : list B) (k : nat) :
  nth_error (combine a b) k
  = match nth_error a k, nth_error b k with
    | Some x, Some y => Some (x, y)
    | _, _ => None
    end.
Proof.
  revert b k. induction a as [|x a IH]; intros [|y b] [|k]; try reflexivity.
  - cbn [combine nth_error]. now destruct (nth_error a k).
  - cbn [combine nth_error]. apply IH.
Qed.

Lemma length_removelast_cons {A} (a : A) (l : list A) :
  List.length (removelast (a :: l)) = List.length l.
Proof.
  revert a. induction l as [|b l IH]; intros a; [reflexivity|].
  change (removelast (a :: b :: l)) with (a :: removelast (b :: l)).
  cbn [List.length]. now rewrite IH.
Qed.

Lemma length_shift_rows (w : Unstacked) :
  List.length (shift_rows w) = List.length w.
Proof.
  destruct w as [|r w]; [reflexivity|].
  unfold shift_rows. cbn [List.length]. rewrite length_removelast_cons.
  reflexivity.
Qed.

Lemma length_shift_series (s : list cell) :
  List.length (shift_series s) = List.length s.
Proof.
  destruct s as [|r s]; [reflexivity|].
  unfold shift_series. cbn [List.length]. rewrite length_removelast_cons.
  reflexivity.
Qed.

Lemma length_portfolio_return (position ret : Unstacked) :
  List.length (portfolio_return position ret)
  = Nat.min (List.length position) (List.length ret).
Proof.
  unfold portfolio_return, mul.
  now rewrite !length_map, length_combine, length_shift_rows.
Qed.

Lemma length_realized_vol (np_sqrt : Q -> Q) (s : list cell) :
  List.length (realized_vol np_sqrt s) = List.length s.
Proof.
  unfold realized_vol, rolling_std. now rewrite !length_map, length_seq.
Qed.

Lemma length_scaled_position (position : Unstacked) (rv : list cell) :
  List.length (scaled_position position rv)
  = Nat.min (List.length position) (List.length rv).
Proof.
  unfold scaled_position, div_axis0.
  now rewrite !length_map, length_combine, length_shift_series.
Qed.

(** The row sums of the lagged position times the return, with the
    position scaled and without. *)
Lemma scaled_row (k v : Q) (p r : list cell) :
  ~ v == 0 ->
  cell_eq
    (sum_min_count
       (map (fun c => fmul (fst c) (snd c))
            (combine (map (fmul (Some k)) (map (fun c => fdiv c (Some v)) p)) r)))
    (fmul (Some (k / v))
          (sum_min_count (map (fun c => fmul (fst c) (snd c)) (combine p r)))).
Proof.
  intros Hv.
  assert (Hb : Qeq_bool v 0 = false).
  { destruct (Qeq_bool v 0) eqn:E; [|reflexivity].
    apply Qeq_bool_iff in E. contradiction. }
  set (L := dropna (map (fun c => fmul (fst c) (snd c))
              (combine (map (fmul (Some k)) (map (fun c => fdiv c (Some v)) p)) r))).
  set (R := dropna (map (fun c => fmul (fst c) (snd c)) (combine p r))).
  assert (H : Forall2 (fun a b => a == k / v * b) L R).
  { unfold L, R. clear L R. revert r.
    induction p as [|c p IH]; intros [|d r]; try constructor.
    cbn [map combine fst snd].
    destruct c as [c|]; destruct d as [d|]; cbn [fdiv fmul lift2];
      rewrite ?Hb; cbn [fmul lift2];
      rewrite ?dropna_Some, ?dropna_None; try apply IH.
    constructor; [field; exact Hv | apply IH]. }
  unfold sum_min_count. fold L R.
  assert (Hs : Qsum L == k / v * Qsum R).
  { induction H as [|a b L' R' Hab _ IH]; [simpl; ring|].
    simpl. simpl in IH. rewrite Hab, IH. ring. }
  destruct H as [|a b L' R' Hab H']; [exact I|].
  cbn [fmul lift2 cell_eq]. exact Hs.
Qed.

(** The return of the scaled strategy in a month is the return of the
    unscaled strategy in that month times 0.15 over the realized
    volatility of two months before, when that volatility is known and
    not zero. *)
Theorem strev_scaled_by_volatility_two_months_before
  (np_sqrt : Q -> Q) (position ret : Unstacked) (t : nat) (v : Q) :
  nth_error (realized_vol np_sqrt (portfolio_return position ret)) t
  = Some (Some v) ->
  ~ v == 0 ->
  cell_eq (nth (S (S t)) (strev np_sqrt position ret) NaN)
          (fmul (Some ((15 # 100) / v))
                (nth (S (S t)) (portfolio_return position ret) NaN)).
Proof.
  intros Hrv Hv.
  set (pr := portfolio_return position ret) in *.
  set (rv := realized_vol np_sqrt pr) in *.
  set (m := Nat.min (List.length position) (List.length ret)).
  assert (Lrv : List.length rv = m).
  { unfold rv. rewrite length_realized_vol. apply length_portfolio_return. }
  assert (Lsp : List.length (scaled_position position rv) = m).
  { rewrite length_scaled_position, Lrv. unfold m. lia. }
  assert (Hnth : forall (l : list cell) k,
            nth k l NaN = match nth_error l k with Some c => c | None => NaN end).
  { intros l k. revert l. induction k as [|k IH]; intros [|c l]; try reflexivity.
    apply IH. }
  rewrite !Hnth. unfold strev. fold pr rv. cbv zeta.
  unfold pr. unfold portfolio_return, mul.
  rewrite !nth_error_map, !nth_error_combine, !nth_error_shift_rows, Lsp.
  destruct (nth_error ret (S (S t))) as [r|] eqn:Er.
  2:{ destruct (if Nat.ltb (S (S t)) m then _ else _);
      destruct (if Nat.ltb (S (S t)) (List.length position) then _ else _);
      exact I. }
  assert (Hr : (S (S t) < List.length ret)%nat)
    by (apply nth_error_Some; congruence).
  destruct (Nat.ltb (S (S t)) (List.length position)) eqn:Ep.
  2:{ apply Nat.ltb_ge in Ep.
      assert (E : Nat.ltb (S (S t)) m = false)
        by (apply Nat.ltb_ge; unfold m; lia).
      rewrite E. exact I. }
  apply Nat.ltb_lt in Ep.
  assert (E : Nat.ltb (S (S t)) m = true)
    by (apply Nat.ltb_lt; unfold m; lia).
  rewrite E.
  destruct (nth_error position (S t)) as [p|] eqn:Epos.
  2:{ apply nth_error_None in Epos. lia. }
  unfold scaled_position, div_axis0.
  rewrite !nth_error_map, nth_error_combine, Epos, nth_error_shift_series, Lrv.
  assert (E1 : Nat.ltb (S t) m = true)
    by (apply Nat.ltb_lt; unfold m; lia).
  rewrite E1, Hrv. cbn [option_map fst snd].
  apply scaled_row. exact Hv.
Qed.

Lemma strev_scaled_by_volatility_two_months_before_witness :
  cell_eq
    (nth 5 (strev (fun x => x) Samples.two_stocks_position Samples.two_stocks_ret)
         NaN)
    (fmul (Some ((15 # 100) / Samples.two_stocks_vol))
          (nth 5 (portfolio_return Samples.two_stocks_position
                                   Samples.two_stocks_ret) NaN)).
Proof.
  apply (strev_scaled_by_volatility_two_months_before
           (fun x => x) Samples.two_stocks_position Samples.two_stocks_ret 3
           Samples.two_stocks_vol).
  - vm_compute. reflexivity.
  - intros H. vm_compute in H. discriminate H.
Defined.





End ScalingFacts.
